(** * A shallow embedding of the file sharing client (client/client.go)

    The client stores every record in an untrusted key-value Datastore and
    publishes public keys in a Keystore.  Both stores, the random source and
    the cryptographic primitives belong to the external [userlib]; they are
    modelled symbolically in [Module userlib]: keys, ciphertexts and tags are
    terms, equal only when built the same way, so HashKDF and Argon2Key are
    collision free, a MAC verifies only under the key that made it, and
    random draws are numbered by a counter kept in the world.

    The client functions below are transcribed from the Go source, one
    definition per Go function, in an error-and-state monad in which a
    failing call keeps the writes it has already made. *)

From stdpp Require Import base decidable countable gmap strings list fin_maps.
From Stdlib Require Import Strings.Byte.

Local Open Scope string_scope.
Local Open Scope list_scope.
Local Open Scope nat_scope.

(** ** Outcomes of a Go call *)

(** A Go function returns a value, returns a non-nil [error] (built with
    errors.New from a message), panics, or never returns. *)
Inductive result (A : Type) : Type :=
| Ok (a : A)
| Err (e : string)
| Panic (e : string)
| Diverges.
Arguments Ok {A} a.
Arguments Err {A} e.
Arguments Panic {A} e.
Arguments Diverges {A}.

(** ** Byte strings and keys of the external library *)

(** 16-byte strings: keys, salts, initialisation vectors and UUIDs.
    [KDF k p] stands for the first 16 bytes of HashKDF(k, []byte(p)), the
    only part of a HashKDF output the client ever uses; [KDFb] is the same
    with a byte-string purpose.  [Nil] is the zero value (a nil slice, or
    uuid.Nil). *)
Inductive bytes : Type :=
| Nil
| Argon2 (password salt : string)
| KDF (key : bytes) (purpose : string)
| KDFb (key : bytes) (purpose : bytes)
| Rand (n : nat)
| Uuid (n : nat).

#[global] Instance bytes_eq_dec : EqDecision bytes.
Proof. solve_decision. Defined.

Fixpoint bytes_to_tree (b : bytes) : gen_tree (string + nat) :=
  match b with
  | Nil => GenNode 0 []
  | Argon2 p s => GenNode 1 [GenLeaf (inl p); GenLeaf (inl s)]
  | KDF k p => GenNode 2 [bytes_to_tree k; GenLeaf (inl p)]
  | KDFb k p => GenNode 3 [bytes_to_tree k; bytes_to_tree p]
  | Rand n => GenNode 4 [GenLeaf (inr n)]
  | Uuid n => GenNode 5 [GenLeaf (inr n)]
  end.

Fixpoint tree_to_bytes (t : gen_tree (string + nat)) : option bytes :=
  match t with
  | GenNode 0 [] => Some Nil
  | GenNode 1 [GenLeaf (inl p); GenLeaf (inl s)] => Some (Argon2 p s)
  | GenNode 2 [k; GenLeaf (inl p)] =>
      match tree_to_bytes k with Some k' => Some (KDF k' p) | None => None end
  | GenNode 3 [k; p] =>
      match tree_to_bytes k, tree_to_bytes p with
      | Some k', Some p' => Some (KDFb k' p')
      | _, _ => None
      end
  | GenNode 4 [GenLeaf (inr n)] => Some (Rand n)
  | GenNode 5 [GenLeaf (inr n)] => Some (Uuid n)
  | _ => None
  end.

Lemma tree_to_bytes_to_tree b : tree_to_bytes (bytes_to_tree b) = Some b.
Proof.
  induction b as [| | k IH p | k IHk p IHp | |]; simpl; try reflexivity.
  - now rewrite IH.
  - now rewrite IHk, IHp.
Qed.

#[global] Instance bytes_countable : Countable bytes :=
  inj_countable bytes_to_tree tree_to_bytes tree_to_bytes_to_tree.

(** Asymmetric keys.  Key generation number [n] yields the pair
    ([PKEPub n], [PKEPriv n]) or ([DSPriv n], [DSPub n]); the zero value of
    a private key is [ZeroPriv]. *)
Inductive PublicKeyType : Type := PKEPub (n : nat) | DSPub (n : nat).
Inductive PrivateKeyType : Type := ZeroPriv | PKEPriv (n : nat) | DSPriv (n : nat).

Abbreviation PKEEncKey := PublicKeyType (only parsing).
Abbreviation DSVerifyKey := PublicKeyType (only parsing).
Abbreviation PKEDecKey := PrivateKeyType (only parsing).
Abbreviation DSSignKey := PrivateKeyType (only parsing).

#[global] Instance PublicKeyType_eq_dec : EqDecision PublicKeyType.
Proof. solve_decision. Defined.
#[global] Instance PrivateKeyType_eq_dec : EqDecision PrivateKeyType.
Proof. solve_decision. Defined.

(** userlib.UUID: 16 bytes *)
Abbreviation UUID := bytes (only parsing).

(** ** The client's records (client.go, lines 27-72) *)

Definition LENGTH : nat := 16.
Definition ENCRYPT : string := "encrypt".
Definition MAC : string := "mac".
Definition ACCESS : string := "access".

Record User : Type := mkUser {
  Username : string;
  RSAkey : PKEDecKey;
  Sigkey : DSSignKey;
  sourceKey : bytes
}.

Record Access : Type := mkAccess {
  MetaUUID : UUID;
  MetaSourcekey : bytes;
  InvitationUUID : UUID;
  InvitationSourcekey : bytes;
  InvitationList_ : UUID;
  ListKey : bytes;
  IsOwner : bool
}.

(** A Go map is nil ([None]) or a finite map; writing into a nil map
    panics, reading from it finds nothing. *)
Record InvitationList : Type := mkInvitationList {
  Invitations : option (gmap UUID bytes)
}.

Record InvitationMeta : Type := mkInvitationMeta {
  im_InvitationUUID : UUID;
  im_InvitationSourcekey : bytes
}.

Record Invitation : Type := mkInvitation {
  inv_MetaUUID : UUID;
  inv_MetaSourcekey : bytes
}.

Record Meta : Type := mkMeta {
  Start : UUID;
  Last : UUID;
  FileSourcekey : bytes
}.

Record File : Type := mkFile {
  Contents : list byte;
  Next : UUID
}.

#[global] Instance byte_eq_dec : EqDecision byte := Byte.byte_eq_dec.
#[global] Instance User_eq_dec : EqDecision User.
Proof. solve_decision. Defined.
#[global] Instance Access_eq_dec : EqDecision Access.
Proof. solve_decision. Defined.
#[global] Instance InvitationList_eq_dec : EqDecision InvitationList.
Proof. solve_decision. Defined.
#[global] Instance InvitationMeta_eq_dec : EqDecision InvitationMeta.
Proof. solve_decision. Defined.
#[global] Instance Invitation_eq_dec : EqDecision Invitation.
Proof. solve_decision. Defined.
#[global] Instance Meta_eq_dec : EqDecision Meta.
Proof. solve_decision. Defined.
#[global] Instance File_eq_dec : EqDecision File.
Proof. solve_decision. Defined.

(** ** encoding/json

    The bytes json.Marshal produces for one of the client's records are
    modelled by the record, tagged with its Go type.  Bytes that do not
    parse as JSON are [None]. *)
Inductive json : Type :=
| JUser (username : string) (rsakey : PKEDecKey) (sigkey : DSSignKey)
| JAccess (a : Access)
| JInvitationList (l : InvitationList)
| JInvitationMeta (m : InvitationMeta)
| JInvitation (i : Invitation)
| JMeta (m : Meta)
| JFile (f : File).

Abbreviation plaintext := (option json) (only parsing).

#[global] Instance json_eq_dec : EqDecision json.
Proof. solve_decision. Defined.

(** json.Marshal skips the unexported field [sourceKey] of [User];
    json.Unmarshal fills the fields whose names occur in the JSON object
    and leaves every other field at its zero value, so that the JSON of one
    record decodes, without an error, into a record of another type. *)
Class JSON (A : Type) : Type := {
  to_json : A → json;
  json_Unmarshal : plaintext → result A
}.

(** json.Marshal never fails on the client's records. *)
Definition json_Marshal {A} `{JSON A} (txt : A) : result plaintext :=
  Ok (Some (to_json txt)).

Definition json_error {A} : result A := Err "invalid character".

Definition zeroAccess : Access := mkAccess Nil Nil Nil Nil Nil Nil false.

#[global] Instance JSON_User : JSON User := {|
  to_json u := JUser (Username u) (RSAkey u) (Sigkey u);
  json_Unmarshal p :=
    match p with
    | None => json_error
    | Some (JUser n r s) => Ok (mkUser n r s Nil)
    | Some _ => Ok (mkUser "" ZeroPriv ZeroPriv Nil)
    end
|}.

#[global] Instance JSON_Access : JSON Access := {|
  to_json a := JAccess a;
  json_Unmarshal p :=
    match p with
    | None => json_error
    | Some (JAccess a) => Ok a
    | Some (JInvitation i) =>
        Ok (mkAccess (inv_MetaUUID i) (inv_MetaSourcekey i) Nil Nil Nil Nil false)
    | Some (JInvitationMeta m) =>
        Ok (mkAccess Nil Nil (im_InvitationUUID m) (im_InvitationSourcekey m)
              Nil Nil false)
    | Some _ => Ok zeroAccess
    end
|}.

#[global] Instance JSON_InvitationList : JSON InvitationList := {|
  to_json l := JInvitationList l;
  json_Unmarshal p :=
    match p with
    | None => json_error
    | Some (JInvitationList l) => Ok l
    | Some _ => Ok (mkInvitationList None)
    end
|}.

#[global] Instance JSON_InvitationMeta : JSON InvitationMeta := {|
  to_json m := JInvitationMeta m;
  json_Unmarshal p :=
    match p with
    | None => json_error
    | Some (JInvitationMeta m) => Ok m
    | Some (JAccess a) =>
        Ok (mkInvitationMeta (InvitationUUID a) (InvitationSourcekey a))
    | Some _ => Ok (mkInvitationMeta Nil Nil)
    end
|}.

#[global] Instance JSON_Invitation : JSON Invitation := {|
  to_json i := JInvitation i;
  json_Unmarshal p :=
    match p with
    | None => json_error
    | Some (JInvitation i) => Ok i
    | Some (JAccess a) => Ok (mkInvitation (MetaUUID a) (MetaSourcekey a))
    | Some _ => Ok (mkInvitation Nil Nil)
    end
|}.

#[global] Instance JSON_Meta : JSON Meta := {|
  to_json m := JMeta m;
  json_Unmarshal p :=
    match p with
    | None => json_error
    | Some (JMeta m) => Ok m
    | Some _ => Ok (mkMeta Nil Nil Nil)
    end
|}.

#[global] Instance JSON_File : JSON File := {|
  to_json f := JFile f;
  json_Unmarshal p :=
    match p with
    | None => json_error
    | Some (JFile f) => Ok f
    | Some _ => Ok (mkFile [] Nil)
    end
|}.

(** ** The external library: stores, randomness and cryptography *)

(** Ciphertexts, tags and Datastore values. *)
Inductive ciphertext : Type :=
| CtSym (key iv : bytes) (p : plaintext)
| CtPKE (n : nat) (p : plaintext)
| CtRaw (s : string).

Inductive tagbytes : Type :=
| TagHMAC (key : bytes) (msg : ciphertext)
| TagSig (n : nat) (msg : ciphertext)
| TagRaw (s : string).

(** A Datastore value is the JSON of a map with the entries "Msg" and
    "Tag" ([Packed]) or any other bytes ([RawValue]). *)
Inductive value : Type :=
| Packed (msg : ciphertext) (tag : tagbytes)
| RawValue (s : string).

#[global] Instance ciphertext_eq_dec : EqDecision ciphertext.
Proof. solve_decision. Defined.
#[global] Instance tagbytes_eq_dec : EqDecision tagbytes.
Proof. solve_decision. Defined.
#[global] Instance value_eq_dec : EqDecision value.
Proof. solve_decision. Defined.

(** The world a client call runs in: the two global stores and the number
    of random draws made so far. *)
Record World : Type := mkWorld {
  datastore : gmap UUID value;
  keystore : gmap string PublicKeyType;
  rng : nat
}.

Definition emptyWorld : World := mkWorld ∅ ∅ 0.

(** A call may read and write the world, and ends in a [result]; the
    world it leaves behind is kept whatever the result. *)
Definition M (A : Type) : Type := World → result A * World.

#[global] Instance result_ret : MRet result := λ A a, Ok a.
#[global] Instance result_bind : MBind result := λ A B f r,
  match r with
  | Ok a => f a
  | Err e => Err e
  | Panic e => Panic e
  | Diverges => Diverges
  end.

#[global] Instance M_ret : MRet M := λ A a w, (Ok a, w).
#[global] Instance M_bind : MBind M := λ A B f m w,
  match m w with
  | (Ok a, w') => f a w'
  | (Err e, w') => (Err e, w')
  | (Panic e, w') => (Panic e, w')
  | (Diverges, w') => (Diverges, w')
  end.

Definition lift {A} (r : result A) : M A := λ w, (r, w).

(** errors.New(msg), returned *)
Definition fail {A} (msg : string) : M A := lift (Err msg).

(** [if err != nil { return errors.New(msg) }] after a call *)
Definition orErr {A} (m : M A) (msg : string) : M A := λ w,
  match m w with
  | (Err _, w') => (Err msg, w')
  | rw => rw
  end.

(** a call whose returned error is dropped *)
Definition ignoreErr (m : M unit) : M unit := λ w,
  match m w with
  | (Err _, w') => (Ok (), w')
  | rw => rw
  end.

Definition bump (w : World) : World :=
  mkWorld (datastore w) (keystore w) (S (rng w)).

Module userlib.

Definition DatastoreGet (key : UUID) : M (option value) :=
  λ w, (Ok (datastore w !! key), w).

Definition DatastoreSet (key : UUID) (v : value) : M unit :=
  λ w, (Ok (), mkWorld (<[key:=v]> (datastore w)) (keystore w) (rng w)).

Definition KeystoreGet (key : string) : M (option PublicKeyType) :=
  λ w, (Ok (keystore w !! key), w).

(** The Keystore is write-once per name. *)
Definition KeystoreSet (key : string) (v : PublicKeyType) : M unit :=
  λ w, match keystore w !! key with
       | Some _ => (Err "entry in keystore has been taken", w)
       | None => (Ok (), mkWorld (datastore w) (<[key:=v]> (keystore w)) (rng w))
       end.

Definition RandomBytes (size : nat) : M bytes :=
  λ w, (Ok (Rand (rng w)), bump w).

Definition Argon2Key (password salt : string) (keyLen : nat) : bytes :=
  Argon2 password salt.

(** HashKDF refuses a source key that is not 16 bytes long. *)
Definition HashKDF (sourceKey : bytes) (purpose : string) : result bytes :=
  match sourceKey with
  | Nil => Err "the input as key for HashKDF should be a 16-byte key"
  | _ => Ok (KDF sourceKey purpose)
  end.

Definition HashKDFb (sourceKey : bytes) (purpose : bytes) : result bytes :=
  match sourceKey with
  | Nil => Err "the input as key for HashKDF should be a 16-byte key"
  | _ => Ok (KDFb sourceKey purpose)
  end.

Definition PKEKeyGen : M (PKEEncKey * PKEDecKey) :=
  λ w, (Ok (PKEPub (rng w), PKEPriv (rng w)), bump w).

Definition DSKeyGen : M (DSSignKey * DSVerifyKey) :=
  λ w, (Ok (DSPriv (rng w), DSPub (rng w)), bump w).

Definition SymEnc (key iv : bytes) (p : plaintext) : result ciphertext :=
  match key, iv with
  | Nil, _ => Panic "SymEnc: key length"
  | _, Nil => Panic "SymEnc: iv length"
  | _, _ => Ok (CtSym key iv p)
  end.

(** Decryption under another key, or of bytes that are no ciphertext,
    gives bytes that do not parse (where the library panics instead, on a
    ciphertext of the wrong length, the call does not return a value
    either).  The client decrypts only what has passed a MAC check. *)
Definition SymDec (key : bytes) (c : ciphertext) : plaintext :=
  match c with
  | CtSym k _ p => if decide (k = key) then p else None
  | _ => None
  end.

Definition HMACEval (key : bytes) (msg : ciphertext) : result tagbytes :=
  match key with
  | Nil => Err "input as key for hmac should be a 16-byte key"
  | _ => Ok (TagHMAC key msg)
  end.

Definition HMACEqual (a b : tagbytes) : bool := bool_decide (a = b).

Definition PKEEnc (ek : PKEEncKey) (p : plaintext) : result ciphertext :=
  match ek with
  | PKEPub n => Ok (CtPKE n p)
  | DSPub _ => Err "using a non-PKE key for PKE"
  end.

Definition PKEDec (dk : PKEDecKey) (c : ciphertext) : result plaintext :=
  match dk, c with
  | PKEPriv n, CtPKE m p =>
      if decide (n = m) then Ok p else Err "crypto/rsa: decryption error"
  | PKEPriv _, _ => Err "crypto/rsa: decryption error"
  | _, _ => Err "using a non-PKE key for PKE"
  end.

Definition DSSign (sk : DSSignKey) (msg : ciphertext) : result tagbytes :=
  match sk with
  | DSPriv n => Ok (TagSig n msg)
  | _ => Err "using a non-DS key for DS"
  end.

Definition DSVerify (vk : DSVerifyKey) (msg : ciphertext) (sig : tagbytes)
  : result unit :=
  match vk with
  | DSPub n =>
      if decide (sig = TagSig n msg) then Ok ()
      else Err "crypto/rsa: verification error"
  | PKEPub _ => Err "using a non-DS key for DS"
  end.

End userlib.

(** uuid.New() and uuid.FromBytes of the google/uuid package *)
Definition uuid_New : M UUID := λ w, (Ok (Uuid (rng w)), bump w).

Definition uuid_FromBytes (b : bytes) : result UUID :=
  match b with
  | Nil => Err "invalid UUID (got 0 bytes)"
  | _ => Ok b
  end.

Import userlib.

(** [if err != nil { return errors.New(msg) }] after a call without effects *)
Definition orE {A} (r : result A) (msg : string) : result A :=
  match r with
  | Err _ => Err msg
  | _ => r
  end.

(** The value a Go call leaves in its result variable when the caller goes
    on without looking at the error: the zero value after a failure. *)
Definition valueOr {A} (r : result A) (zero : A) : A :=
  match r with
  | Ok a => a
  | _ => zero
  end.

(** [b[:LENGTH]] taken before the error of the call that made [b] is
    looked at: slicing the nil slice of a failed call panics. *)
Definition sliceLENGTH (r : result bytes) : result bytes :=
  match r with
  | Ok b => Ok b
  | _ => Panic "slice bounds out of range"
  end.

(** ** Helper functions (client.go, lines 1014-1408) *)

Definition GetUserUUID (user : string) : result UUID :=
  orE (uuid_FromBytes (Argon2Key user "UUID" LENGTH))
      "CONVERSION TO UUID FAILED".

Definition GetSourceKey (user password : string) : bytes :=
  Argon2Key password user LENGTH.

Definition GetAsynchKeys
  : M (PKEEncKey * PKEDecKey * DSSignKey * DSVerifyKey) :=
  '(pk, sk) ← PKEKeyGen;
  '(signpriv, signpub) ← DSKeyGen;
  mret (pk, sk, signpriv, signpub).

Definition GetTwoHASHKDFKeys (sourcekey : bytes) (purpose1 purpose2 : string)
  : result (bytes * bytes) :=
  key1 ← orE (HashKDF sourcekey purpose1) "KEY CREATION FAILED";
  key2 ← orE (HashKDF sourcekey purpose2) "KEY CREATION FAILED";
  mret (key1, key2).

Definition GetAccessUUID (user : User) (filename : string) : result UUID :=
  accesshash ← orE (HashKDF (sourceKey user) filename) "HASHING FAILED";
  orE (uuid_FromBytes accesshash) "CONVERSION TO UUID FAILED".

Definition GetInvitationUUID (owner : User) (sharee filename : string)
  : result UUID :=
  invitehash ← orE (HashKDF (sourceKey owner)
                      (Username owner +:+ filename +:+ sharee))
                   "HASHING FAILED";
  orE (uuid_FromBytes invitehash) "FILE NOT FOUND".

Definition GenerateUUIDVal (msg : ciphertext) (tag : tagbytes) : result value :=
  Ok (Packed msg tag).

Definition UnpackValue (v : value) : result (ciphertext * tagbytes) :=
  match v with
  | Packed msg tag => Ok (msg, tag)
  | RawValue _ => Err "UNMARSHAL FAILED"
  end.

Definition EncryptThenMac {A} `{JSON A} (txt : A) (key1 key2 : bytes)
  : M (ciphertext * tagbytes) :=
  plaintext ← lift (orE (json_Marshal txt) "MARSHAL FAILED");
  rndbytes ← RandomBytes LENGTH;
  msg ← lift (SymEnc key1 rndbytes plaintext);
  tag ← lift (orE (HMACEval key2 msg) "HMAC FAILED");
  mret (msg, tag).

Definition EncryptThenMacAccess (txt : Access) (key1 key2 : bytes)
  : M (ciphertext * tagbytes) :=
  plaintext ← lift (orE (json_Marshal txt) "MARSHAL FAILED");
  rndbytes ← RandomBytes LENGTH;
  msg ← lift (SymEnc key1 rndbytes plaintext);
  tag ← lift (orE (HMACEval key2 msg) "HMAC FAILED");
  mret (msg, tag).

Definition EncryptThenSign (txt : InvitationMeta) (user : string)
    (sk : DSSignKey) : M (ciphertext * tagbytes) :=
  plaintext ← lift (orE (json_Marshal txt) "MARSHAL FAILED");
  pubkey ← KeystoreGet (user +:+ " public key");
  match pubkey with
  | None => fail "KEYSTOREGET FAILED"
  | Some pubkey =>
      ciphertext ← lift (orE (PKEEnc pubkey plaintext) "ENCRYPTION FAILED");
      sig ← lift (DSSign sk ciphertext);
      mret (ciphertext, sig)
  end.

Definition CheckTag (msg : ciphertext) (tag : tagbytes) (key2 : bytes)
  : result unit :=
  computedTag ← HMACEval key2 msg;
  if HMACEqual tag computedTag then Ok ()
  else Err "integrity check failed".

Definition CheckSignature (msg : ciphertext) (sig : tagbytes) (user : string)
  : M unit :=
  sk ← KeystoreGet (user +:+ " signature key");
  match sk with
  | None => fail "could not get sign key"
  | Some sk => lift (DSVerify sk msg sig)
  end.

Definition DecryptFileMsg (msg : ciphertext) (key1 : bytes) : result File :=
  json_Unmarshal (SymDec key1 msg).

Definition DecryptAccessMsg (msg : ciphertext) (key1 : bytes) : result Access :=
  json_Unmarshal (SymDec key1 msg).

Definition DecryptMetaMsg (msg : ciphertext) (key1 : bytes) : result Meta :=
  json_Unmarshal (SymDec key1 msg).

Definition DecryptInvitationMsg (msg : ciphertext) (key1 : bytes)
  : result Invitation :=
  json_Unmarshal (SymDec key1 msg).

Definition DecryptInvitationListMsg (msg : ciphertext) (key1 : bytes)
  : result InvitationList :=
  json_Unmarshal (SymDec key1 msg).

Definition DecryptInvitationMetaMsg (msg : ciphertext) (key1 : bytes)
  : result InvitationMeta :=
  json_Unmarshal (SymDec key1 msg).

Definition DecryptAsynchMsg (msg : ciphertext) (pk : PKEDecKey)
  : result InvitationMeta :=
  plaintext ← orE (PKEDec pk msg) "DECRYPTION FAILED";
  orE (json_Unmarshal plaintext) "UNMARSHALLING FAILED".

Definition GetRandomKey (user : User) : M bytes :=
  salt ← RandomBytes LENGTH;
  lift (sliceLENGTH (HashKDFb (sourceKey user) salt)).

Definition GetAccessStruct (invitation : UUID) (sourcekey : bytes) : Access :=
  mkAccess Nil Nil invitation sourcekey Nil Nil false.

Definition GetAccessKey (sourcekey : bytes) (filename : string) : result bytes :=
  sliceLENGTH (HashKDF sourcekey filename).

Definition AddFileToDatabase (fileUUID : UUID) (fileSourceKey : bytes)
    (content : list byte) : M UUID :=
  nextFileUUID ← uuid_New;
  '(fileEncryptKey, fileHMACKey) ←
    lift (orE (GetTwoHASHKDFKeys fileSourceKey ENCRYPT MAC) "failed to get keys");
  let file := mkFile content nextFileUUID in
  '(encryptedBytes, tag) ←
    orErr (EncryptThenMac file fileEncryptKey fileHMACKey)
          "failed to EncryptThenMac";
  value ← lift (orE (GenerateUUIDVal encryptedBytes tag)
                  "failed to package data for entry into DataStore");
  DatastoreSet fileUUID value;;
  mret nextFileUUID.

Definition GetMetaUUIDAndSourceKey (accessStruct : Access) : M (UUID * bytes) :=
  let userOwnsFile := IsOwner accessStruct in
  if negb userOwnsFile then
    let invitationUUID := InvitationUUID accessStruct in
    let invitationSourceKey := InvitationSourcekey accessStruct in
    match GetTwoHASHKDFKeys invitationSourceKey ENCRYPT MAC with
    | Ok (invitationEncryptKey, invitationHMACKey) =>
        invitationValue ← DatastoreGet invitationUUID;
        match invitationValue with
        | None => fail "invitation does not exist"
        | Some invitationValue =>
            '(invitationMsg, invitationTag) ←
              lift (orE (UnpackValue invitationValue)
                      "could not unpack invitation value");
            lift (orE (CheckTag invitationMsg invitationTag invitationHMACKey)
                    "integrity check failed: Invitation struct has unauthorized modifications");;
            invitationStruct ←
              lift (orE (DecryptInvitationMsg invitationMsg invitationEncryptKey)
                      "could not decrypt Invitation Struct");
            mret (inv_MetaUUID invitationStruct,
                  inv_MetaSourcekey invitationStruct)
        end
    | Err _ => uuid_New;; fail "could not get keys"
    | Panic e => lift (Panic e)
    | Diverges => lift Diverges
    end
  else
    mret (MetaUUID accessStruct, MetaSourcekey accessStruct).

Definition UnpackCheckTagAndDecryptFile (fileUUID : UUID)
    (fileEncryptKey fileHMACKey : bytes) : M File :=
  fileValue ← DatastoreGet fileUUID;
  match fileValue with
  | None => fail "file value was not found in DataStore"
  | Some fileValue =>
      '(fileMsg, fileTag) ←
        lift (orE (UnpackValue fileValue) "file could not be unpacked");
      lift (orE (CheckTag fileMsg fileTag fileHMACKey)
              "integrity check failed: File has unauthorized modifications");;
      lift (orE (DecryptFileMsg fileMsg fileEncryptKey)
              "file could not be decrypted")
  end.

Definition GetInvitationSourceKey (sourceKey : bytes) (user filename : string)
  : result bytes :=
  sliceLENGTH (HashKDF sourceKey (user +:+ ACCESS +:+ filename)).

(** ** The client API (client.go, lines 74-1012) *)

Definition InitUser (username password : string) : M User :=
  if decide (username = "") then fail "username cannot be empty" else
  userUUID ← lift (GetUserUUID username);
  existing ← DatastoreGet userUUID;
  match existing with
  | Some _ => fail "username already exists"
  | None =>
      let sourceKey := GetSourceKey username password in
      '(RSAPublicKey, RSAPrivateKey, DSSignKey, DSVerifyKey) ←
        orErr GetAsynchKeys "GetAsynchKeys error";
      '(encryptKey, hmacKey) ←
        lift (orE (GetTwoHASHKDFKeys sourceKey ENCRYPT MAC)
                "GetTwoHASHKDFKeys error");
      ignoreErr (KeystoreSet (username +:+ " public key") RSAPublicKey);;
      ignoreErr (KeystoreSet (username +:+ " signature key") DSVerifyKey);;
      let userdata := mkUser username RSAPrivateKey DSSignKey sourceKey in
      '(msg, tag) ← EncryptThenMac userdata encryptKey hmacKey;
      value ← lift (orE (GenerateUUIDVal msg tag) "GenerateUUIDVal error");
      DatastoreSet userUUID value;;
      mret userdata
  end.

Definition GetUser (username password : string) : M User :=
  if decide (username = "") then fail "username cannot be empty" else
  userUUID ← lift (orE (GetUserUUID username) "GetUserUUID error");
  encryptedUserdata ← DatastoreGet userUUID;
  match encryptedUserdata with
  | None => fail "username does not exist"
  | Some encryptedUserdata =>
      '(msg, tag) ← lift (orE (UnpackValue encryptedUserdata)
                            "failed to unpack user data");
      let sourceKey := GetSourceKey username password in
      '(encryptKey, hmacKey) ←
        lift (orE (GetTwoHASHKDFKeys sourceKey ENCRYPT MAC)
                "failed to generate encryption and HMAC keys");
      lift (orE (CheckTag msg tag hmacKey)
              "data integrity check failed: either wrong credentials or tampering");;
      let decryptedMessage := SymDec encryptKey msg in
      userdata ← lift (orE (json_Unmarshal decryptedMessage)
                         "failed to unmarshal user data");
      let userdata :=
        mkUser (Username userdata) (RSAkey userdata) (Sigkey userdata) sourceKey in
      if decide (Username userdata ≠ username)
      then fail "retrieved username does not match expected username"
      else mret userdata
  end.

Definition StoreFile (userdata : User) (filename : string)
    (content : list byte) : M unit :=
  accessUUID ← lift (orE (GetAccessUUID userdata filename)
                       "failed to get accessUUID");
  accessSourceKey ← lift (orE (GetAccessKey (sourceKey userdata) filename)
                            "failed to get access sourcekey");
  '(accessEncryptKey, accessHMACKey) ←
    lift (orE (GetTwoHASHKDFKeys accessSourceKey ENCRYPT MAC)
            "failed to get access encrypt and mac keys");
  accessValue ← DatastoreGet accessUUID;
  match accessValue with
  | Some accessValue =>
      '(accessMsg, accessTag) ←
        lift (orE (UnpackValue accessValue) "failed to unpack Access Struct");
      lift (orE (CheckTag accessMsg accessTag accessHMACKey)
              "integrity check failed: Access Struct has been tampered with");;
      accessStruct ← lift (orE (DecryptAccessMsg accessMsg accessEncryptKey)
                             "could not decrypt Access Struct");
      '(metaUUID, metaSourceKey) ←
        orErr (GetMetaUUIDAndSourceKey accessStruct)
              "could not get Meta UUID and sourcekey";
      '(metaEncryptKey, metaHMACKey) ←
        lift (orE (GetTwoHASHKDFKeys metaSourceKey ENCRYPT MAC)
                "could not get Meta encrypt and mac keys");
      metaValue ← DatastoreGet metaUUID;
      match metaValue with
      | None => fail "could not find Meta data in datastore"
      | Some metaValue =>
          '(metaMsg, metaTag) ←
            lift (orE (UnpackValue metaValue) "could not unpack Meta value");
          lift (orE (CheckTag metaMsg metaTag metaHMACKey)
                  "integrity check failed: Meta struct has been tampered with");;
          metaStruct ← lift (orE (DecryptMetaMsg metaMsg metaEncryptKey)
                               "failed to decrypt Meta struct");
          let startoffile := Start metaStruct in
          let fileSourceKey := FileSourcekey metaStruct in
          newNextUUID ← AddFileToDatabase startoffile fileSourceKey content;
          let metaStruct :=
            mkMeta (Start metaStruct) newNextUUID (FileSourcekey metaStruct) in
          '(metaMsg, metaTag) ← EncryptThenMac metaStruct metaEncryptKey metaHMACKey;
          metaValue ← lift (GenerateUUIDVal metaMsg metaTag);
          DatastoreSet metaUUID metaValue
      end
  | None =>
      fileUUID ← uuid_New;
      fileSourceKey ← orErr (GetRandomKey userdata) "failed to get file sourcekey";
      nextFileUUID ← orErr (AddFileToDatabase fileUUID fileSourceKey content)
                           "failed to add file to datastore";
      metaUUID ← uuid_New;
      metaSourceKey ← orErr (GetRandomKey userdata) "failed to get meta sourcekey";
      '(metaEncryptKey, metaHMACKey) ←
        lift (orE (GetTwoHASHKDFKeys metaSourceKey ENCRYPT MAC)
                "failed to get file HDKF");
      let metaStruct := mkMeta fileUUID nextFileUUID fileSourceKey in
      '(metaMsg, metaTag) ←
        orErr (EncryptThenMac metaStruct metaEncryptKey metaHMACKey)
              "failed to package data for entry into DataStore";
      metaValue ← lift (GenerateUUIDVal metaMsg metaTag);
      DatastoreSet metaUUID metaValue;;
      userListKey ← GetRandomKey userdata;
      let invitationList := mkInvitationList (Some ∅) in
      let '(invitationListEncryptKey, invitationListHMACKey) :=
        valueOr (GetTwoHASHKDFKeys userListKey ENCRYPT MAC) (Nil, Nil) in
      '(userListMsg, userListTag) ←
        EncryptThenMac invitationList invitationListEncryptKey invitationListHMACKey;
      inviteListValue ← lift (GenerateUUIDVal userListMsg userListTag);
      inviteListUUID ← uuid_New;
      DatastoreSet inviteListUUID inviteListValue;;
      let ownerStruct :=
        mkAccess metaUUID metaSourceKey Nil Nil inviteListUUID userListKey true in
      if negb (IsOwner ownerStruct) then fail "error making struct" else
      '(ownerMsg, ownerTag) ←
        EncryptThenMacAccess ownerStruct accessEncryptKey accessHMACKey;
      ownerValue ← lift (GenerateUUIDVal ownerMsg ownerTag);
      DatastoreSet accessUUID ownerValue
  end.

(** The loop of LoadFile, [for currentUUID != endoffile { ... }].  The Go
    loop has no bound; [fuel] bounds the number of blocks read, and a walk
    that needs more never returns. *)
Fixpoint LoadFile_loop (fuel : nat) (fileEncryptKey fileHMACKey : bytes)
    (endoffile currentUUID : UUID) (fullContent : list byte)
  : M (list byte) :=
  if decide (currentUUID = endoffile) then mret fullContent else
  match fuel with
  | 0 => lift Diverges
  | S fuel =>
      fileValue ← DatastoreGet currentUUID;
      match fileValue with
      | None => fail "File data block not found"
      | Some fileValue =>
          '(fileMsg, fileTag) ←
            lift (orE (UnpackValue fileValue) "file could not be unpacked");
          lift (orE (CheckTag fileMsg fileTag fileHMACKey)
                  "integrity check failed: File has unauthorized modifications");;
          fileStruct ← lift (orE (DecryptFileMsg fileMsg fileEncryptKey)
                               "File could not be decrypted");
          LoadFile_loop fuel fileEncryptKey fileHMACKey endoffile
            (Next fileStruct) (fullContent ++ Contents fileStruct)
      end
  end.

(** The walk reads only blocks that are in the Datastore and does not
    change it: one that has read more blocks than the Datastore holds has
    read some block twice and goes on for ever.  This is the fuel LoadFile
    gets. *)
Definition loadFuel : M nat := λ w, (Ok (S (size (datastore w))), w).

Definition LoadFile (userdata : User) (filename : string) : M (list byte) :=
  accessUUID ← lift (orE (GetAccessUUID userdata filename)
                       "failed to get accessUUID");
  accessValue ← DatastoreGet accessUUID;
  match accessValue with
  | None => fail "file does not exist in user namespace"
  | Some accessValue =>
      accessSourceKey ← lift (orE (GetAccessKey (sourceKey userdata) filename)
                                "failed to get access sourcekey");
      '(accessEncryptKey, accessHMACKey) ←
        lift (orE (GetTwoHASHKDFKeys accessSourceKey ENCRYPT MAC)
                "failed to generate encryption and HMAC keys for Access Struct");
      '(accessMsg, accessTag) ←
        lift (orE (UnpackValue accessValue) "failed to unpack Access Struct");
      lift (orE (CheckTag accessMsg accessTag accessHMACKey)
              "integrity check failed: Access Struct has been tampered with");;
      accessStruct ← lift (orE (DecryptAccessMsg accessMsg accessEncryptKey)
                             "could not decrypt access message");
      '(metaUUID, metaSourceKey) ←
        orErr (GetMetaUUIDAndSourceKey accessStruct)
              "could not get Meta UUID and soucekey";
      '(metaEncryptKey, metaHMACKey) ←
        lift (orE (GetTwoHASHKDFKeys metaSourceKey ENCRYPT MAC)
                "could not get Meta encrypt and mac keys");
      metaValue ← DatastoreGet metaUUID;
      match metaValue with
      | None => fail "could not find Meta data in datastore"
      | Some metaValue =>
          '(metaMsg, metaTag) ←
            lift (orE (UnpackValue metaValue) "could not unpack Meta value");
          lift (orE (CheckTag metaMsg metaTag metaHMACKey)
                  "integrity check failed: Meta struct has been tampered with");;
          metaStruct ← lift (orE (DecryptMetaMsg metaMsg metaEncryptKey)
                               "failed to decrypt Meta struct");
          let startoffile := Start metaStruct in
          let endoffile := Last metaStruct in
          let fileSourceKey := FileSourcekey metaStruct in
          '(fileEncryptKey, fileHMACKey) ←
            lift (orE (GetTwoHASHKDFKeys fileSourceKey ENCRYPT MAC)
                    "failed to get keys for File");
          fuel ← loadFuel;
          LoadFile_loop fuel fileEncryptKey fileHMACKey endoffile startoffile []
      end
  end.

Definition AppendToFile (userdata : User) (filename : string)
    (content : list byte) : M unit :=
  accessUUID ← lift (orE (GetAccessUUID userdata filename)
                       "failed to get access UUID sourcekey");
  accessValue ← DatastoreGet accessUUID;
  match accessValue with
  | None => fail "File does not exist in user namespace"
  | Some accessValue =>
      accessSourceKey ← lift (orE (GetAccessKey (sourceKey userdata) filename)
                                "failed to get access sourcekey");
      '(accessEncryptKey, accessHMACKey) ←
        lift (orE (GetTwoHASHKDFKeys accessSourceKey ENCRYPT MAC)
                "failed to generate encryption and HMAC keys for Access Struct");
      '(accessMsg, accessTag) ←
        lift (orE (UnpackValue accessValue) "failed to unpack Access Struct");
      lift (orE (CheckTag accessMsg accessTag accessHMACKey)
              "integrity check failed: Access Struct has been tampered with");;
      accessStruct ← lift (orE (DecryptAccessMsg accessMsg accessEncryptKey)
                             "could not decrypt Access Struct");
      '(metaUUID, metaSourceKey) ←
        orErr (GetMetaUUIDAndSourceKey accessStruct)
              "could not get Meta UUID and soucekey";
      '(metaEncryptKey, metaHMACKey) ←
        lift (orE (GetTwoHASHKDFKeys metaSourceKey ENCRYPT MAC)
                "could not get Meta encrypt and mac keys");
      metaValue ← DatastoreGet metaUUID;
      match metaValue with
      | None => fail "could not find Meta data in datastore"
      | Some metaValue =>
          '(metaMsg, metaTag) ←
            lift (orE (UnpackValue metaValue) "could not unpack Meta value");
          lift (orE (CheckTag metaMsg metaTag metaHMACKey)
                  "integrity check failed: Meta struct has been tampered with");;
          metaStruct ← lift (orE (DecryptMetaMsg metaMsg metaEncryptKey)
                               "failed to decrypt Meta struct");
          let fileSourceKey := FileSourcekey metaStruct in
          let lastUUID := Last metaStruct in
          nextFileUUID ← AddFileToDatabase lastUUID fileSourceKey content;
          let metaStruct :=
            mkMeta (Start metaStruct) nextFileUUID (FileSourcekey metaStruct) in
          '(metaMsg, metaTag) ← EncryptThenMac metaStruct metaEncryptKey metaHMACKey;
          metaValue ← lift (GenerateUUIDVal metaMsg metaTag);
          DatastoreSet metaUUID metaValue
      end
  end.

Definition CreateInvitation (userdata : User) (filename : string)
    (recipientUsername : string) : M UUID :=
  recipientKey ← KeystoreGet (recipientUsername +:+ " public key");
  match recipientKey with
  | None => fail "recipient user does not exist in the system"
  | Some _ =>
  if decide (recipientUsername = Username userdata)
  then fail "user cannot send invitation to themselves" else
  (* [return uuid.Nil, err] with the outer [err], which is still nil *)
  match GetAccessUUID userdata filename with
  | Err _ => mret Nil
  | Panic e => lift (Panic e)
  | Diverges => lift Diverges
  | Ok accessUUID =>
  accessValue ← DatastoreGet accessUUID;
  match accessValue with
  | None => fail "file does not exist in user namespace"
  | Some accessValue =>
      accessSourceKey ← lift (orE (GetAccessKey (sourceKey userdata) filename)
                                "failed to get access sourcekey");
      '(accessEncryptKey, accessHMACKey) ←
        lift (orE (GetTwoHASHKDFKeys accessSourceKey ENCRYPT MAC)
                "failed to generate encryption and HMAC keys for Access Struct");
      '(accessMsg, accessTag) ←
        lift (orE (UnpackValue accessValue) "failed to unpack Access Struct");
      lift (orE (CheckTag accessMsg accessTag accessHMACKey)
              "integrity check failed: Access Struct has been tampered with");;
      accessStruct ← lift (orE (DecryptAccessMsg accessMsg accessEncryptKey)
                             "could not decrypt Access Struct");
      '(metaUUID, metaSourceKey) ←
        orErr (GetMetaUUIDAndSourceKey accessStruct)
              "could not get Meta UUID and soucekey";
      invitationSourceKey ←
        orErr (GetRandomKey userdata) "failed to generate source key";
      '(inviteEncryptKey, inviteHMACKey) ←
        lift (orE (GetTwoHASHKDFKeys invitationSourceKey ENCRYPT MAC)
                "failed to generate keys for invite");
      let invitation := mkInvitation metaUUID metaSourceKey in
      '(inviteMsg, inviteTag) ←
        orErr (EncryptThenMac invitation inviteEncryptKey inviteHMACKey)
              "failed to package data for entry into DataStore";
      invitationValue ← lift (GenerateUUIDVal inviteMsg inviteTag);
      invitationUUID ←
        lift (GetInvitationUUID userdata recipientUsername filename);
      DatastoreSet invitationUUID invitationValue;;
      invitationMetaUUID ← uuid_New;
      let invitationMeta := mkInvitationMeta invitationUUID invitationSourceKey in
      '(invitationMetaMsg, invitationMetaSig) ←
        EncryptThenSign invitationMeta recipientUsername (Sigkey userdata);
      invitationMetaValue ←
        lift (GenerateUUIDVal invitationMetaMsg invitationMetaSig);
      DatastoreSet invitationMetaUUID invitationMetaValue;;
      (if IsOwner accessStruct then
         let inviteListUUID := InvitationList_ accessStruct in
         let inviteListKey := ListKey accessStruct in
         inviteListData ← DatastoreGet inviteListUUID;
         match inviteListData with
         | None => fail "invalid or missing inviteListData UUID"
         | Some inviteListData =>
             '(inviteListMsg, inviteListTag) ←
               lift (orE (UnpackValue inviteListData)
                       "failed to unpack invitationList data");
             '(inviteListEncryptKey, inviteListHMACKey) ←
               lift (GetTwoHASHKDFKeys inviteListKey ENCRYPT MAC);
             lift (orE (CheckTag inviteListMsg inviteListTag inviteListHMACKey)
                     "integrity check failed: invite struct has been tampered with");;
             (* the error of the decryption is overwritten unread *)
             let invitationListValue :=
               valueOr (DecryptInvitationListMsg inviteListMsg inviteListEncryptKey)
                       (mkInvitationList None) in
             match Invitations invitationListValue with
             | None => lift (Panic "assignment to entry in nil map")
             | Some invitations =>
                 let invitationListValue :=
                   mkInvitationList
                     (Some (<[invitationUUID:=invitationSourceKey]> invitations)) in
                 let '(invitationListEncryptKey, invitationListHMACKey) :=
                   valueOr (GetTwoHASHKDFKeys inviteListKey ENCRYPT MAC) (Nil, Nil) in
                 '(inviteListMsg, inviteListTag) ←
                   EncryptThenMac invitationListValue
                     invitationListEncryptKey invitationListHMACKey;
                 inviteListValue ←
                   lift (GenerateUUIDVal inviteListMsg inviteListTag);
                 DatastoreSet inviteListUUID inviteListValue
             end
         end
       else mret ());;
      mret invitationMetaUUID
  end
  end
  end.

Definition AcceptInvitation (userdata : User) (senderUsername : string)
    (invitationPtr : UUID) (filename : string) : M unit :=
  accessUUID ← lift (orE (GetAccessUUID userdata filename)
                       "could not get access uuid");
  existing ← DatastoreGet accessUUID;
  match existing with
  | Some _ => fail "recipient already has a file with the chosen filename"
  | None =>
  invitationMetaValue ← DatastoreGet invitationPtr;
  match invitationMetaValue with
  | None => fail "no invitation meta"
  | Some invitationMetaValue =>
      '(invitationMetaMsg, invitationMetaSig) ←
        lift (orE (UnpackValue invitationMetaValue)
                "failed to unpack invitation data");
      orErr (CheckSignature invitationMetaMsg invitationMetaSig senderUsername)
            "failed to verify invitation signature";;
      invitationMetaStruct ←
        lift (orE (DecryptAsynchMsg invitationMetaMsg (RSAkey userdata))
                "failed to decrypt invitation");
      let invitationUUID := im_InvitationUUID invitationMetaStruct in
      let invitationSourceKey := im_InvitationSourcekey invitationMetaStruct in
      inviteData ← DatastoreGet invitationUUID;
      match inviteData with
      | None => fail "invalid or missing invitation UUID"
      | Some inviteData =>
          '(inviteMsg, inviteTag) ←
            lift (orE (UnpackValue inviteData) "failed to unpack invitation data");
          '(_, inviteHMACKey) ←
            lift (GetTwoHASHKDFKeys invitationSourceKey ENCRYPT MAC);
          lift (orE (CheckTag inviteMsg inviteTag inviteHMACKey)
                  "integrity check failed: invite struct has been tampered with");;
          let accessStruct :=
            mkAccess Nil Nil invitationUUID invitationSourceKey Nil Nil false in
          accessSourceKey ←
            lift (orE (GetAccessKey (sourceKey userdata) filename)
                    "access source key cannot be generated");
          '(accessEncKey, accessHMACKey) ←
            lift (GetTwoHASHKDFKeys accessSourceKey ENCRYPT MAC);
          '(accessMsg, accessTag) ←
            orErr (EncryptThenMac accessStruct accessEncKey accessHMACKey)
                  "failed to package data for entry into DataStore";
          accessData ← lift (GenerateUUIDVal accessMsg accessTag);
          DatastoreSet accessUUID accessData
      end
  end
  end.

(** One turn of the loop of RevokeAccess over the remaining invitations:
    the Invitation at [invitationUUID] is sealed again, under its own
    source key, around the new source key of the Meta. *)
Definition RevokeAccess_body (metaUUID : UUID) (metaSourceKey : bytes)
    (entry : UUID * bytes) : M unit :=
  let '(invitationUUID, invitationSourceKey) := entry in
  '(invitationEncryptKey, invitationHMACKey) ←
    lift (GetTwoHASHKDFKeys invitationSourceKey ENCRYPT MAC);
  let invitationStruct := mkInvitation metaUUID metaSourceKey in
  '(invitationMsg, invitationTag) ←
    orErr (EncryptThenMac invitationStruct invitationEncryptKey invitationHMACKey)
          "failed to encrypt and mac invitation struct";
  invitationValue ←
    lift (orE (GenerateUUIDVal invitationMsg invitationTag)
            "failed to get UUID value for invitation");
  DatastoreSet invitationUUID invitationValue.

(** [for ... := range invitations]; the entries are visited in the order
    of [map_to_list]. *)
Fixpoint RevokeAccess_loop (metaUUID : UUID) (metaSourceKey : bytes)
    (entries : list (UUID * bytes)) : M unit :=
  match entries with
  | [] => mret ()
  | entry :: entries =>
      RevokeAccess_body metaUUID metaSourceKey entry;;
      RevokeAccess_loop metaUUID metaSourceKey entries
  end.

Definition RevokeAccess (userdata : User) (filename : string)
    (recipientUsername : string) : M unit :=
  accessUUID ← lift (orE (GetAccessUUID userdata filename)
                       "failed to get access sourcekey");
  accessValue ← DatastoreGet accessUUID;
  match accessValue with
  | None => fail "file does not exist in user namespace"
  | Some accessValue =>
  accessSourceKey ← lift (orE (GetAccessKey (sourceKey userdata) filename)
                            "failed to get access sourcekey");
  '(accessEncryptKey, accessHMACKey) ←
    lift (orE (GetTwoHASHKDFKeys accessSourceKey ENCRYPT MAC)
            "failed to generate encryption and HMAC keys for Access Struct");
  '(accessMsg, accessTag) ←
    lift (orE (UnpackValue accessValue) "failed to unpack Access Struct");
  lift (orE (CheckTag accessMsg accessTag accessHMACKey)
          "integrity check failed: Access Struct has been tampered with");;
  accessStruct ← lift (orE (DecryptAccessMsg accessMsg accessEncryptKey)
                         "could not decrypt Access Struct");
  if negb (IsOwner accessStruct) then fail "only the owner can revoke access" else
  '(metaUUID, metaSourceKey) ←
    orErr (GetMetaUUIDAndSourceKey accessStruct)
          "could not get Meta UUID and soucekey";
  '(_, metaHMACKey) ←
    lift (orE (GetTwoHASHKDFKeys metaSourceKey ENCRYPT MAC)
            "could not get Meta encrypt and mac keys");
  metaValue ← DatastoreGet metaUUID;
  match metaValue with
  | None => fail "could not find Meta data in datastore"
  | Some metaValue =>
  '(metaMsg, metaTag) ←
    lift (orE (UnpackValue metaValue) "could not unpack Meta value");
  lift (orE (CheckTag metaMsg metaTag metaHMACKey)
          "integrity check failed: Meta struct has been tampered with");;
  content ← orErr (LoadFile userdata filename) "failed to load file contents";
  fileUUID ← uuid_New;
  fileSourceKey ←
    orErr (GetRandomKey userdata) "failed to get new sourcekey for file";
  nextFileUUID ←
    orErr (AddFileToDatabase fileUUID fileSourceKey content)
          "failed to add to database";
  let metaStruct := mkMeta fileUUID nextFileUUID fileSourceKey in
  metaSourceKey ←
    orErr (GetRandomKey userdata) "failed to get new sourcekey for meta";
  '(metaEncryptKey, metaHMACKey) ←
    lift (GetTwoHASHKDFKeys metaSourceKey ENCRYPT MAC);
  '(metaMsg, metaTag) ← EncryptThenMac metaStruct metaEncryptKey metaHMACKey;
  metaValue ← lift (GenerateUUIDVal metaMsg metaTag);
  DatastoreSet metaUUID metaValue;;
  let invitationListUUID := InvitationList_ accessStruct in
  let invitationListKey := ListKey accessStruct in
  '(invitationListEncryptKey, invitationListHMACKey) ←
    lift (GetTwoHASHKDFKeys invitationListKey ENCRYPT MAC);
  invitationListValue ← DatastoreGet invitationListUUID;
  match invitationListValue with
  | None => fail "failed to get invitation list from Datastore"
  | Some invitationListValue =>
  '(invitationListMsg, invitationListTag) ←
    lift (orE (UnpackValue invitationListValue)
            "failed to unpack invitation list");
  lift (orE (CheckTag invitationListMsg invitationListTag invitationListHMACKey)
          "integrity check failed: detected unauthorized modifications");;
  invitationListStruct ←
    lift (orE (DecryptInvitationListMsg invitationListMsg invitationListEncryptKey)
            "failed to decrypt invitation list struct");
  recipientInvitationUUID ←
    lift (orE (GetInvitationUUID userdata recipientUsername filename)
            "error getting invitation uuid for recipient");
  match Invitations invitationListStruct ≫= (.!! recipientInvitationUUID) with
  | None => fail "filename was not shared with recipientUsername"
  | Some _ =>
  let invitations :=
    delete recipientInvitationUUID <$> Invitations invitationListStruct in
  RevokeAccess_loop metaUUID metaSourceKey
    (default [] (map_to_list <$> invitations));;
  let invitationListStruct := mkInvitationList invitations in
  '(invitationListMsg, invitationListTag) ←
    orErr (EncryptThenMac invitationListStruct
             invitationListEncryptKey invitationListHMACKey)
          "failed to encrypt then mac updated invitation list struct";
  invitationListValue ←
    lift (orE (GenerateUUIDVal invitationListMsg invitationListTag)
            "failed to generate then mac updated invitation list UUID value");
  DatastoreSet invitationListUUID invitationListValue;;
  let accessStruct :=
    mkAccess (MetaUUID accessStruct) metaSourceKey
      (InvitationUUID accessStruct) (InvitationSourcekey accessStruct)
      (InvitationList_ accessStruct) (ListKey accessStruct)
      (IsOwner accessStruct) in
  '(accessMsg, accessTag) ←
    orErr (EncryptThenMac accessStruct accessEncryptKey accessHMACKey)
          "failed to encrypt and mac new owner struct";
  updatedOwnerValue ←
    lift (orE (GenerateUUIDVal accessMsg accessTag)
            "failed to get UUID value for owner");
  DatastoreSet accessUUID updatedOwnerValue
  end
  end
  end
  end.

(** * Vocabulary of the statements

    Records as they lie sealed in the Datastore, the shape of a file and
    of the capabilities that lead to it, the worlds the calls leave, and
    the scenarios the statements are run on. *)

(** ** Sealed records *)

(** The Datastore value written for [j] under the source key [k]: the
    ciphertext under HashKDF(k, "encrypt") with initialisation vector [iv],
    and its HMAC under HashKDF(k, "mac"). *)
Definition Seal (k iv : bytes) (j : json) : value :=
  Packed (CtSym (KDF k ENCRYPT) iv (Some j))
         (TagHMAC (KDF k MAC) (CtSym (KDF k ENCRYPT) iv (Some j))).

(** [stored ds uuid k j]: the Datastore holds at [uuid] the record [j],
    sealed under the 16-byte source key [k]. *)
Definition stored (ds : gmap bytes value) (uuid k : bytes) (j : json) : Prop :=
  k ≠ Nil ∧ ∃ iv, ds !! uuid = Some (Seal k iv j).

(** A slot that holds neither an Access nor an Invitation. *)
Definition no_capability (ds : gmap bytes value) (k : bytes) : Prop :=
  ds !! k = None
  ∨ ∃ kk j, stored ds k kk j
            ∧ (∀ a, j ≠ JAccess a) ∧ (∀ i, j ≠ JInvitation i).

(** The Invitation-Pointer written at the token UUID: the pair of the
    Invitation's UUID and source key, encrypted to the recipient's key
    [n] and signed with the caller's key [s]. *)
Definition pointer (n s : nat) (invitationUUID ik : bytes) : value :=
  Packed (CtPKE n (Some (JInvitationMeta (mkInvitationMeta invitationUUID ik))))
         (TagSig s
            (CtPKE n (Some (JInvitationMeta (mkInvitationMeta invitationUUID ik))))).

(** The Keystore after KeystoreSet, which never replaces an entry. *)
Definition keystore_put (k : string) (v : PublicKeyType)
    (ks : gmap string PublicKeyType) : gmap string PublicKeyType :=
  match ks !! k with
  | Some _ => ks
  | None => <[k:=v]> ks
  end.

(** ** Random draws *)

(** No UUID that uuid.New() has yet to return is in use. *)
Definition rng_fresh (w : World) : Prop :=
  ∀ n, rng w ≤ n → datastore w !! Uuid n = None.

Definition uuid_old (r : nat) (b : bytes) : Prop := ∀ n, r ≤ n → b ≠ Uuid n.

(** [uuid_old], decided. *)
Definition uuid_oldb (r : nat) (k : bytes) : bool :=
  match k with
  | Uuid n => n <? r
  | _ => true
  end.

(** Keys made from random draws numbered below [r]. *)
Fixpoint key_old (r : nat) (b : bytes) : bool :=
  match b with
  | Nil | Argon2 _ _ => true
  | KDF k _ => key_old r k
  | KDFb k p => key_old r k && key_old r p
  | Rand n | Uuid n => n <? r
  end.

(** ** Files and the capabilities that lead to them *)

(** The user's Access record for [F], sealed in its slot. *)
Definition has_access (ds : gmap bytes value) (u : User) (F : string)
    (a : Access) : Prop :=
  sourceKey u ≠ Nil
  ∧ stored ds (KDF (sourceKey u) F) (KDF (sourceKey u) F) (JAccess a).

(** What GetMetaUUIDAndSourceKey finds: an owner's Access names the
    Metadata itself, a sharee's Access names an Invitation that does. *)
Definition resolves (ds : gmap bytes value) (a : Access) (mu mk : bytes)
  : Prop :=
  if IsOwner a then MetaUUID a = mu ∧ MetaSourcekey a = mk
  else stored ds (InvitationUUID a) (InvitationSourcekey a)
         (JInvitation (mkInvitation mu mk)).

(** [u] reaches the Metadata at [mu] under the key [mk] by the name [F]. *)
Definition reaches (ds : gmap bytes value) (u : User) (F : string)
    (mu mk : bytes) : Prop :=
  ∃ a, has_access ds u F a ∧ resolves ds a mu mk.

(** The blocks from [cur] up to, not including, the slot [last]. *)
Fixpoint chain (ds : gmap bytes value) (fk cur last : bytes)
    (blocks : list (bytes * File)) : Prop :=
  match blocks with
  | [] => cur = last
  | (uuid, f) :: rest =>
      uuid = cur ∧ cur ≠ last
      ∧ (∃ iv, ds !! cur = Some (Seal fk iv (JFile f)))
      ∧ chain ds fk (Next f) last rest
  end.

Definition contents (blocks : list (bytes * File)) : list byte :=
  concat (map (λ b, Contents (snd b)) blocks).

(** The Metadata at [mu], sealed under [mk], and the file it describes. *)
Definition file_at (ds : gmap bytes value) (mu mk : bytes) (m : Meta)
    (blocks : list (bytes * File)) : Prop :=
  stored ds mu mk (JMeta m)
  ∧ FileSourcekey m ≠ Nil
  ∧ chain ds (FileSourcekey m) (Start m) (Last m) blocks.

(** A well-formed file: the Metadata and its chain, the reserved slot
    [Last m] still free and not a UUID of the future. *)
Definition file_ok (w : World) (mu mk : bytes) (m : Meta)
    (blocks : list (bytes * File)) : Prop :=
  file_at (datastore w) mu mk m blocks
  ∧ datastore w !! Last m = None
  ∧ uuid_old (rng w) (Last m).

(** What StoreFile needs: a name that is free, or one that leads to a
    well-formed file. *)
Definition can_store (w : World) (u : User) (F : string) : Prop :=
  sourceKey u ≠ Nil
  ∧ rng_fresh w
  ∧ (datastore w !! KDF (sourceKey u) F = None
     ∨ ∃ mu mk m blocks,
         reaches (datastore w) u F mu mk ∧ file_ok w mu mk m blocks).

(** What CreateInvitation needs in order to succeed, beyond a recipient
    who is registered and is not the caller: a signing key, an Access that
    resolves and, for an owner, the Invitation List the Access names, at a
    UUID that is not the slot of the new Invitation. *)
Definition can_invite (w : World) (u : User) (F R : string) : Prop :=
  (∃ s, Sigkey u = DSPriv s)
  ∧ ∃ a mu mk,
      has_access (datastore w) u F a
      ∧ resolves (datastore w) a mu mk
      ∧ (IsOwner a = true →
         ∃ L, stored (datastore w) (InvitationList_ a) (ListKey a)
                (JInvitationList (mkInvitationList (Some L)))
              ∧ InvitationList_ a
                ≠ KDF (sourceKey u) (Username u +:+ F +:+ R)).

(** An owner's file as RevokeAccess expects it: the owner's Access, the
    Metadata and its chain, and the Invitation List, each of whose entries
    names an Invitation stored under the listed key. *)
Record owner_file (w : World) (u : User) (F : string) (a : Access)
    (m : Meta) (blocks : list (bytes * File)) (L : gmap bytes bytes)
  : Prop := {
  of_access : has_access (datastore w) u F a;
  of_owner : IsOwner a = true;
  of_file : file_at (datastore w) (MetaUUID a) (MetaSourcekey a) m blocks;
  of_list : stored (datastore w) (InvitationList_ a) (ListKey a)
              (JInvitationList (mkInvitationList (Some L)));
  of_invitations : ∀ i k, L !! i = Some k →
                          ∃ inv, stored (datastore w) i k (JInvitation inv)
}.

(** ** One turn of the loop of LoadFile *)

(** The block at [cur], fetched, checked and opened (client.go, lines
    453-471). *)
Definition read_block (w : World) (ek hk cur : bytes) : result File :=
  match datastore w !! cur with
  | None => Err "File data block not found"
  | Some fileValue =>
      '(fileMsg, fileTag) ← orE (UnpackValue fileValue)
                              "file could not be unpacked";
      orE (CheckTag fileMsg fileTag hk)
        "integrity check failed: File has unauthorized modifications";;
      orE (DecryptFileMsg fileMsg ek) "File could not be decrypted"
  end.

Definition stopped {A} (r : result A) : result unit :=
  match r with
  | Ok _ => Ok ()
  | Err e => Err e
  | Panic e => Panic e
  | Diverges => Diverges
  end.

Definition outcome (o : result unit) (content : list byte)
  : result (list byte) :=
  match o with
  | Ok _ => Ok content
  | Err e => Err e
  | Panic e => Panic e
  | Diverges => Diverges
  end.

(** [runs w ek hk last l c cur o]: from [cur] the loop opens the blocks at
    [l], which hold [c], and then stops, at [last] or on the error [o]. *)
Inductive runs (w : World) (ek hk last : bytes)
  : list bytes → list byte → bytes → result unit → Prop :=
| runs_last : runs w ek hk last [] [] last (Ok ())
| runs_stop cur r :
    cur ≠ last → read_block w ek hk cur = r → (∀ f, r ≠ Ok f) →
    runs w ek hk last [] [] cur (stopped r)
| runs_step cur f l c o :
    cur ≠ last → read_block w ek hk cur = Ok f →
    runs w ek hk last l c (Next f) o →
    runs w ek hk last (cur :: l) (Contents f ++ c) cur o.

(** ** The worlds the calls leave *)

(** The Access and the Metadata StoreFile writes for a free name, [r]
    random draws having been made: a block, the Metadata, an empty
    Invitation List and the owner's Access are written, all but the Access
    at fresh UUIDs and all under fresh keys. *)
Definition new_file_access (u : User) (r : nat) : Access :=
  mkAccess (Uuid (4 + r)) (KDFb (sourceKey u) (Rand (5 + r))) Nil Nil
    (Uuid (9 + r)) (KDFb (sourceKey u) (Rand (7 + r))) true.

Definition new_file_meta (u : User) (r : nat) : Meta :=
  mkMeta (Uuid r) (Uuid (2 + r)) (KDFb (sourceKey u) (Rand (1 + r))).

Definition create_world (w : World) (u : User) (F : string)
    (content : list byte) : World :=
  mkWorld
    (<[KDF (sourceKey u) F :=
         Seal (KDF (sourceKey u) F) (Rand (10 + rng w))
           (JAccess (new_file_access u (rng w)))]>
       (<[Uuid (9 + rng w) :=
            Seal (KDFb (sourceKey u) (Rand (7 + rng w))) (Rand (8 + rng w))
              (JInvitationList (mkInvitationList (Some ∅)))]>
          (<[Uuid (4 + rng w) :=
               Seal (KDFb (sourceKey u) (Rand (5 + rng w))) (Rand (6 + rng w))
                 (JMeta (new_file_meta u (rng w)))]>
             (<[Uuid (rng w) :=
                  Seal (KDFb (sourceKey u) (Rand (1 + rng w)))
                    (Rand (3 + rng w))
                    (JFile (mkFile content (Uuid (2 + rng w))))]>
                (datastore w)))))
    (keystore w) (11 + rng w).

(** The world AppendToFile leaves, and the world StoreFile leaves on an
    existing file. *)
Definition append_world (w : World) (mu mk : bytes) (m : Meta)
    (content : list byte) : World :=
  mkWorld
    (<[mu := Seal mk (Rand (S (S (rng w))))
               (JMeta (mkMeta (Start m) (Uuid (rng w)) (FileSourcekey m)))]>
       (<[Last m := Seal (FileSourcekey m) (Rand (S (rng w)))
                      (JFile (mkFile content (Uuid (rng w))))]>
          (datastore w)))
    (keystore w) (S (S (S (rng w)))).

Definition overwrite_world (w : World) (mu mk : bytes) (m : Meta)
    (content : list byte) : World :=
  mkWorld
    (<[mu := Seal mk (Rand (S (S (rng w))))
               (JMeta (mkMeta (Start m) (Uuid (rng w)) (FileSourcekey m)))]>
       (<[Start m := Seal (FileSourcekey m) (Rand (S (rng w)))
                       (JFile (mkFile content (Uuid (rng w))))]>
          (datastore w)))
    (keystore w) (S (S (S (rng w)))).

(** The Datastore after the two writes every CreateInvitation makes: the
    Invitation, under a fresh key, at the UUID derived from the caller,
    the filename and the recipient, and the Invitation-Pointer at a fresh
    UUID. *)
Definition invite_store (w : World) (u : User) (F R : string)
    (mu mk : bytes) (n s : nat) : gmap bytes value :=
  <[Uuid (2 + rng w) :=
      pointer n s (KDF (sourceKey u) (Username u +:+ F +:+ R))
        (KDFb (sourceKey u) (Rand (rng w)))]>
    (<[KDF (sourceKey u) (Username u +:+ F +:+ R) :=
         Seal (KDFb (sourceKey u) (Rand (rng w))) (Rand (1 + rng w))
           (JInvitation (mkInvitation mu mk))]>
       (datastore w)).

(** The Datastore after the loop of RevokeAccess over [entries], begun
    with [r] random draws made. *)
Fixpoint loop_store (mu mk : bytes) (r : nat) (entries : list (bytes * bytes))
    (ds : gmap bytes value) : gmap bytes value :=
  match entries with
  | [] => ds
  | (i, k) :: rest =>
      loop_store mu mk (S r) rest
        (<[i := Seal k (Rand r) (JInvitation (mkInvitation mu mk))]> ds)
  end.

(** The world a successful RevokeAccess leaves: the contents in one new
    block under a new file key, the Metadata sealed again in its place
    under a new source key, the remaining Invitations sealed again around
    that key, the Invitation List without the revoked entry, and the
    owner's Access with the new key. *)
Definition revoked_access (u : User) (a : Access) (r : nat) : Access :=
  mkAccess (MetaUUID a) (KDFb (sourceKey u) (Rand (4 + r)))
    (InvitationUUID a) (InvitationSourcekey a)
    (InvitationList_ a) (ListKey a) (IsOwner a).

Definition revoked_meta (u : User) (r : nat) : Meta :=
  mkMeta (Uuid r) (Uuid (2 + r)) (KDFb (sourceKey u) (Rand (1 + r))).

(** The two writes RevokeAccess makes before it looks at the Invitation
    List. *)
Definition rekeyed_store (w : World) (u : User) (a : Access)
    (content : list byte) : gmap bytes value :=
  <[MetaUUID a :=
      Seal (KDFb (sourceKey u) (Rand (4 + rng w))) (Rand (5 + rng w))
        (JMeta (revoked_meta u (rng w)))]>
    (<[Uuid (rng w) :=
         Seal (KDFb (sourceKey u) (Rand (1 + rng w))) (Rand (3 + rng w))
           (JFile (mkFile content (Uuid (2 + rng w))))]>
       (datastore w)).

Definition revoke_world (w : World) (u : User) (F : string) (a : Access)
    (content : list byte) (L' : gmap bytes bytes) : World :=
  let r := List.length (map_to_list L') + (6 + rng w) in
  mkWorld
    (<[KDF (sourceKey u) F :=
         Seal (KDF (sourceKey u) F) (Rand (1 + r))
           (JAccess (revoked_access u a (rng w)))]>
       (<[InvitationList_ a :=
            Seal (ListKey a) (Rand r)
              (JInvitationList (mkInvitationList (Some L')))]>
          (loop_store (MetaUUID a) (KDFb (sourceKey u) (Rand (4 + rng w)))
             (6 + rng w) (map_to_list L')
             (rekeyed_store w u a content))))
    (keystore w) (2 + r).

(** ** Scenarios *)

(** The sessions InitUser returns to the first three users who register. *)
Definition alice : User :=
  mkUser "alice" (PKEPriv 0) (DSPriv 1) (Argon2 "password" "alice").

Definition bob : User :=
  mkUser "bob" (PKEPriv 3) (DSPriv 4) (Argon2 "password" "bob").

Definition charles : User :=
  mkUser "charles" (PKEPriv 6) (DSPriv 7) (Argon2 "password" "charles").

Definition hello : list byte := String.list_byte_of_string "hello".

(** alice is registered. *)
Definition registered : World := snd (InitUser "alice" "password" emptyWorld).

(** alice and bob are registered, and alice has stored a file (scenario S6
    of the specification). *)
Definition two_users : World :=
  snd ((InitUser "alice" "password";; InitUser "bob" "password") emptyWorld).

Definition with_file : World := snd (StoreFile alice "a" hello two_users).

(** alice and bob register, alice stores a file and invites bob. *)
Definition alice_invites_bob : M (User * User * UUID) :=
  alice ← InitUser "alice" "password";
  bob ← InitUser "bob" "password";
  StoreFile alice "a" hello;;
  token ← CreateInvitation alice "a" "bob";
  mret (alice, bob, token).

Definition invited : World := snd (alice_invites_bob emptyWorld).

(** Scenario S3 of the specification: alice shares "a" with bob, who
    accepts it as "b" and shares it with charles, who accepts it as "c". *)
Definition alice_bob_charles : M (User * User * User) :=
  alice ← InitUser "alice" "password";
  bob ← InitUser "bob" "password";
  charles ← InitUser "charles" "password";
  StoreFile alice "a" hello;;
  token ← CreateInvitation alice "a" "bob";
  AcceptInvitation bob "alice" token "b";;
  token' ← CreateInvitation bob "b" "charles";
  AcceptInvitation charles "bob" token' "c";;
  mret (alice, bob, charles).

Definition shared : World := snd (alice_bob_charles emptyWorld).

(** alice's Access, Metadata and Invitation List in [shared]. *)
Definition shared_access : Access := new_file_access alice 9.

Definition shared_meta : Meta := new_file_meta alice 9.

Definition shared_list : gmap bytes bytes :=
  {[ KDF (Argon2 "password" "alice") "aliceabob"
     := KDFb (Argon2 "password" "alice") (Rand 20) ]}.

(** ** What a call may do to the stores *)

(** [preserves R m]: whatever [m] returns, the world it leaves is related
    by [R] to the world it was run in. *)
Definition preserves (R : relation World) {A} (m : M A) : Prop :=
  ∀ w r w', m w = (r, w') → R w w'.

(** The stores are what they were. *)
Definition same_stores (w w' : World) : Prop :=
  datastore w' = datastore w ∧ keystore w' = keystore w ∧ rng w ≤ rng w'.

(** No Datastore key is lost and the Keystore is what it was. *)
Definition datastore_grows (w w' : World) : Prop :=
  dom (datastore w) ⊆ dom (datastore w')
  ∧ keystore w' = keystore w ∧ rng w ≤ rng w'.

(** No Datastore key is lost and no Keystore entry is lost or replaced. *)
Definition stores_grow (w w' : World) : Prop :=
  dom (datastore w) ⊆ dom (datastore w')
  ∧ keystore w ⊆ keystore w' ∧ rng w ≤ rng w'.

(** ** Sealing and opening *)

(** [opens w k ek hk txt decrypt back]: in the world [w], EncryptThenMac
    seals [txt] under the keys [ek] and [hk] of the source key [k]; the
    result packs and unpacks, passes CheckTag, and [decrypt] gives
    [back]; it fails CheckTag under the key of every other source key,
    and every other ciphertext or tag fails CheckTag with it. *)
Definition opens {A} `{JSON A} (w : World) (k ek hk : bytes) (txt : A)
    (decrypt : ciphertext → bytes → result A) (back : A) : Prop :=
  ∃ msg tag,
    EncryptThenMac txt ek hk w = (Ok (msg, tag), bump w)
    ∧ (GenerateUUIDVal msg tag ≫= UnpackValue) = Ok (msg, tag)
    ∧ CheckTag msg tag hk = Ok ()
    ∧ decrypt msg ek = Ok back
    ∧ (∀ k' ek' hk', GetTwoHASHKDFKeys k' ENCRYPT MAC = Ok (ek', hk') →
         k' ≠ k → CheckTag msg tag hk' = Err "integrity check failed")
    ∧ (∀ msg', msg' ≠ msg →
         CheckTag msg' tag hk = Err "integrity check failed")
    ∧ (∀ tag', tag' ≠ tag →
         CheckTag msg tag' hk = Err "integrity check failed").

(** ** Invitations and their acceptance *)

(** The world CreateInvitation leaves: the Invitation and the
    Invitation-Pointer and, when the caller owns the file, the Invitation
    List with the new entry. *)
Definition invited_world (w : World) (u : User) (F R : string) (a : Access)
    (mu mk : bytes) (n s : nat) (L : gmap bytes bytes) : World :=
  if IsOwner a then
    mkWorld
      (<[InvitationList_ a :=
           Seal (ListKey a) (Rand (3 + rng w))
             (JInvitationList
                (mkInvitationList
                   (Some (<[KDF (sourceKey u) (Username u +:+ F +:+ R) :=
                              KDFb (sourceKey u) (Rand (rng w))]> L))))]>
         (invite_store w u F R mu mk n s))
      (keystore w) (4 + rng w)
  else mkWorld (invite_store w u F R mu mk n s) (keystore w) (3 + rng w).

(** What a caller who can resolve the file, and a recipient, need for
    CreateInvitation to go through. *)
Record inviting (w : World) (u : User) (F R : string) (a : Access)
    (mu mk : bytes) (n s : nat) (L : gmap bytes bytes) : Prop := {
  inv_fresh : rng_fresh w;
  inv_recipient : keystore w !! (R +:+ " public key") = Some (PKEPub n);
  inv_other : R ≠ Username u;
  inv_signs : Sigkey u = DSPriv s;
  inv_access : has_access (datastore w) u F a;
  inv_resolves : resolves (datastore w) a mu mk;
  inv_list : IsOwner a = true →
             stored (datastore w) (InvitationList_ a) (ListKey a)
               (JInvitationList (mkInvitationList (Some L)))
             ∧ InvitationList_ a ≠ KDF (sourceKey u) (Username u +:+ F +:+ R)
}.

(** The world AcceptInvitation leaves. *)
Definition accepted_world (w : World) (v : User) (G : string)
    (invitationUUID ik : bytes) : World :=
  mkWorld
    (<[KDF (sourceKey v) G :=
         Seal (KDF (sourceKey v) G) (Rand (rng w))
           (JAccess (mkAccess Nil Nil invitationUUID ik Nil Nil false))]>
       (datastore w))
    (keystore w) (S (rng w)).

(** A caller who resolves a well-formed file invites, for the first time
    under this filename, a registered user, who takes a free name. *)
Record sharing (w : World) (u v : User) (F G : string) (a : Access)
    (mu mk : bytes) (m : Meta) (blocks : list (bytes * File))
    (n s : nat) (L : gmap bytes bytes) : Prop := {
  sh_inviting : inviting w u F (Username v) a mu mk n s L;
  sh_key : RSAkey v = PKEPriv n;
  sh_sender : keystore w !! (Username u +:+ " signature key") = Some (DSPub s);
  sh_file : file_ok w mu mk m blocks;
  sh_last : ∃ j, Last m = Uuid j;
  sh_root : sourceKey v ≠ Nil;
  sh_name_free : datastore w !! KDF (sourceKey v) G = None;
  sh_invitation_free :
    datastore w !! KDF (sourceKey u) (Username u +:+ F +:+ Username v) = None;
  sh_slots :
    KDF (sourceKey v) G ≠ KDF (sourceKey u) (Username u +:+ F +:+ Username v)
}.

(** ** Changes made to the Datastore from outside *)

(** The Datastore with the value of one slot copied to another. *)
Definition copy_slot (w : World) (from to : UUID) : World :=
  mkWorld
    (match datastore w !! from with
     | Some v => <[to := v]> (datastore w)
     | None => datastore w
     end)
    (keystore w) (rng w).

(** A slot that has been emptied, or filled with a value that is not a
    ciphertext with its HMAC under the keys of [k]. *)
Definition tampered (k : bytes) (o : option value) : Prop :=
  match o with
  | None => True
  | Some (RawValue _) => True
  | Some (Packed msg tag) => tag ≠ TagHMAC (KDF k MAC) msg
  end.

(** ** Further scenarios *)

(** bob has accepted alice's invitation as "b". *)
Definition accepted : World :=
  snd (AcceptInvitation bob "alice" (Uuid 19) "b" invited).

(** alice owns the files "a" and "aliceabob". *)
Definition two_files : World :=
  snd (StoreFile alice "aliceabob" hello with_file).

(** alice has stored "a" and appended to it: a file of two blocks. *)
Definition appended : World :=
  snd ((StoreFile alice "a" hello;; AppendToFile alice "a" hello) registered).

(** alice's record has gone from the Datastore; her keys are still
    published. *)
Definition record_lost : World :=
  mkWorld ∅ (keystore registered) (rng registered).

(** * Reasoning about calls *)

(** Equality tests stay folded under [cbn]; they are settled by
    [decide_True], [decide_False] and [bool_decide] lemmas. *)
#[global] Arguments bytes_eq_dec : simpl never.
#[global] Arguments json_eq_dec : simpl never.
#[global] Arguments ciphertext_eq_dec : simpl never.
#[global] Arguments tagbytes_eq_dec : simpl never.
#[global] Arguments value_eq_dec : simpl never.
#[global] Arguments String.eq_dec : simpl never.
#[global] Arguments ignoreErr : simpl never.
#[global] Arguments KeystoreSet : simpl never.
#[global] Arguments json_Unmarshal {A _} !_ / : simpl nomatch.
#[global] Arguments HashKDF : simpl never.
#[global] Arguments HashKDFb : simpl never.
#[global] Arguments HMACEqual : simpl never.
#[global] Arguments SymDec : simpl never.
#[global] Arguments CheckTag : simpl never.
#[global] Arguments GetTwoHASHKDFKeys : simpl never.
#[global] Arguments GetAccessUUID : simpl never.
#[global] Arguments GetAccessKey : simpl never.
#[global] Arguments GetInvitationUUID : simpl never.
#[global] Arguments GetRandomKey : simpl never.
#[global] Arguments EncryptThenMac : simpl never.
#[global] Arguments EncryptThenMacAccess : simpl never.
#[global] Arguments AddFileToDatabase : simpl never.
#[global] Arguments GetMetaUUIDAndSourceKey : simpl never.
#[global] Arguments LoadFile_loop : simpl never.
#[global] Arguments RevokeAccess_loop : simpl never.
#[global] Arguments DecryptAsynchMsg : simpl never.
#[global] Arguments DSVerify : simpl never.

Lemma run_bind {A B} (m : M A) (f : A → M B) (w : World) :
  (m ≫= f) w = match m w with
               | (Ok a, w') => f a w'
               | (Err e, w') => (Err e, w')
               | (Panic e, w') => (Panic e, w')
               | (Diverges, w') => (Diverges, w')
               end.
Proof. reflexivity. Qed.

Lemma run_ret {A} (a : A) (w : World) : (mret a : M A) w = (Ok a, w).
Proof. reflexivity. Qed.

Lemma run_DatastoreSet k v w :
  DatastoreSet k v w
  = (Ok (), mkWorld (<[k:=v]> (datastore w)) (keystore w) (rng w)).
Proof. reflexivity. Qed.

Lemma run_rbind {A B} (r : result A) (f : A → result B) :
  (r ≫= f) = match r with
             | Ok a => f a
             | Err e => Err e
             | Panic e => Panic e
             | Diverges => Diverges
             end.
Proof. reflexivity. Qed.

Lemma KeystoreSet_ignore k v w :
  ignoreErr (KeystoreSet k v) w
  = (Ok (), mkWorld (datastore w) (keystore_put k v (keystore w)) (rng w)).
Proof.
  unfold ignoreErr, KeystoreSet, keystore_put.
  destruct (keystore w !! k); [|reflexivity]. now destruct w.
Qed.

Lemma HashKDF_ok k p : k ≠ Nil → HashKDF k p = Ok (KDF k p).
Proof. now destruct k. Qed.

Lemma HashKDFb_ok k p : k ≠ Nil → HashKDFb k p = Ok (KDFb k p).
Proof. now destruct k. Qed.

Lemma GetTwoHASHKDFKeys_ok k p1 p2 :
  k ≠ Nil → GetTwoHASHKDFKeys k p1 p2 = Ok (KDF k p1, KDF k p2).
Proof. intros H. unfold GetTwoHASHKDFKeys. now rewrite !HashKDF_ok. Qed.

Lemma GetTwoHASHKDFKeys_Nil p1 p2 :
  GetTwoHASHKDFKeys Nil p1 p2 = Err "KEY CREATION FAILED".
Proof. reflexivity. Qed.

Lemma GetAccessUUID_ok u f :
  sourceKey u ≠ Nil → GetAccessUUID u f = Ok (KDF (sourceKey u) f).
Proof. intros H. unfold GetAccessUUID. now rewrite HashKDF_ok. Qed.

Lemma GetAccessKey_ok k f : k ≠ Nil → GetAccessKey k f = Ok (KDF k f).
Proof. intros H. unfold GetAccessKey. now rewrite HashKDF_ok. Qed.

Lemma GetInvitationUUID_ok u r f :
  sourceKey u ≠ Nil →
  GetInvitationUUID u r f = Ok (KDF (sourceKey u) (Username u +:+ f +:+ r)).
Proof. intros H. unfold GetInvitationUUID. now rewrite HashKDF_ok. Qed.

Lemma GetRandomKey_run u w :
  sourceKey u ≠ Nil →
  GetRandomKey u w = (Ok (KDFb (sourceKey u) (Rand (rng w))), bump w).
Proof.
  intros H. unfold GetRandomKey. rewrite run_bind. cbn.
  now rewrite HashKDFb_ok.
Qed.

Lemma CheckTag_seal k msg : CheckTag msg (TagHMAC (KDF k MAC) msg) (KDF k MAC) = Ok ().
Proof.
  unfold CheckTag, HMACEqual, HMACEval. cbn. now rewrite bool_decide_eq_true_2.
Qed.

Lemma EncryptThenMac_run {A} `{JSON A} (txt : A) k w :
  EncryptThenMac txt (KDF k ENCRYPT) (KDF k MAC) w
  = (Ok (CtSym (KDF k ENCRYPT) (Rand (rng w)) (Some (to_json txt)),
         TagHMAC (KDF k MAC)
           (CtSym (KDF k ENCRYPT) (Rand (rng w)) (Some (to_json txt)))),
     bump w).
Proof. reflexivity. Qed.

Lemma EncryptThenMacAccess_run (txt : Access) k w :
  EncryptThenMacAccess txt (KDF k ENCRYPT) (KDF k MAC) w
  = (Ok (CtSym (KDF k ENCRYPT) (Rand (rng w)) (Some (JAccess txt)),
         TagHMAC (KDF k MAC)
           (CtSym (KDF k ENCRYPT) (Rand (rng w)) (Some (JAccess txt)))),
     bump w).
Proof. reflexivity. Qed.

Lemma AddFileToDatabase_run fileUUID k content w :
  k ≠ Nil →
  AddFileToDatabase fileUUID k content w
  = (Ok (Uuid (rng w)),
     mkWorld
       (<[fileUUID := Seal k (Rand (S (rng w)))
                        (JFile (mkFile content (Uuid (rng w))))]>
          (datastore w))
       (keystore w) (S (S (rng w)))).
Proof.
  intros H. unfold AddFileToDatabase. rewrite run_bind. cbn.
  rewrite GetTwoHASHKDFKeys_ok by done. reflexivity.
Qed.

Lemma CheckTag_inv msg tag key :
  CheckTag msg tag key = Ok () → key ≠ Nil ∧ tag = TagHMAC key msg.
Proof.
  unfold CheckTag, HMACEqual, HMACEval. destruct key; cbn; try discriminate;
    case_bool_decide; try discriminate; intros _; split; congruence.
Qed.

Lemma CheckTag_other msg tag key :
  tag ≠ TagHMAC key msg → ∃ e, CheckTag msg tag key = Err e.
Proof.
  intros H. unfold CheckTag, HMACEqual, HMACEval.
  destruct key; cbn; eauto; rewrite bool_decide_eq_false_2 by done; eauto.
Qed.

Lemma SymDec_same k iv p : SymDec k (CtSym k iv p) = p.
Proof. unfold SymDec. now rewrite decide_True. Qed.

(** Slots and keys that differ by construction or by hypothesis. *)
Ltac solve_ne :=
  solve [ discriminate | assumption | congruence
        | intros [=]; lia
        | intros [=]; congruence
        | apply not_eq_sym; assumption ].

(** Symbolic execution of a call: unfold the next bind, compute, and
    settle Datastore lookups and equality tests from the context. *)
Ltac mgo_step :=
  first
  [ rewrite run_bind
  | rewrite run_rbind
  | rewrite run_ret
  | rewrite run_DatastoreSet
  | progress cbn
  | progress unfold orE, orErr, lift, fail, DecryptFileMsg, DecryptAccessMsg,
      DecryptMetaMsg, DecryptInvitationMsg, DecryptInvitationListMsg
  | rewrite decide_True by reflexivity
  | rewrite bool_decide_eq_true_2 by reflexivity
  | rewrite lookup_insert_eq
  | rewrite KeystoreSet_ignore
  | rewrite CheckTag_seal
  | rewrite SymDec_same
  | rewrite EncryptThenMac_run
  | rewrite EncryptThenMacAccess_run
  | rewrite AddFileToDatabase_run by (assumption || discriminate)
  | rewrite GetTwoHASHKDFKeys_ok by (assumption || discriminate)
  | rewrite GetAccessUUID_ok by (assumption || discriminate)
  | rewrite GetAccessKey_ok by (assumption || discriminate)
  | rewrite GetInvitationUUID_ok by (assumption || discriminate)
  | rewrite GetRandomKey_run by (assumption || discriminate)
  | rewrite HashKDF_ok by (assumption || discriminate)
  | match goal with
    | H : datastore ?w !! ?k = _ |- context [datastore ?w !! ?k] => rewrite H
    | H : keystore ?w !! ?k = _ |- context [keystore ?w !! ?k] => rewrite H
    | H : ?m !! ?k = _ |- context [?m !! ?k] => rewrite H
    end
  | rewrite lookup_insert_ne by solve_ne ].

Ltac mgo := repeat mgo_step.

(** * Registration and login *)

Lemma InitUser_run username password w :
  username ≠ "" →
  datastore w !! Argon2 username "UUID" = None →
  InitUser username password w
  = (Ok (mkUser username (PKEPriv (rng w)) (DSPriv (S (rng w)))
           (Argon2 password username)),
     mkWorld
       (<[Argon2 username "UUID" :=
            Seal (Argon2 password username) (Rand (S (S (rng w))))
              (JUser username (PKEPriv (rng w)) (DSPriv (S (rng w))))]>
          (datastore w))
       (keystore_put (username +:+ " signature key") (DSPub (S (rng w)))
          (keystore_put (username +:+ " public key") (PKEPub (rng w))
             (keystore w)))
       (S (S (S (rng w))))).
Proof.
  intros Hu Hv. unfold InitUser. rewrite decide_False by done.
  unfold GetUserUUID, Argon2Key, GetAsynchKeys, orErr, orE, lift.
  mgo. reflexivity.
Qed.

Lemma GetUser_run username password w iv r s :
  username ≠ "" →
  datastore w !! Argon2 username "UUID"
    = Some (Seal (Argon2 password username) iv (JUser username r s)) →
  GetUser username password w
  = (Ok (mkUser username r s (Argon2 password username)), w).
Proof.
  intros Hu Hv. unfold GetUser. rewrite decide_False by done.
  unfold GetUserUUID, GetSourceKey, Argon2Key, orErr, orE, lift, Seal in *.
  mgo. rewrite decide_False by (intros ?; done). reflexivity.
Qed.

(** C8. Registration errors and conflict atomicity: InitUser fails when
    the username is empty and when a value is already stored at the
    username's user UUID; in both cases it returns an error and the world
    (Datastore, Keystore and random source) is exactly what it was. *)
Theorem InitUser_rejects_without_writing (username password : string)
    (w : World)
    (H : username = ""
         ∨ ∃ userUUID, GetUserUUID username = Ok userUUID
                       ∧ is_Some (datastore w !! userUUID)) :
  ∃ e, InitUser username password w = (Err e, w).
Proof.
  unfold InitUser. destruct H as [-> | (userUUID & Hu & [v Hv])].
  - eexists. reflexivity.
  - case_decide; [eexists; reflexivity|].
    rewrite run_bind, Hu. unfold lift. mgo. eexists. reflexivity.
Qed.

(** A registered name is refused, whatever the password. *)
Lemma InitUser_rejects_without_writing_witness :
  let w := snd (InitUser "alice" "password" emptyWorld) in
  ∃ e, InitUser "alice" "another" w = (Err e, w).
Proof.
  apply (InitUser_rejects_without_writing "alice" "another").
  right. exists (Argon2 "alice" "UUID"). split; [reflexivity|].
  vm_compute. eexists. reflexivity.
Defined.

Lemma CheckTag_cases msg tag key :
  CheckTag msg tag key = Ok () ∨ ∃ e, CheckTag msg tag key = Err e.
Proof.
  unfold CheckTag, HMACEval. destruct key; cbn; eauto;
    destruct (HMACEqual _ _); eauto.
Qed.

(** C9. Login identity binding: GetUser fails, leaving the world as it
    was, whenever the username is empty, no User Record is stored at the
    user UUID, the HMAC of the record does not verify under the key derived
    from Argon2(password, username), or the username decoded from the
    record differs from the one given; and a session is returned only when
    all these checks pass (and the stored value unpacks and decodes), the
    session then carrying the decoded keys and the derived root key. *)
Theorem GetUser_identity_binding (username password : string) (w : World) :
  let userUUID := Argon2Key username "UUID" LENGTH in
  let sourceKey := GetSourceKey username password in
  (username = "" → ∃ e, GetUser username password w = (Err e, w))
  ∧ (datastore w !! userUUID = None →
     ∃ e, GetUser username password w = (Err e, w))
  ∧ (∀ msg tag,
       datastore w !! userUUID = Some (Packed msg tag) →
       CheckTag msg tag (KDF sourceKey MAC) ≠ Ok () →
       ∃ e, GetUser username password w = (Err e, w))
  ∧ (∀ msg tag userdata,
       datastore w !! userUUID = Some (Packed msg tag) →
       json_Unmarshal (SymDec (KDF sourceKey ENCRYPT) msg) = Ok userdata →
       Username userdata ≠ username →
       ∃ e, GetUser username password w = (Err e, w))
  ∧ (∀ session w',
       GetUser username password w = (Ok session, w') ↔
       w' = w ∧ username ≠ "" ∧
       ∃ msg tag userdata,
         datastore w !! userUUID = Some (Packed msg tag)
         ∧ CheckTag msg tag (KDF sourceKey MAC) = Ok ()
         ∧ json_Unmarshal (SymDec (KDF sourceKey ENCRYPT) msg) = Ok userdata
         ∧ Username userdata = username
         ∧ session = mkUser username (RSAkey userdata) (Sigkey userdata)
                       sourceKey).
Proof.
  cbn zeta. unfold GetUser, GetUserUUID, GetSourceKey, Argon2Key.
  repeat apply conj.
  - intros ->. eexists. reflexivity.
  - intros Hv. case_decide; [eexists; reflexivity|]. mgo. eexists. reflexivity.
  - intros msg tag Hv Htag. case_decide; [eexists; reflexivity|]. mgo.
    destruct (CheckTag_cases msg tag (KDF (Argon2 password username) MAC))
      as [Hc | [e Hc]]; [done|].
    rewrite Hc. mgo. eexists. reflexivity.
  - intros msg tag userdata Hv Hdec Hname.
    case_decide; [eexists; reflexivity|]. mgo.
    destruct (CheckTag_cases msg tag (KDF (Argon2 password username) MAC))
      as [Hc | [e Hc]]; rewrite Hc; mgo; [|eexists; reflexivity].
    rewrite Hdec. mgo. rewrite decide_True by done. eexists. reflexivity.
  - intros session w'. split.
    + case_decide; [discriminate|]. mgo.
      destruct (datastore w !! Argon2 username "UUID") as [[msg tag|raw]|] eqn:Hv;
        mgo; try discriminate.
      destruct (CheckTag_cases msg tag (KDF (Argon2 password username) MAC))
        as [Hc | [e Hc]]; rewrite Hc; mgo; [|discriminate].
      destruct (json_Unmarshal (SymDec (KDF (Argon2 password username) ENCRYPT) msg))
        as [userdata| | |] eqn:Hdec; mgo; try discriminate.
      case_decide as Hname; mgo; [discriminate|].
      intros [= <- <-].
      split; [done|]. split; [done|]. exists msg, tag, userdata.
      repeat split; try done. congruence.
    + intros (-> & Hne & msg & tag & userdata & Hv & Hc & Hdec & Hname & ->).
      rewrite decide_False by done. mgo. rewrite Hc. mgo. rewrite Hdec. mgo.
      rewrite decide_False by (intros ?; done). by rewrite Hname.
Qed.

(** A wrong password is refused and the right one is accepted. *)
Lemma GetUser_identity_binding_witness :
  let w := snd (InitUser "alice" "password" emptyWorld) in
  (∃ e, GetUser "alice" "wrong" w = (Err e, w))
  ∧ GetUser "alice" "password" w
    = (Ok (mkUser "alice" (PKEPriv 0) (DSPriv 1) (Argon2 "password" "alice")), w).
Proof.
  intros w. split.
  - destruct (GetUser_identity_binding "alice" "wrong" w) as (_ & _ & H & _).
    eapply H; [vm_compute; reflexivity | vm_compute; discriminate].
  - destruct (GetUser_identity_binding "alice" "password" w) as (_ & _ & _ & _ & H).
    apply H. split; [reflexivity|]. split; [discriminate|].
    eexists _, _, (mkUser "alice" (PKEPriv 0) (DSPriv 1) Nil).
    repeat split; vm_compute; reflexivity.
Defined.

(** C10. No constraint is placed on the password: for a username that is
    not empty and not in use, InitUser with the empty password succeeds,
    and GetUser with the empty password then succeeds, in the world
    InitUser left, and returns the same session; the password only enters
    the derivation of the root key. *)
Theorem empty_password_accepted (username : string) (w : World)
    (Hname : username ≠ "")
    (Hfree : ∃ userUUID, GetUserUUID username = Ok userUUID
                         ∧ datastore w !! userUUID = None) :
  ∃ session w',
    InitUser username "" w = (Ok session, w')
    ∧ GetUser username "" w' = (Ok session, w')
    ∧ Username session = username
    ∧ sourceKey session = GetSourceKey username "".
Proof.
  destruct Hfree as (userUUID & [= <-] & Hfree).
  eexists _, _. split; [apply InitUser_run; done|].
  split; [|done]. eapply GetUser_run; [done|]. cbn. by rewrite lookup_insert_eq.
Qed.

Lemma empty_password_accepted_witness :
  ∃ session w',
    InitUser "alice" "" emptyWorld = (Ok session, w')
    ∧ GetUser "alice" "" w' = (Ok session, w')
    ∧ Username session = "alice"
    ∧ sourceKey session = GetSourceKey "alice" "".
Proof.
  apply (empty_password_accepted "alice" emptyWorld).
  - discriminate.
  - exists (Argon2 "alice" "UUID"). split; reflexivity.
Defined.

(** * Sealed records in the Datastore *)

Lemma seal_inj k k' iv iv' j j' : Seal k iv j = Seal k' iv' j' → k = k' ∧ j = j'.
Proof. unfold Seal. intros [=]. by subst. Qed.

Lemma stored_inj ds uuid k k' j j' :
  stored ds uuid k j → stored ds uuid k' j' → k = k' ∧ j = j'.
Proof.
  intros (_ & iv & H) (_ & iv' & H'). rewrite H in H'.
  assert (E : Seal k iv j = Seal k' iv' j') by congruence.
  by apply seal_inj in E.
Qed.

Lemma stored_insert_ne ds uuid uuid' v k j :
  uuid' ≠ uuid → stored ds uuid k j → stored (<[uuid' := v]> ds) uuid k j.
Proof. intros Hne (Hk & iv & H). split; [done|]. exists iv. by rewrite lookup_insert_ne. Qed.

Lemma stored_insert ds uuid k iv j :
  k ≠ Nil → stored (<[uuid := Seal k iv j]> ds) uuid k j.
Proof. intros Hk. split; [done|]. exists iv. by rewrite lookup_insert_eq. Qed.

Lemma stored_is_Some ds uuid k j : stored ds uuid k j → is_Some (ds !! uuid).
Proof. intros (_ & iv & H). eauto. Qed.

Lemma GetAccessUUID_Nil u f :
  sourceKey u = Nil → GetAccessUUID u f = Err "HASHING FAILED".
Proof. intros H. unfold GetAccessUUID. by rewrite H. Qed.

Lemma GetTwoHASHKDFKeys_inv k p1 p2 k1 k2 :
  GetTwoHASHKDFKeys k p1 p2 = Ok (k1, k2) →
  k ≠ Nil ∧ k1 = KDF k p1 ∧ k2 = KDF k p2.
Proof.
  destruct (decide (k = Nil)) as [->|Hk]; [discriminate|].
  rewrite GetTwoHASHKDFKeys_ok by done. by intros [= <- <-].
Qed.

(** Case analysis on the next test a call is stuck on. *)
Ltac mcase :=
  match goal with
  | |- context [match ?x with _ => _ end] =>
      lazymatch x with
      | context [match _ with _ => _ end] => fail
      | _ => destruct x eqn:?
      end
  end.

(** Inversion of [call w = (Ok a, w') → P]: every test on the way to the
    result is decided, and the paths that end in an error are dropped. *)
Ltac minv :=
  match goal with
  | |- _ → ?P =>
      let concl := fresh "concl" in
      set (concl := P);
      repeat (mgo; try discriminate; try mcase);
      try (intros [=]; fail);
      subst concl
  end.

(** * Accepting an invitation *)

Lemma AcceptInvitation_inv u sender token F w w' :
  AcceptInvitation u sender token F w = (Ok (), w') →
  sourceKey u ≠ Nil
  ∧ datastore w !! KDF (sourceKey u) F = None
  ∧ ∃ msg sig vk ims m t,
      datastore w !! token = Some (Packed msg sig)
      ∧ keystore w !! (sender +:+ " signature key") = Some vk
      ∧ DSVerify vk msg sig = Ok ()
      ∧ DecryptAsynchMsg msg (RSAkey u) = Ok ims
      ∧ datastore w !! im_InvitationUUID ims = Some (Packed m t)
      ∧ CheckTag m t (KDF (im_InvitationSourcekey ims) MAC) = Ok ()
      ∧ im_InvitationSourcekey ims ≠ Nil
      ∧ w' = mkWorld
               (<[KDF (sourceKey u) F :=
                    Seal (KDF (sourceKey u) F) (Rand (rng w))
                      (JAccess (mkAccess Nil Nil (im_InvitationUUID ims)
                                  (im_InvitationSourcekey ims) Nil Nil false))]>
                  (datastore w))
               (keystore w) (S (rng w)).
Proof.
  unfold AcceptInvitation, CheckSignature.
  destruct (decide (sourceKey u = Nil)) as [Hn|Hn].
  { rewrite run_bind, GetAccessUUID_Nil by done. discriminate. }
  minv. intros [= <-]. split; [done|]. split; [done|].
  repeat match goal with x : unit |- _ => destruct x end.
  repeat match goal with
         | H : GetTwoHASHKDFKeys _ _ _ = Ok _ |- _ =>
             apply GetTwoHASHKDFKeys_inv in H; destruct H as (? & -> & ->)
         | H : UnpackValue ?v = Ok _ |- _ =>
             destruct v; [injection H as <- <- | discriminate H]
         end.
  eexists _, _, _, _, _, _. repeat split; eauto.
Qed.

Lemma AcceptInvitation_run u sender token F w msg sig vk ims m t :
  sourceKey u ≠ Nil →
  datastore w !! KDF (sourceKey u) F = None →
  datastore w !! token = Some (Packed msg sig) →
  keystore w !! (sender +:+ " signature key") = Some vk →
  DSVerify vk msg sig = Ok () →
  DecryptAsynchMsg msg (RSAkey u) = Ok ims →
  datastore w !! im_InvitationUUID ims = Some (Packed m t) →
  CheckTag m t (KDF (im_InvitationSourcekey ims) MAC) = Ok () →
  im_InvitationSourcekey ims ≠ Nil →
  AcceptInvitation u sender token F w
  = (Ok (),
     mkWorld
       (<[KDF (sourceKey u) F :=
            Seal (KDF (sourceKey u) F) (Rand (rng w))
              (JAccess (mkAccess Nil Nil (im_InvitationUUID ims)
                          (im_InvitationSourcekey ims) Nil Nil false))]>
          (datastore w))
       (keystore w) (S (rng w))).
Proof.
  intros Hn Hfree Htok Hvk Hsig Hdec Hinv Htag Hk.
  unfold AcceptInvitation, CheckSignature.
  mgo. rewrite Hsig. mgo. rewrite Hdec. mgo. rewrite Htag. mgo. reflexivity.
Qed.

Lemma alice_invites_bob_run :
  alice_invites_bob emptyWorld = (Ok (alice, bob, Uuid 19), invited).
Proof. vm_compute. reflexivity. Qed.

(** C6, as stated, fails: bob accepts the token of alice's invitation as
    "b" and then once more as "c"; both calls succeed and both names read
    the file. *)
Lemma invitation_token_accepted_twice :
  fst ((AcceptInvitation bob "alice" (Uuid 19) "b";;
        AcceptInvitation bob "alice" (Uuid 19) "c";;
        b ← LoadFile bob "b";
        c ← LoadFile bob "c";
        mret (b, c)) invited)
  = Ok (hello, hello).
Proof. vm_compute. reflexivity. Qed.

(** C6, amended. The Invitation-Pointer is read but not consumed: a
    successful AcceptInvitation leaves the value at the token UUID in the
    Datastore as it was, and the same user can accept the same token from
    the same sender again, under any filename whose Access slot is still
    free. *)
Theorem AcceptInvitation_keeps_token (u : User) (sender : string)
    (token : UUID) (F F' : string) (w w' : World)
    (Haccept : AcceptInvitation u sender token F w = (Ok (), w'))
    (Hfree : ∃ accessUUID, GetAccessUUID u F' = Ok accessUUID
                           ∧ datastore w' !! accessUUID = None) :
  is_Some (datastore w' !! token)
  ∧ datastore w' !! token = datastore w !! token
  ∧ ∃ w'', AcceptInvitation u sender token F' w' = (Ok (), w'').
Proof.
  apply AcceptInvitation_inv in Haccept
    as (Hn & Hslot & msg & sig & vk & ims & m & t
        & Htok & Hvk & Hsig & Hdec & Hinv & Htag & Hk & ->).
  destruct Hfree as (accessUUID & Hu & Hfree).
  rewrite GetAccessUUID_ok in Hu by done. injection Hu as <-.
  cbn in *.
  assert (KDF (sourceKey u) F ≠ token) by congruence.
  assert (KDF (sourceKey u) F ≠ im_InvitationUUID ims) by congruence.
  rewrite lookup_insert_ne by done. rewrite Htok.
  split; [eauto|]. split; [done|]. eexists.
  eapply AcceptInvitation_run; cbn; eauto; by rewrite lookup_insert_ne.
Qed.

Lemma AcceptInvitation_keeps_token_witness :
  let w' := snd (AcceptInvitation bob "alice" (Uuid 19) "b" invited) in
  is_Some (datastore w' !! Uuid 19)
  ∧ datastore w' !! Uuid 19 = datastore invited !! Uuid 19
  ∧ ∃ w'', AcceptInvitation bob "alice" (Uuid 19) "c" w' = (Ok (), w'').
Proof.
  apply (AcceptInvitation_keeps_token bob "alice" (Uuid 19) "b" "c" invited).
  - vm_compute. reflexivity.
  - exists (KDF (Argon2 "password" "bob") "c"). split; vm_compute; reflexivity.
Defined.

(** * Files: resolution, Metadata and the chain of blocks *)

Lemma contents_app b1 b2 : contents (b1 ++ b2) = contents b1 ++ contents b2.
Proof. unfold contents. by rewrite map_app, concat_app. Qed.

Lemma chain_det ds fk last blocks1 :
  ∀ cur blocks2,
    chain ds fk cur last blocks1 → chain ds fk cur last blocks2 →
    blocks1 = blocks2.
Proof.
  induction blocks1 as [|[u1 f1] rest1 IH]; intros cur [|[u2 f2] rest2]; cbn.
  - done.
  - intros -> (_ & Hne & _). done.
  - intros (_ & Hne & _) ->. done.
  - intros (-> & _ & [iv1 H1] & Hc1) (-> & _ & [iv2 H2] & Hc2).
    rewrite H1 in H2. injection H2 as _ <-.
    f_equal. by eapply IH.
Qed.

Lemma chain_suffix ds fk last blocks :
  ∀ cur uuid, chain ds fk cur last blocks → uuid ∈ blocks.*1 →
    ∃ pre suf, blocks = pre ++ suf ∧ chain ds fk uuid last suf
               ∧ suf ≠ [].
Proof.
  induction blocks as [|[u f] rest IH]; intros cur uuid; cbn.
  - intros _ Hin. by apply elem_of_nil in Hin.
  - intros (-> & Hne & Hv & Hc) Hin. apply elem_of_cons in Hin as [->|Hin].
    + exists [], ((cur, f) :: rest). by repeat split.
    + destruct (IH _ _ Hc Hin) as (pre & suf & -> & Hs & Hnil).
      exists ((cur, f) :: pre), suf. by repeat split.
Qed.

Lemma chain_NoDup ds fk last blocks :
  ∀ cur, chain ds fk cur last blocks → NoDup blocks.*1.
Proof.
  induction blocks as [|[u f] rest IH]; intros cur; cbn.
  - intros _. constructor.
  - intros (-> & Hne & Hv & Hc). constructor; [|by eapply IH].
    intros Hin.
    destruct (chain_suffix _ _ _ _ _ _ Hc Hin) as (pre & suf & -> & Hs & Hnil).
    assert (chain ds fk cur last ((cur, f) :: pre ++ suf)) as Hfull
      by (cbn; done).
    pose proof (chain_det _ _ _ _ _ _ Hfull Hs) as Heq.
    apply (f_equal List.length) in Heq. cbn in Heq. rewrite length_app in Heq. lia.
Qed.

Lemma chain_in_dom ds fk last blocks :
  ∀ cur uuid, chain ds fk cur last blocks → uuid ∈ blocks.*1 →
    is_Some (ds !! uuid).
Proof.
  induction blocks as [|[u f] rest IH]; intros cur uuid; cbn.
  - intros _ Hin. by apply elem_of_nil in Hin.
  - intros (-> & Hne & [iv Hv] & Hc) Hin.
    apply elem_of_cons in Hin as [->|Hin]; [eauto|]. by eapply IH.
Qed.

Lemma chain_length ds fk cur last blocks :
  chain ds fk cur last blocks → (List.length blocks ≤ size ds)%nat.
Proof.
  intros Hc. rewrite <- (length_fmap fst blocks), <- size_dom.
  unfold size at 1, set_size. cbn. apply submseteq_length, NoDup_submseteq.
  - by eapply chain_NoDup.
  - intros uuid Hin. apply elem_of_elements, elem_of_dom.
    by eapply chain_in_dom.
Qed.

Lemma LoadFile_loop_unfold fuel ek hk last cur acc :
  LoadFile_loop fuel ek hk last cur acc
  = if decide (cur = last) then mret acc else
    match fuel with
    | 0 => lift Diverges
    | S fuel =>
        fileValue ← DatastoreGet cur;
        match fileValue with
        | None => fail "File data block not found"
        | Some fileValue =>
            '(fileMsg, fileTag) ←
              lift (orE (UnpackValue fileValue) "file could not be unpacked");
            lift (orE (CheckTag fileMsg fileTag hk)
                    "integrity check failed: File has unauthorized modifications");;
            fileStruct ← lift (orE (DecryptFileMsg fileMsg ek)
                                 "File could not be decrypted");
            LoadFile_loop fuel ek hk last (Next fileStruct)
              (acc ++ Contents fileStruct)
        end
    end.
Proof. by destruct fuel. Qed.

Lemma LoadFile_loop_run w fk last blocks :
  ∀ fuel cur acc,
    chain (datastore w) fk cur last blocks → (List.length blocks ≤ fuel)%nat →
    LoadFile_loop fuel (KDF fk ENCRYPT) (KDF fk MAC) last cur acc w
    = (Ok (acc ++ contents blocks), w).
Proof.
  induction blocks as [|[u f] rest IH]; intros fuel cur acc; cbn.
  - intros -> _. rewrite LoadFile_loop_unfold, decide_True by done.
    unfold contents. cbn. by rewrite app_nil_r.
  - intros (-> & Hne & [iv Hv] & Hc) Hlen.
    destruct fuel as [|fuel]; [lia|].
    rewrite LoadFile_loop_unfold, decide_False by done.
    unfold DecryptFileMsg. mgo. rewrite IH by (done || lia).
    unfold contents. cbn. by rewrite app_assoc.
Qed.

(** ** The fuel of the loop

    Whatever the loop returns with some amount of fuel it returns with the
    fuel LoadFile gives it: a walk that stops opens no block twice, so it
    opens no more blocks than the Datastore holds. *)

Lemma LoadFile_loop_step fuel ek hk last cur acc w :
  LoadFile_loop (S fuel) ek hk last cur acc w
  = if decide (cur = last) then (Ok acc, w) else
    match read_block w ek hk cur with
    | Ok f => LoadFile_loop fuel ek hk last (Next f) (acc ++ Contents f) w
    | Err e => (Err e, w)
    | Panic e => (Panic e, w)
    | Diverges => (Diverges, w)
    end.
Proof.
  rewrite LoadFile_loop_unfold. case_decide; [done|].
  unfold read_block. mgo. destruct (datastore w !! cur) as [v|]; mgo; [|done].
  repeat (mcase; mgo; try done).
Qed.

Section Fuel.
Context (w : World) (ek hk last : bytes).

Lemma runs_sound l c cur o :
  runs w ek hk last l c cur o → ∀ fuel acc, List.length l < fuel →
  LoadFile_loop fuel ek hk last cur acc w = (outcome o (acc ++ c), w).
Proof.
  induction 1 as [|cur r Hne Hr Hnok|cur f l c o Hne Hr Hruns IH];
    intros fuel acc Hfuel; (destruct fuel as [|fuel]; [cbn in Hfuel; lia|]).
  - rewrite LoadFile_loop_unfold, decide_True by done. cbn. by rewrite app_nil_r.
  - rewrite LoadFile_loop_step, decide_False, Hr by done.
    destruct r; try done. by destruct (Hnok a).
  - rewrite LoadFile_loop_step, decide_False, Hr by done.
    rewrite IH; [by rewrite app_assoc|]. cbn in Hfuel. lia.
Qed.

Lemma runs_complete fuel :
  ∀ cur acc r w', LoadFile_loop fuel ek hk last cur acc w = (r, w') →
    r ≠ Diverges →
    ∃ l c o, runs w ek hk last l c cur o ∧ r = outcome o (acc ++ c) ∧ w' = w.
Proof.
  induction fuel as [|fuel IH]; intros cur acc r w'.
  - rewrite LoadFile_loop_unfold. case_decide as Hc.
    + intros [= <- <-] _. subst. exists [], [], (Ok ()).
      rewrite app_nil_r. repeat split. constructor.
    + intros [= <- <-]. done.
  - rewrite LoadFile_loop_step. case_decide as Hc.
    + intros [= <- <-] _. subst. exists [], [], (Ok ()).
      rewrite app_nil_r. repeat split. constructor.
    + destruct (read_block w ek hk cur) as [f|e|e|] eqn:Hr.
      * intros Hrun Hnd.
        destruct (IH _ _ _ _ Hrun Hnd) as (l & c & o & Hruns & -> & ->).
        exists (cur :: l), (Contents f ++ c), o. rewrite app_assoc.
        repeat split. by econstructor.
      * intros [= <- <-] _. exists [], [], (stopped (Err e : result File)).
        repeat split. by constructor.
      * intros [= <- <-] _. exists [], [], (stopped (Panic e : result File)).
        repeat split. by constructor.
      * intros [= <- <-]. done.
Qed.

Lemma runs_det l c cur o :
  runs w ek hk last l c cur o →
  ∀ l' c' o', runs w ek hk last l' c' cur o' → l = l'.
Proof.
  induction 1 as [|cur r Hne Hr Hnok|cur f l c o Hne Hr Hruns IH];
    intros l' c' o' Hruns'.
  - inversion Hruns'; subst; done.
  - inversion Hruns'; subst; try done. by destruct (Hnok f).
  - inversion Hruns' as [|? ? ? ? Hnok|? f' ? ? ? ? Hr' Hruns'']; subst;
      try done.
    + rewrite Hr in Hnok. by destruct (Hnok f).
    + rewrite Hr in Hr'. injection Hr' as <-. f_equal. by eapply IH.
Qed.

Lemma runs_suffix l c cur o :
  runs w ek hk last l c cur o → ∀ x, x ∈ l →
  ∃ l1 l2 c2, l = l1 ++ l2 ∧ l2 ≠ [] ∧ runs w ek hk last l2 c2 x o.
Proof.
  induction 1 as [|cur r Hne Hr Hnok|cur f l c o Hne Hr Hruns IH];
    intros x Hx; [by apply elem_of_nil in Hx..|].
  apply elem_of_cons in Hx as [->|Hx].
  - exists [], (cur :: l), (Contents f ++ c). repeat split; [done|].
    by econstructor.
  - destruct (IH _ Hx) as (l1 & l2 & c2 & -> & Hnil & Hr2).
    by exists (cur :: l1), l2, c2.
Qed.

Lemma runs_NoDup l c cur o : runs w ek hk last l c cur o → NoDup l.
Proof.
  induction 1 as [|cur r Hne Hr Hnok|cur f l c o Hne Hr Hruns IH];
    try constructor; [|done].
  intros Hin.
  destruct (runs_suffix _ _ _ _ Hruns _ Hin) as (l1 & l2 & c2 & -> & Hnil & Hr2).
  assert (runs w ek hk last (cur :: l1 ++ l2) (Contents f ++ c) cur o)
    as Hfull by (by econstructor).
  pose proof (runs_det _ _ _ _ Hfull _ _ _ Hr2) as Heq.
  apply (f_equal List.length) in Heq. cbn in Heq. rewrite length_app in Heq. lia.
Qed.

Lemma runs_dom l c cur o :
  runs w ek hk last l c cur o → ∀ x, x ∈ l → is_Some (datastore w !! x).
Proof.
  induction 1 as [|cur r Hne Hr Hnok|cur f l c o Hne Hr Hruns IH];
    intros x Hx; [by apply elem_of_nil in Hx..|].
  apply elem_of_cons in Hx as [->|Hx]; [|by apply IH].
  unfold read_block in Hr. destruct (datastore w !! cur); [eauto|done].
Qed.

Lemma runs_length l c cur o :
  runs w ek hk last l c cur o → List.length l ≤ size (datastore w).
Proof.
  intros Hruns. rewrite <- size_dom. unfold size at 1, set_size. cbn.
  apply submseteq_length, NoDup_submseteq.
  - by eapply runs_NoDup.
  - intros x Hx. apply elem_of_elements, elem_of_dom. by eapply runs_dom.
Qed.

(** A result of the loop under any fuel is its result under the fuel of
    LoadFile. *)
Lemma loadFuel_suffices fuel cur acc r w' :
  LoadFile_loop fuel ek hk last cur acc w = (r, w') → r ≠ Diverges →
  LoadFile_loop (S (size (datastore w))) ek hk last cur acc w = (r, w').
Proof.
  intros Hrun Hnd.
  destruct (runs_complete _ _ _ _ _ Hrun Hnd) as (l & c & o & Hruns & -> & ->).
  apply (runs_sound _ _ _ _ Hruns). pose proof (runs_length _ _ _ _ Hruns). lia.
Qed.

(** A walk that runs out of the fuel of LoadFile runs out of any fuel. *)
Lemma loadFuel_diverges cur acc w' :
  LoadFile_loop (S (size (datastore w))) ek hk last cur acc w = (Diverges, w') →
  ∀ fuel, (LoadFile_loop fuel ek hk last cur acc w).1 = Diverges.
Proof.
  intros Hdiv fuel.
  destruct (LoadFile_loop fuel ek hk last cur acc w) as [r w''] eqn:Hrun.
  destruct r as [content|e|e|]; [| | |done];
    apply loadFuel_suffices in Hrun; congruence.
Qed.

End Fuel.

Lemma GetMetaUUIDAndSourceKey_run a w mu mk :
  resolves (datastore w) a mu mk →
  GetMetaUUIDAndSourceKey a w = (Ok (mu, mk), w).
Proof.
  unfold resolves, GetMetaUUIDAndSourceKey. destruct (IsOwner a); cbn.
  - by intros [-> ->].
  - intros (Hk & iv & Hv). mgo. reflexivity.
Qed.

Lemma LoadFile_run u F w a mu mk m blocks :
  has_access (datastore w) u F a →
  resolves (datastore w) a mu mk →
  file_at (datastore w) mu mk m blocks →
  LoadFile u F w = (Ok (contents blocks), w).
Proof.
  intros (Hn & _ & iva & Ha) Hr ((Hmk & ivm & Hm) & Hfk & Hc).
  unfold LoadFile. mgo.
  rewrite (GetMetaUUIDAndSourceKey_run _ _ _ _ Hr). mgo.
  unfold loadFuel. mgo.
  erewrite LoadFile_loop_run; [done|done|].
  apply chain_length in Hc. lia.
Qed.

(** AppendToFile reads the Access, the Invitation of a sharee and the
    Metadata, and writes two values: the new block in the slot the
    Metadata reserved, and the Metadata with the next reserved slot. *)
Lemma AppendToFile_run u F content w a mu mk m :
  has_access (datastore w) u F a →
  resolves (datastore w) a mu mk →
  stored (datastore w) mu mk (JMeta m) →
  FileSourcekey m ≠ Nil →
  AppendToFile u F content w
  = (Ok (),
     mkWorld
       (<[mu := Seal mk (Rand (S (S (rng w))))
                  (JMeta (mkMeta (Start m) (Uuid (rng w)) (FileSourcekey m)))]>
          (<[Last m := Seal (FileSourcekey m) (Rand (S (rng w)))
                         (JFile (mkFile content (Uuid (rng w))))]>
             (datastore w)))
       (keystore w) (S (S (S (rng w))))).
Proof.
  intros (Hn & _ & iva & Ha) Hr (Hmk & ivm & Hm) Hfk.
  unfold AppendToFile. mgo.
  rewrite (GetMetaUUIDAndSourceKey_run _ _ _ _ Hr). mgo. reflexivity.
Qed.

(** StoreFile on a name that has an Access: the same reads, and two
    writes, the new block in the first slot of the chain and the Metadata
    with the next reserved slot. *)
Lemma StoreFile_overwrite_run u F content w a mu mk m :
  has_access (datastore w) u F a →
  resolves (datastore w) a mu mk →
  stored (datastore w) mu mk (JMeta m) →
  FileSourcekey m ≠ Nil →
  StoreFile u F content w
  = (Ok (),
     mkWorld
       (<[mu := Seal mk (Rand (S (S (rng w))))
                  (JMeta (mkMeta (Start m) (Uuid (rng w)) (FileSourcekey m)))]>
          (<[Start m := Seal (FileSourcekey m) (Rand (S (rng w)))
                          (JFile (mkFile content (Uuid (rng w))))]>
             (datastore w)))
       (keystore w) (S (S (S (rng w))))).
Proof.
  intros (Hn & _ & iva & Ha) Hr (Hmk & ivm & Hm) Hfk.
  unfold StoreFile. mgo.
  rewrite (GetMetaUUIDAndSourceKey_run _ _ _ _ Hr). mgo. reflexivity.
Qed.

Lemma StoreFile_create_run u F content w :
  sourceKey u ≠ Nil →
  datastore w !! KDF (sourceKey u) F = None →
  StoreFile u F content w
  = (Ok (),
     mkWorld
       (<[KDF (sourceKey u) F :=
            Seal (KDF (sourceKey u) F) (Rand (10 + rng w))
              (JAccess (new_file_access u (rng w)))]>
          (<[Uuid (9 + rng w) :=
               Seal (KDFb (sourceKey u) (Rand (7 + rng w))) (Rand (8 + rng w))
                 (JInvitationList (mkInvitationList (Some ∅)))]>
             (<[Uuid (4 + rng w) :=
                  Seal (KDFb (sourceKey u) (Rand (5 + rng w))) (Rand (6 + rng w))
                    (JMeta (new_file_meta u (rng w)))]>
                (<[Uuid (rng w) :=
                     Seal (KDFb (sourceKey u) (Rand (1 + rng w)))
                       (Rand (3 + rng w))
                       (JFile (mkFile content (Uuid (2 + rng w))))]>
                   (datastore w)))))
       (keystore w) (11 + rng w)).
Proof.
  intros Hn Hfree. unfold StoreFile. mgo. unfold uuid_New. mgo. reflexivity.
Qed.

(** ** Invariants of a file and frames of the writes *)

Lemma rng_fresh_old w k :
  rng_fresh w → is_Some (datastore w !! k) → uuid_old (rng w) k.
Proof. intros Hf [v Hv] n Hn ->. rewrite Hf in Hv; done. Qed.

Lemma stored_ne ds u1 k1 j1 u2 k2 j2 :
  stored ds u1 k1 j1 → stored ds u2 k2 j2 → j1 ≠ j2 → u1 ≠ u2.
Proof. intros H1 H2 Hj ->. by destruct (stored_inj _ _ _ _ _ _ H1 H2). Qed.

Lemma no_capability_ne ds k uuid kk j :
  no_capability ds k → stored ds uuid kk j →
  (∃ a, j = JAccess a) ∨ (∃ i, j = JInvitation i) → k ≠ uuid.
Proof.
  intros [Hfree | (kk' & j' & Hs & Ha & Hi)] Hst Hj.
  - intros ->. destruct Hst as (_ & iv & Hv). congruence.
  - eapply stored_ne; eauto. destruct Hj as [[a ->] | [i ->]]; eauto.
Qed.

Lemma has_access_insert ds u F a k v :
  k ≠ KDF (sourceKey u) F → has_access ds u F a →
  has_access (<[k:=v]> ds) u F a.
Proof. intros Hne [Hn Hs]. split; [done|]. by apply stored_insert_ne. Qed.

Lemma resolves_insert ds a mu mk k v :
  (IsOwner a = false → k ≠ InvitationUUID a) → resolves ds a mu mk →
  resolves (<[k:=v]> ds) a mu mk.
Proof.
  unfold resolves. destruct (IsOwner a); [done|].
  intros Hne Hs. apply stored_insert_ne; auto.
Qed.

Lemma reaches_insert ds u F mu mk k v :
  no_capability ds k → reaches ds u F mu mk →
  reaches (<[k:=v]> ds) u F mu mk.
Proof.
  intros Hk (a & Ha & Hr). exists a. split.
  - apply has_access_insert; [|done]. destruct Ha as [_ Hs].
    eapply no_capability_ne; eauto.
  - apply resolves_insert; [|done]. intros Ho. unfold resolves in Hr.
    rewrite Ho in Hr. eapply no_capability_ne; eauto.
Qed.

Lemma no_capability_insert ds k k' v :
  k ≠ k' → no_capability ds k' → no_capability (<[k:=v]> ds) k'.
Proof.
  intros Hne [Hfree | (kk & j & Hs & Ha & Hi)].
  - left. by rewrite lookup_insert_ne.
  - right. exists kk, j. split; [|done]. by apply stored_insert_ne.
Qed.

Lemma chain_insert ds fk last k v blocks :
  ∀ cur, k ∉ blocks.*1 → chain ds fk cur last blocks →
         chain (<[k:=v]> ds) fk cur last blocks.
Proof.
  induction blocks as [|[u f] rest IH]; intros cur; cbn; [done|].
  intros Hk (-> & Hne & [iv Hv] & Hc).
  apply not_elem_of_cons in Hk as [Hk1 Hk2].
  split; [done|]. split; [done|]. split; [|by apply IH].
  exists iv. by rewrite lookup_insert_ne.
Qed.

Lemma chain_snoc ds fk last last' iv content blocks :
  fk ≠ Nil → ds !! last = None → ds !! last' = None → last ≠ last' →
  ∀ cur, chain ds fk cur last blocks →
         chain (<[last := Seal fk iv (JFile (mkFile content last'))]> ds)
           fk cur last' (blocks ++ [(last, mkFile content last')]).
Proof.
  intros Hfk Hlast Hlast' Hne.
  induction blocks as [|[u f] rest IH]; intros cur; cbn.
  - intros ->. repeat split; try done. exists iv. by rewrite lookup_insert_eq.
  - intros (-> & Hcur & [iv' Hv] & Hc).
    split; [done|]. split; [congruence|]. split; [|by apply IH].
    exists iv'. rewrite lookup_insert_ne; [done|congruence].
Qed.

Lemma chain_blocks_stored ds fk cur last blocks uuid :
  fk ≠ Nil → chain ds fk cur last blocks → uuid ∈ blocks.*1 →
  ∃ f, stored ds uuid fk (JFile f).
Proof.
  intros Hfk. revert cur.
  induction blocks as [|[u f] rest IH]; intros cur; cbn.
  - intros _ Hin. by apply elem_of_nil in Hin.
  - intros (-> & Hne & Hv & Hc) Hin.
    apply elem_of_cons in Hin as [->|Hin]; [by exists f|]. by eapply IH.
Qed.

(** The first slot of a well-formed file holds no capability: it is the
    free reserved slot, or it holds a block. *)
Lemma file_ok_start w mu mk m blocks :
  file_ok w mu mk m blocks → no_capability (datastore w) (Start m).
Proof.
  intros ((_ & Hfk & Hc) & Hfree & _). destruct blocks as [|[u f] rest]; cbn in Hc.
  - left. by rewrite Hc.
  - destruct Hc as (-> & _ & Hv & _). right.
    exists (FileSourcekey m), (JFile f). repeat split; done.
Qed.

Lemma file_ok_last w mu mk m blocks :
  file_ok w mu mk m blocks → no_capability (datastore w) (Last m).
Proof. intros (_ & Hfree & _). by left. Qed.

Lemma file_ok_meta w mu mk m blocks :
  file_ok w mu mk m blocks → no_capability (datastore w) mu.
Proof.
  intros ((Hm & _) & _). right. exists mk, (JMeta m). by split.
Qed.

Lemma file_ok_meta_ne w mu mk m blocks :
  file_ok w mu mk m blocks →
  mu ≠ Last m ∧ mu ≠ Start m ∧ mu ∉ blocks.*1.
Proof.
  intros ((Hm & Hfk & Hc) & Hfree & _).
  assert (mu ∉ blocks.*1) as Hnot.
  { intros Hin. destruct (chain_blocks_stored _ _ _ _ _ _ Hfk Hc Hin) as [f Hf].
    by destruct (stored_inj _ _ _ _ _ _ Hm Hf). }
  assert (mu ≠ Last m) as Hl.
  { intros ->. destruct Hm as (_ & iv & Hv). congruence. }
  repeat split; try done.
  destruct blocks as [|[u f] rest]; cbn in Hc; [congruence|].
  destruct Hc as (-> & _). intros ->. apply Hnot. cbn. apply elem_of_cons. by left.
Qed.

Lemma file_ok_start_old w mu mk m blocks :
  rng_fresh w → file_ok w mu mk m blocks → uuid_old (rng w) (Start m).
Proof.
  intros Hf ((_ & Hfk & Hc) & _ & Hold).
  destruct blocks as [|[u f] rest]; cbn in Hc; [by rewrite Hc|].
  destruct Hc as (-> & _ & [iv Hv] & _). apply rng_fresh_old; eauto.
Qed.

Lemma append_file_ok w mu mk m blocks content :
  rng_fresh w → file_ok w mu mk m blocks →
  rng_fresh (append_world w mu mk m content)
  ∧ file_ok (append_world w mu mk m content) mu mk
      (mkMeta (Start m) (Uuid (rng w)) (FileSourcekey m))
      (blocks ++ [(Last m, mkFile content (Uuid (rng w)))]).
Proof.
  intros Hf Hok. destruct (file_ok_meta_ne _ _ _ _ _ Hok) as (Hl & Hs & Hb).
  destruct Hok as ((Hm & Hfk & Hc) & Hfree & Hold).
  assert (uuid_old (rng w) mu) as Hmu
    by (apply rng_fresh_old; [done|by eapply stored_is_Some]).
  assert (datastore w !! Uuid (rng w) = None) as Hr by (by apply Hf).
  assert (Last m ≠ Uuid (rng w)) as Hlr by (by apply Hold).
  assert (mu ≠ Uuid (rng w)) as Hmr by (by apply Hmu).
  unfold append_world. split; [|split; [|split]]; cbn.
  - intros n Hn. cbn in *.
    rewrite !lookup_insert_ne; [apply Hf; lia|..];
      first [apply Hold; lia | apply Hmu; lia].
  - split; [|split; [done|]].
    + destruct Hm as [Hmk _]. by apply stored_insert.
    + cbn. apply chain_insert.
      * rewrite fmap_app. cbn. intros [Hin|Hin]%elem_of_app; [done|].
        by apply list_elem_of_singleton in Hin.
      * by apply chain_snoc.
  - by rewrite !lookup_insert_ne.
  - intros n Hn [=]. lia.
Qed.

Lemma append_reaches w mu mk m blocks content v G mu2 mk2 :
  file_ok w mu mk m blocks →
  reaches (datastore w) v G mu2 mk2 →
  reaches (datastore (append_world w mu mk m content)) v G mu2 mk2.
Proof.
  intros Hok Hr. destruct (file_ok_meta_ne _ _ _ _ _ Hok) as (Hl & _).
  cbn. apply reaches_insert.
  - apply no_capability_insert; [done|]. by eapply file_ok_meta.
  - apply reaches_insert; [|done]. by eapply file_ok_last.
Qed.

Lemma overwrite_file_ok w mu mk m blocks content :
  rng_fresh w → file_ok w mu mk m blocks →
  rng_fresh (overwrite_world w mu mk m content)
  ∧ file_ok (overwrite_world w mu mk m content) mu mk
      (mkMeta (Start m) (Uuid (rng w)) (FileSourcekey m))
      [(Start m, mkFile content (Uuid (rng w)))].
Proof.
  intros Hf Hok. destruct (file_ok_meta_ne _ _ _ _ _ Hok) as (Hl & Hs & Hb).
  pose proof (file_ok_start_old _ _ _ _ _ Hf Hok) as Hso.
  destruct Hok as ((Hm & Hfk & Hc) & Hfree & Hold).
  assert (uuid_old (rng w) mu) as Hmu
    by (apply rng_fresh_old; [done|by eapply stored_is_Some]).
  assert (datastore w !! Uuid (rng w) = None) as Hr by (by apply Hf).
  assert (Start m ≠ Uuid (rng w)) as Hsr by (by apply Hso).
  assert (mu ≠ Uuid (rng w)) as Hmr by (by apply Hmu).
  unfold overwrite_world. split; [|split; [|split]]; cbn.
  - intros n Hn. cbn in *.
    rewrite !lookup_insert_ne; [apply Hf; lia|..];
      first [apply Hso; lia | apply Hmu; lia].
  - split; [|split; [done|]].
    + destruct Hm as [Hmk _]. by apply stored_insert.
    + cbn. repeat split; try done.
      eexists. rewrite lookup_insert_ne by done. by rewrite lookup_insert_eq.
  - by rewrite !lookup_insert_ne.
  - intros n Hn [=]. lia.
Qed.

Lemma overwrite_reaches w mu mk m blocks content v G mu2 mk2 :
  file_ok w mu mk m blocks →
  reaches (datastore w) v G mu2 mk2 →
  reaches (datastore (overwrite_world w mu mk m content)) v G mu2 mk2.
Proof.
  intros Hok Hr. destruct (file_ok_meta_ne _ _ _ _ _ Hok) as (_ & Hs & _).
  cbn. apply reaches_insert.
  - apply no_capability_insert; [done|]. by eapply file_ok_meta.
  - apply reaches_insert; [|done]. by eapply file_ok_start.
Qed.

Lemma create_file_ok w u F content :
  sourceKey u ≠ Nil → datastore w !! KDF (sourceKey u) F = None →
  rng_fresh w →
  rng_fresh (create_world w u F content)
  ∧ has_access (datastore (create_world w u F content)) u F
      (new_file_access u (rng w))
  ∧ file_ok (create_world w u F content)
      (Uuid (4 + rng w)) (KDFb (sourceKey u) (Rand (5 + rng w)))
      (new_file_meta u (rng w))
      [(Uuid (rng w), mkFile content (Uuid (2 + rng w)))].
Proof.
  intros Hn Hfree Hf. unfold create_world.
  split; [|split; [|split; [|split]]]; cbn.
  - intros n Hle. cbn in *. rewrite !lookup_insert_ne by solve_ne. apply Hf. lia.
  - split; [done|]. by apply stored_insert.
  - split; [|split; [done|]].
    + split; [done|]. eexists. rewrite !lookup_insert_ne by solve_ne.
      by rewrite lookup_insert_eq.
    + cbn. repeat split; try solve_ne. eexists.
      rewrite !lookup_insert_ne by solve_ne. by rewrite lookup_insert_eq.
  - rewrite !lookup_insert_ne by solve_ne. apply Hf. lia.
  - intros n Hle [=]. lia.
Qed.

Lemma create_reaches w u F content v G mu2 mk2 :
  datastore w !! KDF (sourceKey u) F = None → rng_fresh w →
  reaches (datastore w) v G mu2 mk2 →
  reaches (datastore (create_world w u F content)) v G mu2 mk2.
Proof.
  intros Hfree Hf Hr. cbn.
  repeat (apply reaches_insert;
          [left; rewrite ?lookup_insert_ne by solve_ne;
           first [done | apply Hf; lia]|]).
  done.
Qed.

Lemma StoreFile_spec w u F content :
  can_store w u F →
  ∃ w1 mu mk m1,
    StoreFile u F content w = (Ok (), w1)
    ∧ rng_fresh w1
    ∧ reaches (datastore w1) u F mu mk
    ∧ file_ok w1 mu mk m1 [(Start m1, mkFile content (Last m1))]
    ∧ (∀ v G mu2 mk2, reaches (datastore w) v G mu2 mk2 →
                      reaches (datastore w1) v G mu2 mk2).
Proof.
  intros (Hn & Hf & [Hfree | (mu & mk & m & blocks & Hr & Hok)]).
  - destruct (create_file_ok w u F content Hn Hfree Hf) as (Hf1 & Ha & Hok).
    eexists _, _, _, _. split; [by apply StoreFile_create_run|].
    split; [exact Hf1|]. split; [|split; [exact Hok|]].
    + eexists. split; [exact Ha|]. by cbn.
    + intros v G mu2 mk2. by apply create_reaches.
  - destruct (overwrite_file_ok w mu mk m blocks content Hf Hok) as (Hf1 & Hok1).
    destruct Hr as (a & Ha & Hres).
    eexists _, _, _, _. split.
    { destruct Hok as ((Hm & Hfk & _) & _).
      by eapply StoreFile_overwrite_run. }
    split; [exact Hf1|]. split; [|split; [exact Hok1|]].
    + eapply overwrite_reaches; [done|]. by exists a.
    + intros v G mu2 mk2. by eapply overwrite_reaches.
Qed.

Lemma AppendToFile_spec w u F content mu mk m blocks :
  reaches (datastore w) u F mu mk → file_ok w mu mk m blocks →
  AppendToFile u F content w = (Ok (), append_world w mu mk m content).
Proof.
  intros (a & Ha & Hr) ((Hm & Hfk & _) & _). by eapply AppendToFile_run.
Qed.

Lemma LoadFile_spec w u F mu mk m blocks :
  reaches (datastore w) u F mu mk → file_ok w mu mk m blocks →
  LoadFile u F w = (Ok (contents blocks), w).
Proof. intros (a & Ha & Hr) (Hfile & _). by eapply LoadFile_run. Qed.

(** * Store, append and load *)

(** C2. After StoreFile(F, C1), AppendToFile(F, C2), AppendToFile(F, C3),
    on a free name or on a well-formed file, LoadFile(F) by the user, and
    by every user whose Access resolves to the same Metadata, returns
    C1 ++ C2 ++ C3, and those who reached the Metadata before still reach
    it.  Each append writes two values only, the new block into the free
    slot the Metadata names as lastUUID and the Metadata with the block's
    fresh next as its new lastUUID ([append_world]); and it does so
    whatever the rest of the Datastore holds, blocks included, for it is
    determined by the Access, the Invitation of a sharee and the
    Metadata. *)
Theorem store_append_append_load (u : User) (F : string)
    (C1 C2 C3 : list byte) (w : World) (Hpre : can_store w u F) :
  ∃ w1 w2 w3 mu mk m1,
    StoreFile u F C1 w = (Ok (), w1)
    ∧ AppendToFile u F C2 w1 = (Ok (), w2)
    ∧ AppendToFile u F C3 w2 = (Ok (), w3)
    ∧ LoadFile u F w3 = (Ok (C1 ++ C2 ++ C3), w3)
    ∧ (∀ v G, reaches (datastore w3) v G mu mk →
              LoadFile v G w3 = (Ok (C1 ++ C2 ++ C3), w3))
    ∧ (∀ v G, reaches (datastore w) v G mu mk →
              reaches (datastore w3) v G mu mk)
    ∧ stored (datastore w1) mu mk (JMeta m1)
    ∧ datastore w1 !! Last m1 = None
    ∧ datastore w1 !! Uuid (rng w1) = None
    ∧ w2 = append_world w1 mu mk m1 C2
    ∧ datastore w2 !! Uuid (rng w1) = None
    ∧ datastore w2 !! Uuid (rng w2) = None
    ∧ w3 = append_world w2 mu mk
             (mkMeta (Start m1) (Uuid (rng w1)) (FileSourcekey m1)) C3
    ∧ (∀ w0 a,
         has_access (datastore w0) u F a →
         resolves (datastore w0) a mu mk →
         stored (datastore w0) mu mk (JMeta m1) →
         AppendToFile u F C2 w0 = (Ok (), append_world w0 mu mk m1 C2)).
Proof.
  destruct (StoreFile_spec w u F C1 Hpre)
    as (w1 & mu & mk & m1 & Hs & Hf1 & Hr1 & Hok1 & Hfr1).
  pose proof (AppendToFile_spec w1 u F C2 _ _ _ _ Hr1 Hok1) as Ha2.
  destruct (append_file_ok w1 mu mk m1 _ C2 Hf1 Hok1) as (Hf2 & Hok2).
  pose proof (append_reaches w1 mu mk m1 _ C2 u F mu mk Hok1 Hr1) as Hr2.
  set (w2 := append_world w1 mu mk m1 C2) in *.
  set (m2 := mkMeta (Start m1) (Uuid (rng w1)) (FileSourcekey m1)) in *.
  pose proof (AppendToFile_spec w2 u F C3 _ _ _ _ Hr2 Hok2) as Ha3.
  destruct (append_file_ok w2 mu mk m2 _ C3 Hf2 Hok2) as (Hf3 & Hok3).
  pose proof (append_reaches w2 mu mk m2 _ C3 u F mu mk Hok2 Hr2) as Hr3.
  set (w3 := append_world w2 mu mk m2 C3) in *.
  assert (∀ v G, reaches (datastore w3) v G mu mk →
                 LoadFile v G w3 = (Ok (C1 ++ C2 ++ C3), w3)) as Hload.
  { intros v G Hv. erewrite LoadFile_spec; [|done|done].
    unfold contents. cbn. by rewrite app_nil_r. }
  exists w1, w2, w3, mu, mk, m1.
  split; [done|]. split; [done|]. split; [done|]. split; [by apply Hload|].
  split; [done|]. split.
  { intros v G Hv. eapply append_reaches; [done|].
    eapply append_reaches; [done|]. by apply Hfr1. }
  destruct Hok1 as ((Hm1 & Hfk1 & _) & Hfree1 & _).
  destruct Hok2 as (_ & Hfree2 & _).
  split; [done|]. split; [done|]. split; [by apply Hf1|]. split; [done|].
  split; [done|]. split; [by apply Hf2|]. split; [done|].
  intros w0 a Ha Hr Hm. by eapply AppendToFile_run.
Qed.

(** C3. Overwrite replaces in place: after StoreFile(F, C1) and
    StoreFile(F, C2), LoadFile(F) returns C2.  The second StoreFile writes
    two values only ([overwrite_world]): the block with C2 at the
    Metadata's startUUID and the Metadata with a new lastUUID, its
    startUUID and fileContentSourceKey as they were; every user who
    reached the Metadata before the second StoreFile still reaches it and
    reads C2. *)
Theorem store_store_load (u : User) (F : string) (C1 C2 : list byte)
    (w : World) (Hpre : can_store w u F) :
  ∃ w1 w2 mu mk m1,
    StoreFile u F C1 w = (Ok (), w1)
    ∧ StoreFile u F C2 w1 = (Ok (), w2)
    ∧ LoadFile u F w2 = (Ok C2, w2)
    ∧ stored (datastore w1) mu mk (JMeta m1)
    ∧ w2 = overwrite_world w1 mu mk m1 C2
    ∧ stored (datastore w2) mu mk
        (JMeta (mkMeta (Start m1) (Uuid (rng w1)) (FileSourcekey m1)))
    ∧ (∀ v G, reaches (datastore w1) v G mu mk →
              reaches (datastore w2) v G mu mk
              ∧ LoadFile v G w2 = (Ok C2, w2)).
Proof.
  destruct (StoreFile_spec w u F C1 Hpre)
    as (w1 & mu & mk & m1 & Hs & Hf1 & Hr1 & Hok1 & Hfr1).
  destruct (overwrite_file_ok w1 mu mk m1 _ C2 Hf1 Hok1) as (Hf2 & Hok2).
  assert (StoreFile u F C2 w1 = (Ok (), overwrite_world w1 mu mk m1 C2)) as Hs2.
  { destruct Hr1 as (a & Ha & Hres). destruct Hok1 as ((Hm & Hfk & _) & _).
    by eapply StoreFile_overwrite_run. }
  set (w2 := overwrite_world w1 mu mk m1 C2) in *.
  assert (∀ v G, reaches (datastore w1) v G mu mk →
                 reaches (datastore w2) v G mu mk
                 ∧ LoadFile v G w2 = (Ok C2, w2)) as Hload.
  { intros v G Hv.
    assert (reaches (datastore w2) v G mu mk) as Hv2
      by (by eapply overwrite_reaches).
    split; [done|]. erewrite LoadFile_spec; [|done|done].
    unfold contents. cbn. by rewrite app_nil_r. }
  exists w1, w2, mu, mk, m1.
  split; [done|]. split; [done|]. split; [by apply Hload|].
  destruct Hok1 as ((Hm1 & _) & _). destruct Hok2 as ((Hm2 & _) & _).
  done.
Qed.

Lemma rng_fresh_check w :
  map_Forall (λ k _, uuid_oldb (rng w) k = true) (datastore w) → rng_fresh w.
Proof.
  intros Hall n Hn. destruct (datastore w !! Uuid n) as [v|] eqn:Hv; [|done].
  apply Hall in Hv. cbn in Hv. apply Nat.ltb_lt in Hv. lia.
Qed.

Lemma can_store_registered : can_store registered alice "a".
Proof.
  split; [discriminate|]. split; [|left; vm_compute; reflexivity].
  apply rng_fresh_check. refine (bool_decide_unpack _ _). vm_compute. exact I.
Qed.

Lemma store_append_append_load_witness :
  ∃ w1 w2 w3,
    StoreFile alice "a" hello registered = (Ok (), w1)
    ∧ AppendToFile alice "a" hello w1 = (Ok (), w2)
    ∧ AppendToFile alice "a" hello w2 = (Ok (), w3)
    ∧ LoadFile alice "a" w3 = (Ok (hello ++ hello ++ hello), w3).
Proof.
  destruct (store_append_append_load alice "a" hello hello hello registered
              can_store_registered)
    as (w1 & w2 & w3 & mu & mk & m1 & H1 & H2 & H3 & H4 & _).
  exists w1, w2, w3. repeat split; assumption.
Defined.

(** The file exists already when the two calls of the claim begin. *)
Lemma can_store_again :
  can_store (snd (StoreFile alice "a" hello registered)) alice "a".
Proof.
  destruct (StoreFile_spec registered alice "a" hello can_store_registered)
    as (w1 & mu & mk & m1 & Hs & Hf1 & Hr1 & Hok1 & _).
  rewrite Hs. cbn. split; [discriminate|]. split; [done|]. right.
  by eexists _, _, _, _.
Qed.

Lemma store_store_load_witness :
  ∃ w1 w2,
    StoreFile alice "a" [] (snd (StoreFile alice "a" hello registered))
      = (Ok (), w1)
    ∧ StoreFile alice "a" hello w1 = (Ok (), w2)
    ∧ LoadFile alice "a" w2 = (Ok hello, w2).
Proof.
  destruct (store_store_load alice "a" [] hello _ can_store_again)
    as (w1 & w2 & mu & mk & m1 & H1 & H2 & H3 & _).
  exists w1, w2. repeat split; assumption.
Defined.

(** * Creating an invitation *)

Lemma CreateInvitation_sharee_run u F R w a mu mk n s :
  keystore w !! (R +:+ " public key") = Some (PKEPub n) →
  R ≠ Username u →
  Sigkey u = DSPriv s →
  has_access (datastore w) u F a →
  resolves (datastore w) a mu mk →
  IsOwner a = false →
  CreateInvitation u F R w
  = (Ok (Uuid (2 + rng w)),
     mkWorld (invite_store w u F R mu mk n s) (keystore w) (3 + rng w)).
Proof.
  intros Hpk Hself Hsig (Hn & _ & iva & Ha) Hr Ho.
  unfold CreateInvitation. mgo. rewrite decide_False by done. mgo.
  rewrite (GetMetaUUIDAndSourceKey_run _ _ _ _ Hr). mgo.
  unfold uuid_New, EncryptThenSign. mgo. rewrite Hsig, Ho. mgo. reflexivity.
Qed.

Lemma CreateInvitation_owner_run u F R w a mu mk n s L :
  keystore w !! (R +:+ " public key") = Some (PKEPub n) →
  R ≠ Username u →
  Sigkey u = DSPriv s →
  has_access (datastore w) u F a →
  resolves (datastore w) a mu mk →
  IsOwner a = true →
  stored (datastore w) (InvitationList_ a) (ListKey a)
    (JInvitationList (mkInvitationList (Some L))) →
  InvitationList_ a ≠ KDF (sourceKey u) (Username u +:+ F +:+ R) →
  InvitationList_ a ≠ Uuid (2 + rng w) →
  CreateInvitation u F R w
  = (Ok (Uuid (2 + rng w)),
     mkWorld
       (<[InvitationList_ a :=
            Seal (ListKey a) (Rand (3 + rng w))
              (JInvitationList
                 (mkInvitationList
                    (Some (<[KDF (sourceKey u) (Username u +:+ F +:+ R) :=
                               KDFb (sourceKey u) (Rand (rng w))]> L))))]>
          (invite_store w u F R mu mk n s))
       (keystore w) (4 + rng w)).
Proof.
  intros Hpk Hself Hsig (Hn & _ & iva & Ha) Hr Ho (Hlk & ivl & Hl) Hne1 Hne2.
  unfold CreateInvitation. mgo. rewrite decide_False by done. mgo.
  rewrite (GetMetaUUIDAndSourceKey_run _ _ _ _ Hr). mgo.
  unfold uuid_New, EncryptThenSign. mgo. rewrite Hsig, Ho. mgo. reflexivity.
Qed.

(** C7. CreateInvitation fails, without writing, when the recipient has
    no public key in the Keystore, when the recipient is the caller, and
    when the caller (a session, with a 16-byte root key) has no Access for
    the filename; when the recipient has a public encryption key, is not
    the caller, and the caller can resolve the file, it returns a token
    that uuid.New() drew, at which nothing was stored before and at which
    the Invitation-Pointer is stored afterwards. *)
Theorem CreateInvitation_preconditions (u : User) (F R : string) (w : World) :
  (keystore w !! (R +:+ " public key") = None →
   ∃ e, CreateInvitation u F R w = (Err e, w))
  ∧ (R = Username u → ∃ e, CreateInvitation u F R w = (Err e, w))
  ∧ ((∃ accessUUID, GetAccessUUID u F = Ok accessUUID
                    ∧ datastore w !! accessUUID = None) →
     ∃ e, CreateInvitation u F R w = (Err e, w))
  ∧ ((∃ n, keystore w !! (R +:+ " public key") = Some (PKEPub n)) →
     R ≠ Username u →
     rng_fresh w →
     can_invite w u F R →
     ∃ token w',
       CreateInvitation u F R w = (Ok token, w')
       ∧ token = Uuid (2 + rng w)
       ∧ datastore w !! token = None
       ∧ is_Some (datastore w' !! token)).
Proof.
  repeat apply conj.
  - intros Hpk. unfold CreateInvitation. mgo. eexists. reflexivity.
  - intros ->. unfold CreateInvitation. mgo.
    destruct (keystore w !! _); mgo; [|eexists; reflexivity].
    eexists. reflexivity.
  - intros (accessUUID & Hu & Hfree). unfold CreateInvitation. mgo.
    destruct (keystore w !! _); mgo; [|eexists; reflexivity].
    case_decide; mgo; [eexists; reflexivity|].
    rewrite Hu. mgo. eexists. reflexivity.
  - intros [n Hpk] Hself Hf ([s Hsig] & a & mu & mk & Ha & Hr & Hlist).
    assert (datastore w !! Uuid (2 + rng w) = None) as Hfree
      by (apply Hf; lia).
    destruct (IsOwner a) eqn:Ho.
    + destruct (Hlist eq_refl) as (L & Hl & Hne).
      assert (InvitationList_ a ≠ Uuid (2 + rng w)) as Hne2.
      { intros Heq. destruct Hl as (_ & iv & Hv). rewrite Heq in Hv. cbn in *. congruence. }
      eexists _, _. split; [by eapply CreateInvitation_owner_run|].
      split; [done|]. split; [done|]. cbn.
      rewrite lookup_insert_ne by done. unfold invite_store.
      rewrite lookup_insert_eq. eauto.
    + eexists _, _. split; [by eapply CreateInvitation_sharee_run|].
      split; [done|]. split; [done|]. cbn. unfold invite_store.
      rewrite lookup_insert_eq. eauto.
Qed.

Lemma create_list_stored w u F content :
  sourceKey u ≠ Nil →
  stored (datastore (create_world w u F content)) (Uuid (9 + rng w))
    (KDFb (sourceKey u) (Rand (7 + rng w)))
    (JInvitationList (mkInvitationList (Some ∅))).
Proof.
  intros Hn. split; [done|]. eexists. cbn.
  rewrite lookup_insert_ne by solve_ne. by rewrite lookup_insert_eq.
Qed.

Lemma create_can_invite w u F R content :
  sourceKey u ≠ Nil → (∃ s, Sigkey u = DSPriv s) →
  can_invite (create_world w u F content) u F R.
Proof.
  intros Hn Hs. split; [done|].
  exists (new_file_access u (rng w)), (Uuid (4 + rng w)),
    (KDFb (sourceKey u) (Rand (5 + rng w))).
  split; [|split; [by cbn|]].
  - split; [done|]. by apply stored_insert.
  - intros _. exists ∅. split; [by apply create_list_stored|]. cbn. discriminate.
Qed.

Lemma can_store_two_users : can_store two_users alice "a".
Proof.
  split; [discriminate|]. split; [|left; vm_compute; reflexivity].
  apply rng_fresh_check. refine (bool_decide_unpack _ _). vm_compute. exact I.
Qed.

Lemma with_file_eq : with_file = create_world two_users alice "a" hello.
Proof.
  unfold with_file. rewrite StoreFile_create_run; [done|discriminate|].
  vm_compute. reflexivity.
Qed.

Lemma rng_fresh_with_file : rng_fresh with_file.
Proof.
  rewrite with_file_eq.
  apply create_file_ok; [discriminate| |apply can_store_two_users].
  vm_compute. reflexivity.
Qed.

Lemma CreateInvitation_preconditions_witness :
  (∃ e, CreateInvitation alice "a" "eve" with_file = (Err e, with_file))
  ∧ (∃ e, CreateInvitation alice "a" "alice" with_file = (Err e, with_file))
  ∧ (∃ e, CreateInvitation alice "g" "bob" with_file = (Err e, with_file))
  ∧ ∃ token w',
      CreateInvitation alice "a" "bob" with_file = (Ok token, w')
      ∧ token = Uuid (2 + rng with_file)
      ∧ datastore with_file !! token = None
      ∧ is_Some (datastore w' !! token).
Proof.
  split; [|split; [|split]].
  - destruct (CreateInvitation_preconditions alice "a" "eve" with_file)
      as (H & _).
    apply H. vm_compute. reflexivity.
  - destruct (CreateInvitation_preconditions alice "a" "alice" with_file)
      as (_ & H & _).
    by apply H.
  - destruct (CreateInvitation_preconditions alice "g" "bob" with_file)
      as (_ & _ & H & _).
    apply H. exists (KDF (Argon2 "password" "alice") "g").
    split; vm_compute; reflexivity.
  - destruct (CreateInvitation_preconditions alice "a" "bob" with_file)
      as (_ & _ & _ & H).
    apply H.
    + exists 3. vm_compute. reflexivity.
    + discriminate.
    + apply rng_fresh_with_file.
    + rewrite with_file_eq. apply create_can_invite; [discriminate|].
      exists 1. reflexivity.
Defined.

(** * Revocation *)

#[global] Arguments LoadFile : simpl never.

Lemma RevokeAccess_loop_run mu mk entries :
  ∀ w, (∀ i k, (i, k) ∈ entries → k ≠ Nil) →
       RevokeAccess_loop mu mk entries w
       = (Ok (),
          mkWorld (loop_store mu mk (rng w) entries (datastore w))
            (keystore w) (List.length entries + rng w)).
Proof.
  induction entries as [|[i k] rest IH]; intros w Hk.
  - by destruct w.
  - assert (k ≠ Nil) by (eapply Hk, elem_of_cons; by left).
    unfold RevokeAccess_loop; fold RevokeAccess_loop.
    unfold RevokeAccess_body. mgo. rewrite IH.
    + cbn. do 2 f_equal. lia.
    + intros i' k' Hin. eapply Hk, elem_of_cons. by right.
Qed.

Lemma loop_store_other mu mk entries uuid :
  ∀ r ds, uuid ∉ entries.*1 →
          loop_store mu mk r entries ds !! uuid = ds !! uuid.
Proof.
  induction entries as [|[i k] rest IH]; intros r ds Hnot; cbn; [done|].
  cbn in Hnot. apply not_elem_of_cons in Hnot as [Hne Hnot].
  rewrite IH by done. by rewrite lookup_insert_ne.
Qed.

Lemma loop_store_entry mu mk entries i k :
  ∀ r ds, NoDup entries.*1 → (i, k) ∈ entries →
          ∃ iv, loop_store mu mk r entries ds !! i
                = Some (Seal k iv (JInvitation (mkInvitation mu mk))).
Proof.
  induction entries as [|[i' k'] rest IH]; intros r ds Hnd Hin; cbn.
  - by apply elem_of_nil in Hin.
  - cbn in Hnd. apply NoDup_cons in Hnd as [Hnot Hnd].
    apply elem_of_cons in Hin as [[= -> ->]|Hin].
    + exists (Rand r). rewrite loop_store_other by done.
      by rewrite lookup_insert_eq.
    + by apply IH.
Qed.

Lemma key_old_fresh r k sk n :
  key_old r k = true → r ≤ n → k ≠ KDFb sk (Rand n).
Proof.
  intros Hold Hn ->. cbn in Hold. apply andb_true_iff in Hold as [_ Hlt].
  apply Nat.ltb_lt in Hlt. lia.
Qed.

Lemma RevokeAccess_run w u F R a m blocks L kR :
  rng_fresh w →
  owner_file w u F a m blocks L →
  L !! KDF (sourceKey u) (Username u +:+ F +:+ R) = Some kR →
  RevokeAccess u F R w
  = (Ok (),
     revoke_world w u F a (contents blocks)
       (delete (KDF (sourceKey u) (Username u +:+ F +:+ R)) L)).
Proof.
  intros Hf [Ha Ho Hfile Hlist Hinv] HR.
  assert (LoadFile u F w = (Ok (contents blocks), w)) as Hload.
  { eapply LoadFile_run; [done| |done]. unfold resolves. by rewrite Ho. }
  destruct Ha as (Hn & _ & iva & Ha).
  destruct Hfile as ((Hmk & ivm & Hm) & Hfk & Hc).
  destruct Hlist as (Hlk & ivl & Hl).
  assert (InvitationList_ a ≠ Uuid (rng w)) as Hne1.
  { intros Heq. rewrite Heq, Hf in Hl; done. }
  assert (InvitationList_ a ≠ MetaUUID a) as Hne2.
  { intros Heq. rewrite Heq in Hl. rewrite Hm in Hl. by injection Hl. }
  unfold RevokeAccess. mgo. rewrite Ho. mgo.
  unfold GetMetaUUIDAndSourceKey. rewrite Ho. mgo.
  rewrite Hload. mgo. unfold uuid_New. mgo.
  rewrite RevokeAccess_loop_run.
  - mgo. unfold revoke_world, rekeyed_store, revoked_access. cbn.
    by rewrite Ho.
  - intros i k Hin. apply elem_of_map_to_list in Hin.
    apply lookup_delete_Some in Hin as [_ Hin].
    destruct (Hinv _ _ Hin) as (inv & Hk & _). done.
Qed.

Section Revoked.
Context (w : World) (u : User) (F : string) (a : Access) (m : Meta)
        (blocks : list (bytes * File)) (L L' : gmap bytes bytes).
Hypothesis Hfresh : rng_fresh w.
Hypothesis Hfile : owner_file w u F a m blocks L.
Hypothesis Hsub : ∀ i k, L' !! i = Some k → L !! i = Some k.

Let w' := revoke_world w u F a (contents blocks) L'.
Let mu := MetaUUID a.
Let mk' := KDFb (sourceKey u) (Rand (4 + rng w)).

Lemma listed_stored i k :
  L' !! i = Some k → ∃ inv, stored (datastore w) i k (JInvitation inv).
Proof. intros Hi. apply Hsub in Hi. by apply (of_invitations _ _ _ _ _ _ _ Hfile). Qed.

Lemma listed_not_entry uuid :
  L' !! uuid = None → uuid ∉ (map_to_list L').*1.
Proof.
  intros Hnone Hin. apply list_elem_of_fmap in Hin as [[i k] [-> Hin]].
  apply elem_of_map_to_list in Hin. cbn in Hnone. congruence.
Qed.

(** What RevokeAccess does not write stays: a record that is not the
    owner's Access, the Metadata or the Invitation List, at a slot that
    is not the slot of a remaining Invitation. *)
Lemma revoke_lookup_frame uuid kk j :
  stored (datastore w) uuid kk j →
  j ≠ JAccess a → j ≠ JMeta m →
  j ≠ JInvitationList (mkInvitationList (Some L)) →
  L' !! uuid = None →
  datastore w' !! uuid = datastore w !! uuid.
Proof.
  intros Hst Hja Hjm Hjl Hnone. destruct Hfile as [Ha Ho Hfi Hlist Hinv].
  destruct Ha as [Hn Ha]. destruct Hfi as (Hm & _).
  assert (KDF (sourceKey u) F ≠ uuid) by (eapply stored_ne; eauto).
  assert (InvitationList_ a ≠ uuid) by (eapply stored_ne; eauto).
  assert (MetaUUID a ≠ uuid) by (eapply stored_ne; eauto).
  assert (Uuid (rng w) ≠ uuid).
  { intros <-. destruct Hst as (_ & iv & Hv). rewrite Hfresh in Hv; done. }
  unfold w', revoke_world, rekeyed_store. cbn.
  rewrite !lookup_insert_ne by done.
  rewrite loop_store_other by (by apply listed_not_entry).
  by rewrite !lookup_insert_ne by done.
Qed.

Lemma revoke_stored_frame uuid kk j :
  stored (datastore w) uuid kk j →
  j ≠ JAccess a → j ≠ JMeta m →
  j ≠ JInvitationList (mkInvitationList (Some L)) →
  L' !! uuid = None →
  stored (datastore w') uuid kk j.
Proof.
  intros Hst Hja Hjm Hjl Hnone.
  pose proof (revoke_lookup_frame _ _ _ Hst Hja Hjm Hjl Hnone) as Heq.
  destruct Hst as (Hk & iv & Hv). split; [done|]. exists iv. congruence.
Qed.

(** The remaining Invitations are sealed again, under their own keys,
    around the new source key of the Metadata. *)
Lemma revoke_invitation i k :
  L' !! i = Some k →
  stored (datastore w') i k (JInvitation (mkInvitation mu mk')).
Proof.
  intros Hi. destruct (listed_stored _ _ Hi) as (inv & Hst).
  destruct Hfile as [Ha Ho Hfi Hlist Hinv]. destruct Ha as [Hn Ha].
  assert (KDF (sourceKey u) F ≠ i) by (eapply stored_ne; eauto).
  assert (InvitationList_ a ≠ i) by (eapply stored_ne; eauto).
  destruct Hst as (Hk & _). split; [done|].
  unfold w', revoke_world. cbn. rewrite !lookup_insert_ne by done.
  apply loop_store_entry; [apply NoDup_fst_map_to_list|].
  by apply elem_of_map_to_list.
Qed.

Lemma listed_old i k n : L' !! i = Some k → rng w ≤ n → i ≠ Uuid n.
Proof.
  intros Hi Hn ->. destruct (listed_stored _ _ Hi) as (inv & _ & iv & Hv).
  rewrite Hfresh in Hv; done.
Qed.

Lemma revoke_lookup_uuid n :
  rng w ≤ n →
  datastore w' !! Uuid n = rekeyed_store w u a (contents blocks) !! Uuid n.
Proof.
  intros Hn. destruct Hfile as [Ha Ho Hfi Hlist Hinv].
  assert (InvitationList_ a ≠ Uuid n).
  { intros Heq. destruct Hlist as (_ & iv & Hv).
    rewrite Heq, Hfresh in Hv; done. }
  unfold w', revoke_world. cbn. rewrite !lookup_insert_ne by solve_ne.
  apply loop_store_other. apply listed_not_entry.
  destruct (L' !! Uuid n) eqn:Hi; [|done].
  by destruct (listed_old _ _ n Hi Hn).
Qed.

Lemma revoke_access : has_access (datastore w') u F (revoked_access u a (rng w)).
Proof.
  destruct Hfile as [[Hn Ha] _ _ _ _]. split; [done|].
  unfold w', revoke_world. cbn. by apply stored_insert.
Qed.

Lemma revoke_reaches : reaches (datastore w') u F mu mk'.
Proof.
  exists (revoked_access u a (rng w)). split; [apply revoke_access|].
  unfold resolves, revoked_access. cbn.
  by rewrite (of_owner _ _ _ _ _ _ _ Hfile).
Qed.

Lemma revoke_meta_stored :
  stored (datastore w') mu mk' (JMeta (revoked_meta u (rng w))).
Proof.
  destruct Hfile as [Ha Ho Hfi Hlist Hinv]. destruct Ha as [Hn Ha].
  destruct Hfi as (Hm & _).
  assert (KDF (sourceKey u) F ≠ MetaUUID a) by (eapply stored_ne; eauto).
  assert (InvitationList_ a ≠ MetaUUID a) by (eapply stored_ne; eauto).
  split; [done|]. eexists. unfold w', revoke_world, rekeyed_store, mu. cbn.
  rewrite !lookup_insert_ne by done. rewrite loop_store_other.
  - by rewrite lookup_insert_eq.
  - apply listed_not_entry. destruct (L' !! MetaUUID a) eqn:Hi; [|done].
    destruct (listed_stored _ _ Hi) as (inv & Hst).
    by destruct (stored_inj _ _ _ _ _ _ Hm Hst).
Qed.

Lemma revoke_file_ok :
  rng_fresh w'
  ∧ file_ok w' mu mk' (revoked_meta u (rng w))
      [(Uuid (rng w), mkFile (contents blocks) (Uuid (2 + rng w)))].
Proof.
  assert (MetaUUID a ≠ Uuid (rng w) ∧ ∀ n, rng w ≤ n → MetaUUID a ≠ Uuid n)
    as [Hmr Hmn].
  { destruct Hfile as [_ _ ((_ & iv & Hv) & _) _ _].
    split; [|intros n Hn]; intros Heq; rewrite Heq, Hfresh in Hv; done. }
  split; [|split; [split; [|split]|split]].
  - intros n Hn. unfold w', revoke_world in Hn. cbn in Hn.
    rewrite revoke_lookup_uuid by lia. unfold rekeyed_store.
    rewrite !lookup_insert_ne; [apply Hfresh; lia|solve_ne|apply Hmn; lia].
  - apply revoke_meta_stored.
  - done.
  - cbn. repeat split; try solve_ne. eexists.
    rewrite revoke_lookup_uuid by lia. unfold rekeyed_store.
    rewrite lookup_insert_ne by done. by rewrite lookup_insert_eq.
  - cbn. rewrite revoke_lookup_uuid by lia. unfold rekeyed_store.
    rewrite !lookup_insert_ne; [apply Hfresh; lia|solve_ne|apply Hmn; lia].
  - intros n Hn [=]. unfold w', revoke_world in Hn. cbn in Hn. lia.
Qed.

(** A user whose Access names a remaining Invitation reaches the
    Metadata under its new key. *)
Lemma revoke_survivor v G av :
  has_access (datastore w) v G av → IsOwner av = false →
  L' !! InvitationUUID av = Some (InvitationSourcekey av) →
  has_access (datastore w') v G av ∧ resolves (datastore w') av mu mk'.
Proof.
  intros [Hn Hav] Ho Hi. split.
  - split; [done|]. apply revoke_stored_frame; try done.
    + intros [= ->]. rewrite (of_owner _ _ _ _ _ _ _ Hfile) in Ho. done.
    + destruct (L' !! KDF (sourceKey v) G) eqn:Hl; [|done].
      destruct (listed_stored _ _ Hl) as (inv & Hst).
      by destruct (stored_inj _ _ _ _ _ _ Hav Hst).
  - unfold resolves. rewrite Ho. by apply revoke_invitation.
Qed.

Lemma revoke_list_stored :
  stored (datastore w') (InvitationList_ a) (ListKey a)
    (JInvitationList (mkInvitationList (Some L'))).
Proof.
  destruct Hfile as [[Hn Ha] _ _ Hlist _].
  assert (KDF (sourceKey u) F ≠ InvitationList_ a) by (eapply stored_ne; eauto).
  destruct Hlist as (Hk & _). split; [done|]. eexists.
  unfold w', revoke_world. cbn. rewrite lookup_insert_ne by done.
  by rewrite lookup_insert_eq.
Qed.

(** A user whose Access names an Invitation that is not among the
    remaining ones resolves as before, to the key the Invitation held. *)
Lemma revoke_stale v G av mu0 k0 :
  has_access (datastore w) v G av → IsOwner av = false →
  resolves (datastore w) av mu0 k0 →
  L' !! InvitationUUID av = None →
  has_access (datastore w') v G av ∧ resolves (datastore w') av mu0 k0.
Proof.
  intros [Hn Hav] Ho Hr Hi. unfold resolves in *. rewrite Ho in *. split.
  - split; [done|]. apply revoke_stored_frame; try done.
    + intros [= ->]. rewrite (of_owner _ _ _ _ _ _ _ Hfile) in Ho. done.
    + destruct (L' !! KDF (sourceKey v) G) eqn:Hl; [|done].
      destruct (listed_stored _ _ Hl) as (inv & Hst).
      by destruct (stored_inj _ _ _ _ _ _ Hav Hst).
  - by apply revoke_stored_frame.
Qed.
End Revoked.

(** A key that does not open the Metadata: the MAC check of LoadFile and
    of AppendToFile on the Metadata fails, and nothing is written. *)
Lemma LoadFile_stale w v G av mu k0 mk m :
  has_access (datastore w) v G av →
  resolves (datastore w) av mu k0 →
  stored (datastore w) mu mk (JMeta m) →
  k0 ≠ mk →
  ∃ e, LoadFile v G w = (Err e, w).
Proof.
  intros (Hn & _ & iva & Ha) Hr (Hmk & ivm & Hm) Hne.
  unfold LoadFile. mgo. rewrite (GetMetaUUIDAndSourceKey_run _ _ _ _ Hr). mgo.
  destruct (decide (k0 = Nil)) as [->|Hk0].
  { rewrite GetTwoHASHKDFKeys_Nil. mgo. eexists. reflexivity. }
  mgo.
  match goal with
  | |- context [CheckTag ?msg ?tag ?key] =>
      destruct (CheckTag_other msg tag key) as [e He];
      [intros [=]; congruence | rewrite He]
  end.
  mgo. eexists. reflexivity.
Qed.

Lemma AppendToFile_stale w v G av mu k0 mk m content :
  has_access (datastore w) v G av →
  resolves (datastore w) av mu k0 →
  stored (datastore w) mu mk (JMeta m) →
  k0 ≠ mk →
  ∃ e, AppendToFile v G content w = (Err e, w).
Proof.
  intros (Hn & _ & iva & Ha) Hr (Hmk & ivm & Hm) Hne.
  unfold AppendToFile. mgo. rewrite (GetMetaUUIDAndSourceKey_run _ _ _ _ Hr). mgo.
  destruct (decide (k0 = Nil)) as [->|Hk0].
  { rewrite GetTwoHASHKDFKeys_Nil. mgo. eexists. reflexivity. }
  mgo.
  match goal with
  | |- context [CheckTag ?msg ?tag ?key] =>
      destruct (CheckTag_other msg tag key) as [e He];
      [intros [=]; congruence | rewrite He]
  end.
  mgo. eexists. reflexivity.
Qed.

(** C1, amended. After a successful A.RevokeAccess(F, B) on a well-formed
    file whose Invitation List names B's Invitation: A's LoadFile returns
    the contents it returned before, and AppendToFile and (under
    CreateInvitation's own preconditions) CreateInvitation still succeed
    for A; the same holds for every user whose Access names an Invitation
    that remains in the list.  Every user X whose Access names an
    Invitation that is not in the remaining list (B's own, or one written
    by B or by a sharee of B) and that leads to A's Metadata with a key
    drawn before the revocation fails on LoadFile and on AppendToFile.
    CreateInvitation by such an X is not refused: it does not open the
    Metadata and still returns a token. *)
Theorem revocation_soundness (A : User) (F B : string) (w : World)
    (a : Access) (m : Meta) (blocks : list (bytes * File))
    (L : gmap bytes bytes) (kB : bytes)
    (Hfresh : rng_fresh w)
    (Hfile : owner_file w A F a m blocks L)
    (Hlisted : L !! KDF (sourceKey A) (Username A +:+ F +:+ B) = Some kB) :
  let invB := KDF (sourceKey A) (Username A +:+ F +:+ B) in
  ∃ w',
    RevokeAccess A F B w = (Ok (), w')
    ∧ LoadFile A F w = (Ok (contents blocks), w)
    ∧ LoadFile A F w' = (Ok (contents blocks), w')
    ∧ (∀ c, ∃ w'', AppendToFile A F c w' = (Ok (), w''))
    ∧ (∀ R n s,
         keystore w' !! (R +:+ " public key") = Some (PKEPub n) →
         R ≠ Username A → Sigkey A = DSPriv s →
         InvitationList_ a ≠ KDF (sourceKey A) (Username A +:+ F +:+ R) →
         ∃ token w'', CreateInvitation A F R w' = (Ok token, w''))
    ∧ (∀ C G aC,
         has_access (datastore w) C G aC → IsOwner aC = false →
         InvitationUUID aC ≠ invB →
         L !! InvitationUUID aC = Some (InvitationSourcekey aC) →
         LoadFile C G w' = (Ok (contents blocks), w')
         ∧ (∀ c, ∃ w'', AppendToFile C G c w' = (Ok (), w''))
         ∧ (∀ R n s,
              keystore w' !! (R +:+ " public key") = Some (PKEPub n) →
              R ≠ Username C → Sigkey C = DSPriv s →
              ∃ token w'', CreateInvitation C G R w' = (Ok token, w'')))
    ∧ (∀ X G aX k0,
         has_access (datastore w) X G aX → IsOwner aX = false →
         resolves (datastore w) aX (MetaUUID a) k0 →
         key_old (rng w) k0 = true →
         InvitationUUID aX = invB ∨ L !! InvitationUUID aX = None →
         (∃ e, LoadFile X G w' = (Err e, w'))
         ∧ (∀ c, ∃ e, AppendToFile X G c w' = (Err e, w'))
         ∧ (∀ R n s,
              keystore w' !! (R +:+ " public key") = Some (PKEPub n) →
              R ≠ Username X → Sigkey X = DSPriv s →
              ∃ token w'', CreateInvitation X G R w' = (Ok token, w''))).
Proof.
  intros invB. set (L' := delete invB L).
  assert (∀ i k, L' !! i = Some k → L !! i = Some k) as Hsub.
  { intros i k Hi. by apply lookup_delete_Some in Hi as [_ Hi]. }
  pose proof (RevokeAccess_run w A F B a m blocks L kB Hfresh Hfile Hlisted)
    as Hrun. fold invB in Hrun. fold L' in Hrun.
  set (w' := revoke_world w A F a (contents blocks) L') in *.
  destruct (revoke_file_ok w A F a m blocks L L' Hfresh Hfile Hsub)
    as (Hf' & Hok'). fold w' in Hf', Hok'.
  pose proof (revoke_reaches w A F a m blocks L L' Hfile) as Hr'. fold w' in Hr'.
  pose proof (revoke_meta_stored w A F a m blocks L L' Hfile Hsub) as Hm'.
  fold w' in Hm'.
  assert (∀ v G av,
            has_access (datastore w') v G av →
            resolves (datastore w') av (MetaUUID a)
              (KDFb (sourceKey A) (Rand (4 + rng w))) →
            LoadFile v G w' = (Ok (contents blocks), w')
            ∧ ∀ c, ∃ w'', AppendToFile v G c w' = (Ok (), w'')) as Hlive.
  { intros v G av Hav Hres. split.
    - erewrite LoadFile_spec; [|by exists av|done].
      unfold contents. cbn. by rewrite app_nil_r.
    - intros c. eexists. eapply AppendToFile_spec; [by exists av|done]. }
  exists w'. split; [done|]. split.
  { destruct Hfile as [Ha Ho Hfi _ _]. eapply LoadFile_run; [done| |done].
    unfold resolves. by rewrite Ho. }
  destruct Hr' as (a' & Ha' & Hres').
  destruct (Hlive A F a' Ha' Hres') as (Hload & Happ).
  split; [done|]. split; [done|]. split; [|split].
  - intros R n s Hpk Hself Hsig Hne.
    pose proof (revoke_access w A F a m blocks L L' Hfile) as Hacc.
    fold w' in Hacc.
    pose proof (revoke_list_stored w A F a m blocks L L' Hfile) as Hlist.
    fold w' in Hlist.
    eexists _, _.
    eapply (CreateInvitation_owner_run A F R w' (revoked_access A a (rng w)));
      eauto.
    + unfold resolves. cbn. rewrite (of_owner _ _ _ _ _ _ _ Hfile). done.
    + apply (of_owner _ _ _ _ _ _ _ Hfile).
    + cbn. intros Heq. destruct Hlist as (_ & iv & Hv).
      rewrite Heq in Hv. rewrite Hf' in Hv; [done|]. cbn. lia.
  - intros C G aC HaC Ho Hne Hin.
    destruct (revoke_survivor w A F a m blocks L L' Hfresh Hfile Hsub C G aC)
      as (HaC' & HrC'); try done.
    { unfold L'. by rewrite lookup_delete_ne. }
    fold w' in HaC', HrC'.
    destruct (Hlive C G aC HaC' HrC') as (HloadC & HappC).
    split; [done|]. split; [done|].
    intros R n s Hpk Hself Hsig. eexists _, _.
    by eapply CreateInvitation_sharee_run.
  - intros X G aX k0 HaX Ho HrX Hold Hout.
    assert (L' !! InvitationUUID aX = None) as HoutL.
    { unfold L'. destruct Hout as [-> | Hnone].
      - apply lookup_delete_eq.
      - apply lookup_delete_None. by right. }
    destruct (revoke_stale w A F a m blocks L L' Hfresh Hfile Hsub
                X G aX _ _ HaX Ho HrX HoutL) as (HaX' & HrX').
    fold w' in HaX', HrX'.
    assert (k0 ≠ KDFb (sourceKey A) (Rand (4 + rng w))) as Hk0
      by (eapply key_old_fresh; [done|lia]).
    split; [by eapply LoadFile_stale|].
    split; [intros c; by eapply AppendToFile_stale|].
    intros R n s Hpk Hself Hsig. eexists _, _.
    by eapply CreateInvitation_sharee_run.
Qed.

Lemma alice_bob_charles_run :
  alice_bob_charles emptyWorld = (Ok (alice, bob, charles), shared).
Proof. vm_compute. reflexivity. Qed.

(** C1, as stated, fails: after alice has revoked bob, bob's
    CreateInvitation for his name of the file returns a token. *)
Lemma revoked_user_still_invites :
  fst ((RevokeAccess alice "a" "bob";;
        CreateInvitation bob "b" "charles") shared)
  = Ok (Uuid 39).
Proof. vm_compute. reflexivity. Qed.

Ltac stored_here :=
  split; [discriminate|]; eexists; vm_compute; reflexivity.

Lemma rng_fresh_shared : rng_fresh shared.
Proof.
  apply rng_fresh_check. refine (bool_decide_unpack _ _). vm_compute. exact I.
Qed.

Lemma owner_file_shared :
  owner_file shared alice "a" shared_access shared_meta
    [(Uuid 9, mkFile hello (Uuid 11))] shared_list.
Proof.
  split.
  - split; [discriminate|]. stored_here.
  - reflexivity.
  - split; [stored_here|]. split; [discriminate|].
    cbn. repeat split; try discriminate. eexists. vm_compute. reflexivity.
  - stored_here.
  - intros i k Hi. unfold shared_list in Hi.
    apply lookup_singleton_Some in Hi as [<- <-]. eexists. stored_here.
Qed.

Lemma revocation_soundness_witness :
  ∃ w',
    RevokeAccess alice "a" "bob" shared = (Ok (), w')
    ∧ LoadFile alice "a" w' = (Ok hello, w')
    ∧ (∃ e, LoadFile bob "b" w' = (Err e, w'))
    ∧ (∃ e, AppendToFile bob "b" hello w' = (Err e, w'))
    ∧ (∃ e, LoadFile charles "c" w' = (Err e, w'))
    ∧ (∃ token w'', CreateInvitation bob "b" "charles" w' = (Ok token, w'')).
Proof.
  destruct (revocation_soundness alice "a" "bob" shared shared_access
              shared_meta [(Uuid 9, mkFile hello (Uuid 11))] shared_list
              (KDFb (Argon2 "password" "alice") (Rand 20))
              rng_fresh_shared owner_file_shared eq_refl)
    as (w' & Hrun & _ & Hload & _ & _ & _ & Hrevoked).
  assert (w' = snd (RevokeAccess alice "a" "bob" shared)) as Hw'
    by (by rewrite Hrun).
  exists w'. split; [done|]. split; [by rewrite Hload|].
  destruct (Hrevoked bob "b"
              (GetAccessStruct (KDF (Argon2 "password" "alice") "aliceabob")
                 (KDFb (Argon2 "password" "alice") (Rand 20)))
              (KDFb (Argon2 "password" "alice") (Rand 14)))
    as (Hb1 & Hb2 & Hb3).
  { split; [discriminate|]. stored_here. }
  { reflexivity. }
  { stored_here. }
  { reflexivity. }
  { left. reflexivity. }
  destruct (Hrevoked charles "c"
              (GetAccessStruct (KDF (Argon2 "password" "bob") "bobbcharles")
                 (KDFb (Argon2 "password" "bob") (Rand 25)))
              (KDFb (Argon2 "password" "alice") (Rand 14)))
    as (Hc1 & _).
  { split; [discriminate|]. stored_here. }
  { reflexivity. }
  { stored_here. }
  { reflexivity. }
  { right. vm_compute. reflexivity. }
  split; [done|]. split; [done|]. split; [done|].
  apply (Hb3 "charles" 6 4); [|discriminate|reflexivity].
  rewrite Hw'. vm_compute. reflexivity.
Defined.

(** ** The revoked Invitation *)

(** The resolution of a sharee's Access reads one Datastore slot, that
    of the Invitation the Access names. *)
Lemma GetMetaUUIDAndSourceKey_frame av w w' r :
  IsOwner av = false →
  datastore w' !! InvitationUUID av = datastore w !! InvitationUUID av →
  GetMetaUUIDAndSourceKey av w = (Ok r, w) →
  GetMetaUUIDAndSourceKey av w' = (Ok r, w').
Proof.
  intros Ho Heq. unfold GetMetaUUIDAndSourceKey. rewrite Ho. cbn.
  destruct (GetTwoHASHKDFKeys (InvitationSourcekey av) ENCRYPT MAC)
    as [[ek hk]| | |]; mgo; try discriminate.
  destruct (datastore w !! InvitationUUID av) as [v|]; mgo;
    [|discriminate].
  repeat (mcase; mgo; try discriminate). by intros [= <-].
Qed.

(** C5, amended. A successful A.RevokeAccess(F, B) does not rewrite or
    delete the Invitation at B's invitationUUID: the value stored there is
    what it was, and the resolution of an Access that names it still
    passes the MAC check on it and returns what it returned before.  It is
    the Metadata that is sealed again, in its place, under a source key
    drawn during the revocation, so the MAC check of the Metadata fails
    under every key drawn before, the one B's Invitation holds among
    them. *)
Theorem revoked_invitation_untouched (A : User) (F B : string) (w : World)
    (a : Access) (m : Meta) (blocks : list (bytes * File))
    (L : gmap bytes bytes) (kB : bytes)
    (Hfresh : rng_fresh w)
    (Hfile : owner_file w A F a m blocks L)
    (Hlisted : L !! KDF (sourceKey A) (Username A +:+ F +:+ B) = Some kB) :
  let invB := KDF (sourceKey A) (Username A +:+ F +:+ B) in
  ∃ w',
    RevokeAccess A F B w = (Ok (), w')
    ∧ is_Some (datastore w !! invB)
    ∧ datastore w' !! invB = datastore w !! invB
    ∧ (∀ aB r, IsOwner aB = false → InvitationUUID aB = invB →
               GetMetaUUIDAndSourceKey aB w = (Ok r, w) →
               GetMetaUUIDAndSourceKey aB w' = (Ok r, w'))
    ∧ stored (datastore w') (MetaUUID a)
        (KDFb (sourceKey A) (Rand (4 + rng w)))
        (JMeta (revoked_meta A (rng w)))
    ∧ (∀ k0 msg tag,
         key_old (rng w) k0 = true →
         datastore w' !! MetaUUID a = Some (Packed msg tag) →
         ∃ e, CheckTag msg tag (KDF k0 MAC) = Err e).
Proof.
  intros invB. set (L' := delete invB L).
  assert (∀ i k, L' !! i = Some k → L !! i = Some k) as Hsub.
  { intros i k Hi. by apply lookup_delete_Some in Hi as [_ Hi]. }
  pose proof (RevokeAccess_run w A F B a m blocks L kB Hfresh Hfile Hlisted)
    as Hrun. fold invB in Hrun. fold L' in Hrun.
  set (w' := revoke_world w A F a (contents blocks) L') in *.
  destruct (of_invitations _ _ _ _ _ _ _ Hfile _ _ Hlisted) as (inv & Hst).
  fold invB in Hst.
  assert (datastore w' !! invB = datastore w !! invB) as Hsame.
  { eapply (revoke_lookup_frame w A F a m blocks L L'); eauto.
    apply lookup_delete_eq. }
  pose proof (revoke_meta_stored w A F a m blocks L L' Hfile Hsub) as Hm'.
  fold w' in Hm'.
  exists w'. split; [done|]. split; [by eapply stored_is_Some|].
  split; [done|]. split; [|split; [done|]].
  - intros aB r Ho Hi. apply GetMetaUUIDAndSourceKey_frame; [done|].
    by rewrite Hi.
  - intros k0 msg tag Hold Hv. destruct Hm' as (_ & iv & Hv').
    rewrite Hv' in Hv. injection Hv as <- <-.
    apply CheckTag_other. intros [= Heq].
    eapply (key_old_fresh (rng w) k0 (sourceKey A) (4 + rng w)); [done|lia|].
    by rewrite <- Heq.
Qed.

(** C5, as stated, fails: after alice has revoked bob, the value at
    bob's invitationUUID is the one that was there before, and the
    resolution of bob's Access passes the MAC check on it, returning the
    UUID of the Metadata and the key the Invitation holds. *)
Lemma revoked_invitation_still_verifies :
  let w' := snd (RevokeAccess alice "a" "bob" shared) in
  let invB := KDF (Argon2 "password" "alice") "aliceabob" in
  let kB := KDFb (Argon2 "password" "alice") (Rand 20) in
  fst (RevokeAccess alice "a" "bob" shared) = Ok ()
  ∧ is_Some (datastore w' !! invB)
  ∧ datastore w' !! invB = datastore shared !! invB
  ∧ fst (GetMetaUUIDAndSourceKey (GetAccessStruct invB kB) w')
    = Ok (Uuid 13, KDFb (Argon2 "password" "alice") (Rand 14)).
Proof.
  cbv zeta. split; [vm_compute; reflexivity|].
  split; [vm_compute; eexists; reflexivity|].
  split; vm_compute; reflexivity.
Qed.

Lemma revoked_invitation_untouched_witness :
  let invB := KDF (Argon2 "password" "alice") "aliceabob" in
  ∃ w',
    RevokeAccess alice "a" "bob" shared = (Ok (), w')
    ∧ datastore w' !! invB = datastore shared !! invB
    ∧ stored (datastore w') (Uuid 13)
        (KDFb (Argon2 "password" "alice") (Rand 33))
        (JMeta (revoked_meta alice 29)).
Proof.
  destruct (revoked_invitation_untouched alice "a" "bob" shared shared_access
              shared_meta [(Uuid 9, mkFile hello (Uuid 11))] shared_list
              (KDFb (Argon2 "password" "alice") (Rand 20))
              rng_fresh_shared owner_file_shared eq_refl)
    as (w' & Hrun & _ & Hsame & _ & Hmeta & _).
  exists w'. split; [done|]. split; [done|]. exact Hmeta.
Defined.

(** * A revocation that fails *)

(** RevokeAccess for a recipient who is not in the Invitation List has,
    by the time it finds that out, written the contents to a new block
    and sealed the Metadata under a new key; the owner's Access still
    holds the old key. *)
Lemma RevokeAccess_unlisted_run w u F R a m blocks L :
  rng_fresh w →
  owner_file w u F a m blocks L →
  L !! KDF (sourceKey u) (Username u +:+ F +:+ R) = None →
  RevokeAccess u F R w
  = (Err "filename was not shared with recipientUsername",
     mkWorld (rekeyed_store w u a (contents blocks)) (keystore w)
       (6 + rng w)).
Proof.
  intros Hf [Ha Ho Hfile Hlist Hinv] HR.
  assert (LoadFile u F w = (Ok (contents blocks), w)) as Hload.
  { eapply LoadFile_run; [done| |done]. unfold resolves. by rewrite Ho. }
  destruct Ha as (Hn & _ & iva & Ha).
  destruct Hfile as ((Hmk & ivm & Hm) & Hfk & Hc).
  destruct Hlist as (Hlk & ivl & Hl).
  assert (InvitationList_ a ≠ Uuid (rng w)) as Hne1.
  { intros Heq. rewrite Heq, Hf in Hl; done. }
  assert (InvitationList_ a ≠ MetaUUID a) as Hne2.
  { intros Heq. rewrite Heq in Hl. rewrite Hm in Hl. by injection Hl. }
  unfold RevokeAccess. mgo. rewrite Ho. mgo.
  unfold GetMetaUUIDAndSourceKey. rewrite Ho. mgo.
  rewrite Hload. mgo. unfold uuid_New. mgo. reflexivity.
Qed.

Lemma RevokeAccess_unlisted_breaks_owner w u F R a m blocks L :
  rng_fresh w →
  owner_file w u F a m blocks L →
  key_old (rng w) (MetaSourcekey a) = true →
  L !! KDF (sourceKey u) (Username u +:+ F +:+ R) = None →
  ∃ e w',
    RevokeAccess u F R w = (Err e, w')
    ∧ LoadFile u F w = (Ok (contents blocks), w)
    ∧ ∃ e', LoadFile u F w' = (Err e', w').
Proof.
  intros Hf Hfile Hold HR.
  eexists _, _. split; [by eapply RevokeAccess_unlisted_run|].
  destruct Hfile as [Ha Ho Hfi Hlist Hinv]. split.
  { eapply LoadFile_run; [done| |done]. unfold resolves. by rewrite Ho. }
  destruct Hfi as (Hm & _). destruct Ha as [Hn Ha].
  assert (MetaUUID a ≠ KDF (sourceKey u) F) by (eapply stored_ne; eauto).
  assert (Uuid (rng w) ≠ KDF (sourceKey u) F) by discriminate.
  eapply (LoadFile_stale _ u F a (MetaUUID a) (MetaSourcekey a)).
  - split; [done|]. cbn. unfold rekeyed_store.
    apply stored_insert_ne; [done|]. by apply stored_insert_ne.
  - unfold resolves. by rewrite Ho.
  - cbn. unfold rekeyed_store. by apply stored_insert.
  - eapply key_old_fresh; [done|lia].
Qed.

(** C4, the failing input: charles never received an invitation from
    alice.  alice.RevokeAccess("a", "charles") returns the error of the
    claim, but the Datastore is not what it was: a block has been written
    at a new UUID and the Metadata (at Uuid 13) has been replaced.  alice,
    who could load the file before the call, cannot load it after, and
    neither can bob, whose access was not revoked. *)
Lemma failed_revocation_loses_the_file :
  let r := RevokeAccess alice "a" "charles" shared in
  fst r = Err "filename was not shared with recipientUsername"
  ∧ datastore shared !! Uuid 29 = None
  ∧ is_Some (datastore (snd r) !! Uuid 29)
  ∧ datastore (snd r) !! Uuid 13 ≠ datastore shared !! Uuid 13
  ∧ fst (LoadFile alice "a" shared) = Ok hello
  ∧ fst (LoadFile bob "b" shared) = Ok hello
  ∧ fst (LoadFile alice "a" (snd r))
    = Err "integrity check failed: Meta struct has been tampered with"
  ∧ fst (LoadFile bob "b" (snd r))
    = Err "integrity check failed: Meta struct has been tampered with".
Proof.
  cbv zeta. split; [vm_compute; reflexivity|].
  split; [vm_compute; reflexivity|].
  split; [vm_compute; eexists; reflexivity|].
  split; [vm_compute; discriminate|].
  repeat split; vm_compute; reflexivity.
Qed.

(** * Sealing and opening *)

Lemma CheckTag_wrong_key msg k k' :
  k' ≠ k → k' ≠ Nil → CheckTag msg (TagHMAC k msg) k' = Err "integrity check failed".
Proof.
  intros Hne Hk'. unfold CheckTag, HMACEqual, HMACEval.
  destruct k'; try done; cbn; rewrite bool_decide_eq_false_2; try done; congruence.
Qed.

Lemma CheckTag_wrong_msg msg msg' k :
  msg' ≠ msg → k ≠ Nil → CheckTag msg' (TagHMAC k msg) k = Err "integrity check failed".
Proof.
  intros Hne Hk. unfold CheckTag, HMACEqual, HMACEval.
  destruct k; try done; cbn; rewrite bool_decide_eq_false_2; try done; congruence.
Qed.

Lemma CheckTag_wrong_tag msg tag k :
  tag ≠ TagHMAC k msg → k ≠ Nil → CheckTag msg tag k = Err "integrity check failed".
Proof.
  intros Hne Hk. unfold CheckTag, HMACEqual, HMACEval.
  destruct k; try done; cbn; rewrite bool_decide_eq_false_2; try done; congruence.
Qed.

(** What EncryptThenMac returns under the two keys of a source key, and
    how it opens. *)
Lemma EncryptThenMac_open {A} `{JSON A} (txt : A) k w :
  k ≠ Nil →
  ∃ msg tag,
    EncryptThenMac txt (KDF k ENCRYPT) (KDF k MAC) w = (Ok (msg, tag), bump w)
    ∧ (GenerateUUIDVal msg tag ≫= UnpackValue) = Ok (msg, tag)
    ∧ CheckTag msg tag (KDF k MAC) = Ok ()
    ∧ SymDec (KDF k ENCRYPT) msg = Some (to_json txt)
    ∧ (∀ k', k' ≠ k →
         CheckTag msg tag (KDF k' MAC) = Err "integrity check failed")
    ∧ (∀ msg', msg' ≠ msg →
         CheckTag msg' tag (KDF k MAC) = Err "integrity check failed")
    ∧ (∀ tag', tag' ≠ tag →
         CheckTag msg tag' (KDF k MAC) = Err "integrity check failed").
Proof.
  intros Hk. eexists _, _. split; [apply EncryptThenMac_run|].
  split; [reflexivity|]. split; [apply CheckTag_seal|].
  split; [apply SymDec_same|]. split; [|split].
  - intros k' Hne. apply CheckTag_wrong_key; [congruence|discriminate].
  - intros msg' Hne. by apply CheckTag_wrong_msg.
  - intros tag' Hne. by apply CheckTag_wrong_tag.
Qed.

(** X1. Sealing and opening are inverse: what EncryptThenMac makes of a
    record under the two keys GetTwoHASHKDFKeys derives from a source key
    packs and unpacks as it is, passes CheckTag under the MAC key and
    decrypts, with the Decrypt function of its type, to the record; it
    fails CheckTag under the key of every other source key, and every
    other ciphertext or tag fails CheckTag with it.  A User comes back
    without its sourceKey, which json.Marshal does not write. *)
Theorem seal_open_roundtrip (k ek hk : bytes) (w : World)
    (Hkeys : GetTwoHASHKDFKeys k ENCRYPT MAC = Ok (ek, hk)) :
  (∀ f : File, opens w k ek hk f DecryptFileMsg f)
  ∧ (∀ a : Access, opens w k ek hk a DecryptAccessMsg a)
  ∧ (∀ a : Access, EncryptThenMacAccess a ek hk w = EncryptThenMac a ek hk w)
  ∧ (∀ m : Meta, opens w k ek hk m DecryptMetaMsg m)
  ∧ (∀ i : Invitation, opens w k ek hk i DecryptInvitationMsg i)
  ∧ (∀ l : InvitationList, opens w k ek hk l DecryptInvitationListMsg l)
  ∧ (∀ im : InvitationMeta, opens w k ek hk im DecryptInvitationMetaMsg im)
  ∧ (∀ u : User,
       opens w k ek hk u (λ msg ek, json_Unmarshal (SymDec ek msg))
         (mkUser (Username u) (RSAkey u) (Sigkey u) Nil)).
Proof.
  apply GetTwoHASHKDFKeys_inv in Hkeys as (Hk & -> & ->). unfold opens.
  assert (∀ A (J : JSON A) (txt : A) decrypt back,
            (∀ msg, decrypt msg (KDF k ENCRYPT)
                    = json_Unmarshal (SymDec (KDF k ENCRYPT) msg)) →
            json_Unmarshal (Some (to_json txt)) = Ok back →
            ∃ msg tag,
              EncryptThenMac txt (KDF k ENCRYPT) (KDF k MAC) w
              = (Ok (msg, tag), bump w)
              ∧ (GenerateUUIDVal msg tag ≫= UnpackValue) = Ok (msg, tag)
              ∧ CheckTag msg tag (KDF k MAC) = Ok ()
              ∧ decrypt msg (KDF k ENCRYPT) = Ok back
              ∧ (∀ k' ek' hk',
                   GetTwoHASHKDFKeys k' ENCRYPT MAC = Ok (ek', hk') →
                   k' ≠ k → CheckTag msg tag hk' = Err "integrity check failed")
              ∧ (∀ msg', msg' ≠ msg →
                   CheckTag msg' tag (KDF k MAC) = Err "integrity check failed")
              ∧ (∀ tag', tag' ≠ tag →
                   CheckTag msg tag' (KDF k MAC) = Err "integrity check failed"))
    as Hopen.
  { intros A J txt decrypt back Hdec Hback.
    destruct (EncryptThenMac_open txt k w Hk)
      as (msg & tag & Hrun & Hpack & Htag & Hsym & Hkey & Hmsg & Htg).
    exists msg, tag. split; [done|]. split; [done|]. split; [done|].
    split; [by rewrite Hdec, Hsym|]. split; [|done].
    intros k' ek' hk' Hk' Hne.
    apply GetTwoHASHKDFKeys_inv in Hk' as (_ & _ & ->). by apply Hkey. }
  repeat apply conj; try (intros; by apply Hopen).
  - intros a. reflexivity.
  - intros u.
    by apply (Hopen User _ u (λ msg ek, json_Unmarshal (SymDec ek msg))).
Qed.

Lemma seal_open_roundtrip_witness :
  ∃ msg tag,
    EncryptThenMac (mkFile hello (Uuid 1)) (KDF (Rand 0) ENCRYPT)
      (KDF (Rand 0) MAC) emptyWorld = (Ok (msg, tag), bump emptyWorld)
    ∧ CheckTag msg tag (KDF (Rand 0) MAC) = Ok ()
    ∧ DecryptFileMsg msg (KDF (Rand 0) ENCRYPT) = Ok (mkFile hello (Uuid 1)).
Proof.
  destruct (seal_open_roundtrip (Rand 0) _ _ emptyWorld eq_refl) as (H & _).
  destruct (H (mkFile hello (Uuid 1))) as (msg & tag & H1 & _ & H2 & H3 & _).
  exists msg, tag. exact (conj H1 (conj H2 H3)).
Defined.

(** X2. Signing and opening an Invitation-Pointer: what EncryptThenSign
    makes for a registered recipient with the sender's signing key passes
    CheckSignature for the sender and decrypts, with the recipient's
    private key, to the InvitationMeta; it does not decrypt with any other
    private key, and CheckSignature fails for a sender whose published key
    is another one, or who has none.  EncryptThenSign fails, without
    effect, for a recipient with no published key. *)
Theorem sign_open_roundtrip (im : InvitationMeta) (recipient sender : string)
    (n s : nat) (w : World)
    (Hpk : keystore w !! (recipient +:+ " public key") = Some (PKEPub n))
    (Hvk : keystore w !! (sender +:+ " signature key") = Some (DSPub s)) :
  (∃ msg sig,
     EncryptThenSign im recipient (DSPriv s) w = (Ok (msg, sig), w)
     ∧ CheckSignature msg sig sender w = (Ok (), w)
     ∧ DecryptAsynchMsg msg (PKEPriv n) = Ok im
     ∧ (∀ n', n' ≠ n →
          DecryptAsynchMsg msg (PKEPriv n') = Err "DECRYPTION FAILED")
     ∧ (∀ other s',
          keystore w !! (other +:+ " signature key") = Some (DSPub s') →
          s' ≠ s →
          CheckSignature msg sig other w
          = (Err "crypto/rsa: verification error", w))
     ∧ (∀ other,
          keystore w !! (other +:+ " signature key") = None →
          CheckSignature msg sig other w = (Err "could not get sign key", w)))
  ∧ (∀ other sk,
       keystore w !! (other +:+ " public key") = None →
       EncryptThenSign im other sk w = (Err "KEYSTOREGET FAILED", w)).
Proof.
  split.
  - eexists _, _. unfold EncryptThenSign, CheckSignature.
    split; [mgo; reflexivity|]. split.
    { mgo. unfold DSVerify. by rewrite decide_True. }
    split.
    { unfold DecryptAsynchMsg. cbn. rewrite decide_True by done. reflexivity. }
    split.
    { intros n' Hne. unfold DecryptAsynchMsg. cbn.
      by rewrite decide_False. }
    split.
    + intros other s' Hother Hne. mgo. unfold DSVerify.
      rewrite decide_False; [done|]. congruence.
    + intros other Hother. mgo. reflexivity.
  - intros other sk Hother. unfold EncryptThenSign. mgo. reflexivity.
Qed.

Lemma sign_open_roundtrip_witness :
  ∃ msg sig,
    EncryptThenSign (mkInvitationMeta (Uuid 7) (Rand 8)) "bob" (DSPriv 1)
      two_users = (Ok (msg, sig), two_users)
    ∧ CheckSignature msg sig "alice" two_users = (Ok (), two_users)
    ∧ DecryptAsynchMsg msg (PKEPriv 3)
      = Ok (mkInvitationMeta (Uuid 7) (Rand 8)).
Proof.
  destruct (sign_open_roundtrip (mkInvitationMeta (Uuid 7) (Rand 8))
              "bob" "alice" 3 1 two_users eq_refl eq_refl)
    as ((msg & sig & H1 & H2 & H3 & _) & _).
  exists msg, sig. exact (conj H1 (conj H2 H3)).
Defined.

(** X3. A block written by AddFileToDatabase reads back: with a 16-byte
    file key the call draws the UUID of the next block, writes one value,
    at the UUID it was given, and returns the UUID drawn;
    UnpackCheckTagAndDecryptFile then returns, from that slot and under
    the keys of the file key, the content and that UUID, and fails under
    the keys of any other file key.  With an empty file key the call
    fails after it has drawn the UUID, and writes nothing. *)
Theorem AddFileToDatabase_roundtrip (fileUUID : UUID) (content : list byte)
    (w : World) :
  (∀ k, k ≠ Nil →
     ∃ w',
       AddFileToDatabase fileUUID k content w = (Ok (Uuid (rng w)), w')
       ∧ (∀ uuid, uuid ≠ fileUUID →
            datastore w' !! uuid = datastore w !! uuid)
       ∧ keystore w' = keystore w
       ∧ UnpackCheckTagAndDecryptFile fileUUID (KDF k ENCRYPT) (KDF k MAC) w'
         = (Ok (mkFile content (Uuid (rng w))), w')
       ∧ (∀ k', k' ≠ k →
            UnpackCheckTagAndDecryptFile fileUUID (KDF k' ENCRYPT)
              (KDF k' MAC) w'
            = (Err "integrity check failed: File has unauthorized modifications",
               w')))
  ∧ AddFileToDatabase fileUUID Nil content w
    = (Err "failed to get keys", bump w).
Proof.
  split; [|reflexivity].
  intros k Hk. eexists. split; [by apply AddFileToDatabase_run|].
  split; [intros uuid Hne; cbn; by rewrite lookup_insert_ne|].
  split; [done|]. unfold UnpackCheckTagAndDecryptFile, DecryptFileMsg, Seal.
  split; [mgo; reflexivity|].
  intros k' Hne. mgo.
  rewrite CheckTag_wrong_key; [done|congruence|discriminate].
Qed.

Lemma AddFileToDatabase_roundtrip_witness :
  ∃ w',
    AddFileToDatabase (Uuid 0) (Rand 1) hello (mkWorld ∅ ∅ 2) = (Ok (Uuid 2), w')
    ∧ UnpackCheckTagAndDecryptFile (Uuid 0) (KDF (Rand 1) ENCRYPT)
        (KDF (Rand 1) MAC) w'
      = (Ok (mkFile hello (Uuid 2)), w').
Proof.
  destruct (AddFileToDatabase_roundtrip (Uuid 0) hello (mkWorld ∅ ∅ 2))
    as (H & _).
  destruct (H (Rand 1)) as (w' & H1 & _ & _ & H2 & _); [discriminate|].
  by exists w'.
Defined.

(** X4. The source key of an Access record is its Datastore key:
    GetAccessKey and GetAccessUUID return the same 16 bytes, so the two
    keys that seal the record are derived from the UUID it is stored at.
    Whatever Access a user holds opens, from the Datastore entry alone,
    with the keys GetTwoHASHKDFKeys derives from the entry's key. *)
Theorem access_key_is_access_uuid (u : User) (F : string) :
  (∀ k, GetAccessKey (sourceKey u) F = Ok k → GetAccessUUID u F = Ok k)
  ∧ (∀ uuid, GetAccessUUID u F = Ok uuid →
             GetAccessKey (sourceKey u) F = Ok uuid)
  ∧ (∀ ds a, has_access ds u F a →
       ∃ uuid msg tag ek hk,
         GetAccessUUID u F = Ok uuid
         ∧ ds !! uuid = Some (Packed msg tag)
         ∧ GetTwoHASHKDFKeys uuid ENCRYPT MAC = Ok (ek, hk)
         ∧ CheckTag msg tag hk = Ok ()
         ∧ DecryptAccessMsg msg ek = Ok a).
Proof.
  split; [|split].
  - intros k. destruct (decide (sourceKey u = Nil)) as [Hn|Hn].
    + rewrite Hn. discriminate.
    + by rewrite GetAccessKey_ok, GetAccessUUID_ok.
  - intros uuid. destruct (decide (sourceKey u = Nil)) as [Hn|Hn].
    + by rewrite GetAccessUUID_Nil.
    + by rewrite GetAccessKey_ok, GetAccessUUID_ok.
  - intros ds a (Hn & _ & iv & Hv).
    eexists _, _, _, _, _. split; [by apply GetAccessUUID_ok|].
    split; [exact Hv|]. split; [by apply GetTwoHASHKDFKeys_ok|].
    split; [apply CheckTag_seal|]. unfold DecryptAccessMsg.
    by rewrite SymDec_same.
Qed.

Lemma access_key_is_access_uuid_witness :
  ∃ uuid msg tag ek hk,
    GetAccessUUID alice "a" = Ok uuid
    ∧ datastore with_file !! uuid = Some (Packed msg tag)
    ∧ GetTwoHASHKDFKeys uuid ENCRYPT MAC = Ok (ek, hk)
    ∧ CheckTag msg tag hk = Ok ()
    ∧ DecryptAccessMsg msg ek = Ok (new_file_access alice 6).
Proof.
  destruct (access_key_is_access_uuid alice "a") as (_ & _ & H).
  apply (H (datastore with_file)).
  split; [discriminate|]. split; [discriminate|]. eexists. vm_compute. reflexivity.
Defined.

(** * Calls that are refused *)

(** X5. A session without a root key (a User that did not come from
    InitUser or GetUser): StoreFile, LoadFile, AppendToFile,
    AcceptInvitation and RevokeAccess fail at once and leave the world as
    it was, for GetAccessUUID returns the error of HashKDF; GetAccessKey,
    GetRandomKey and GetInvitationSourceKey, which slice the output of
    HashKDF before they look at its error, panic on the same key.
    CreateInvitation, for a registered recipient other than the caller,
    returns the nil UUID and no error. *)
Theorem calls_without_root_key (u : User) (F : string) (w : World)
    (Hnil : sourceKey u = Nil) :
  (∀ c, StoreFile u F c w = (Err "failed to get accessUUID", w))
  ∧ LoadFile u F w = (Err "failed to get accessUUID", w)
  ∧ (∀ c, AppendToFile u F c w = (Err "failed to get access UUID sourcekey", w))
  ∧ (∀ sender token,
       AcceptInvitation u sender token F w = (Err "could not get access uuid", w))
  ∧ (∀ R, RevokeAccess u F R w = (Err "failed to get access sourcekey", w))
  ∧ (∀ R, is_Some (keystore w !! (R +:+ " public key")) → R ≠ Username u →
          CreateInvitation u F R w = (Ok Nil, w))
  ∧ GetAccessKey (sourceKey u) F = Panic "slice bounds out of range"
  ∧ GetRandomKey u w = (Panic "slice bounds out of range", bump w)
  ∧ (∀ name, GetInvitationSourceKey (sourceKey u) name F
             = Panic "slice bounds out of range").
Proof.
  unfold StoreFile, LoadFile, AppendToFile, AcceptInvitation, RevokeAccess,
    CreateInvitation, GetAccessKey, GetRandomKey, GetInvitationSourceKey.
  rewrite (GetAccessUUID_Nil u F Hnil), Hnil.
  repeat apply conj; try reflexivity.
  intros R [pk Hpk] Hne. mgo. by rewrite decide_False.
Qed.

Lemma calls_without_root_key_witness :
  LoadFile (mkUser "alice" ZeroPriv ZeroPriv Nil) "a" with_file
  = (Err "failed to get accessUUID", with_file)
  ∧ CreateInvitation (mkUser "alice" ZeroPriv ZeroPriv Nil) "a" "bob" with_file
    = (Ok Nil, with_file).
Proof.
  destruct (calls_without_root_key (mkUser "alice" ZeroPriv ZeroPriv Nil)
              "a" with_file eq_refl) as (_ & H1 & _ & _ & _ & H2 & _).
  split; [exact H1|]. apply H2; [|discriminate]. vm_compute. eauto.
Defined.

(** X6. A filename the user has no Access for: LoadFile, AppendToFile
    and RevokeAccess fail and leave the world as it was. *)
Theorem missing_file_is_refused (u : User) (F : string) (w : World)
    (Hmissing : ∃ accessUUID, GetAccessUUID u F = Ok accessUUID
                              ∧ datastore w !! accessUUID = None) :
  LoadFile u F w = (Err "file does not exist in user namespace", w)
  ∧ (∀ c, AppendToFile u F c w
          = (Err "File does not exist in user namespace", w))
  ∧ (∀ R, RevokeAccess u F R w
          = (Err "file does not exist in user namespace", w)).
Proof.
  destruct Hmissing as (accessUUID & Hu & Hfree).
  unfold LoadFile, AppendToFile, RevokeAccess. rewrite Hu.
  repeat apply conj; intros; mgo; reflexivity.
Qed.

Lemma missing_file_is_refused_witness :
  LoadFile alice "b" with_file
  = (Err "file does not exist in user namespace", with_file).
Proof.
  destruct (missing_file_is_refused alice "b" with_file) as (H & _); [|exact H].
  exists (KDF (Argon2 "password" "alice") "b"). split; vm_compute; reflexivity.
Defined.

(** X7. Only the owner revokes: RevokeAccess by a user whose Access for
    the filename is a sharee's fails, whoever the recipient, and leaves
    the world as it was. *)
Theorem RevokeAccess_by_sharee (u : User) (F R : string) (w : World)
    (a : Access)
    (Haccess : has_access (datastore w) u F a)
    (Hsharee : IsOwner a = false) :
  RevokeAccess u F R w = (Err "only the owner can revoke access", w).
Proof.
  destruct Haccess as (Hn & _ & iv & Hv).
  unfold RevokeAccess. mgo. rewrite Hsharee. reflexivity.
Qed.

(** A stale key: the Metadata does not open, StoreFile fails like LoadFile
    and AppendToFile, and nothing is written. *)
Lemma StoreFile_stale w v G av mu k0 mk m content :
  has_access (datastore w) v G av →
  resolves (datastore w) av mu k0 →
  stored (datastore w) mu mk (JMeta m) →
  k0 ≠ mk →
  ∃ e, StoreFile v G content w = (Err e, w).
Proof.
  intros (Hn & _ & iva & Ha) Hr (Hmk & ivm & Hm) Hne.
  unfold StoreFile. mgo. rewrite (GetMetaUUIDAndSourceKey_run _ _ _ _ Hr). mgo.
  destruct (decide (k0 = Nil)) as [->|Hk0].
  { rewrite GetTwoHASHKDFKeys_Nil. mgo. eexists. reflexivity. }
  mgo.
  match goal with
  | |- context [CheckTag ?msg ?tag ?key] =>
      destruct (CheckTag_other msg tag key) as [e He];
      [intros [=]; congruence | rewrite He]
  end.
  mgo. eexists. reflexivity.
Qed.

Lemma RevokeAccess_by_sharee_witness :
  RevokeAccess bob "b" "charles" shared
  = (Err "only the owner can revoke access", shared).
Proof.
  apply (RevokeAccess_by_sharee bob "b" "charles" shared
           (GetAccessStruct (KDF (Argon2 "password" "alice") "aliceabob")
              (KDFb (Argon2 "password" "alice") (Rand 20)))).
  - split; [discriminate|]. stored_here.
  - reflexivity.
Defined.

Lemma DSVerify_cases vk msg sig :
  DSVerify vk msg sig = Ok () ∨ ∃ e, DSVerify vk msg sig = Err e.
Proof. unfold DSVerify. destruct vk; [eauto|]. case_decide; eauto. Qed.

Lemma DecryptAsynchMsg_cases msg dk :
  (∃ im, DecryptAsynchMsg msg dk = Ok im) ∨ ∃ e, DecryptAsynchMsg msg dk = Err e.
Proof.
  unfold DecryptAsynchMsg, PKEDec.
  destruct dk as [|n|n]; cbn; eauto.
  destruct msg as [k iv p|n' p|raw]; cbn; eauto.
  case_decide; cbn; eauto.
  destruct p as [[]|]; cbn; eauto.
Qed.

(** X8. What AcceptInvitation refuses, each time leaving the world as it
    was: a filename the recipient already uses; a token at which nothing
    is stored, or something that does not unpack; a sender with no
    published verification key; a pointer the sender's key does not
    verify; a pointer that does not decrypt with the recipient's key; a
    pointer whose Invitation is not in the Datastore, or does not pass
    the MAC check under the key the pointer carries. *)
Theorem AcceptInvitation_refuses (u : User) (sender : string) (token : UUID)
    (F : string) (w : World) (accessUUID : UUID)
    (Hroot : GetAccessUUID u F = Ok accessUUID) :
  let refused msg :=
    AcceptInvitation u sender token F w = (Err msg, w) in
  (is_Some (datastore w !! accessUUID) →
   refused "recipient already has a file with the chosen filename")
  ∧ (datastore w !! accessUUID = None →
     datastore w !! token = None →
     refused "no invitation meta")
  ∧ (∀ raw,
       datastore w !! accessUUID = None →
       datastore w !! token = Some (RawValue raw) →
       refused "failed to unpack invitation data")
  ∧ (∀ msg sig,
       datastore w !! accessUUID = None →
       datastore w !! token = Some (Packed msg sig) →
       keystore w !! (sender +:+ " signature key") = None →
       refused "failed to verify invitation signature")
  ∧ (∀ msg sig vk,
       datastore w !! accessUUID = None →
       datastore w !! token = Some (Packed msg sig) →
       keystore w !! (sender +:+ " signature key") = Some vk →
       DSVerify vk msg sig ≠ Ok () →
       refused "failed to verify invitation signature")
  ∧ (∀ msg sig vk,
       datastore w !! accessUUID = None →
       datastore w !! token = Some (Packed msg sig) →
       keystore w !! (sender +:+ " signature key") = Some vk →
       DSVerify vk msg sig = Ok () →
       (∀ im, DecryptAsynchMsg msg (RSAkey u) ≠ Ok im) →
       refused "failed to decrypt invitation")
  ∧ (∀ msg sig vk im,
       datastore w !! accessUUID = None →
       datastore w !! token = Some (Packed msg sig) →
       keystore w !! (sender +:+ " signature key") = Some vk →
       DSVerify vk msg sig = Ok () →
       DecryptAsynchMsg msg (RSAkey u) = Ok im →
       datastore w !! im_InvitationUUID im = None →
       refused "invalid or missing invitation UUID")
  ∧ (∀ msg sig vk im m t,
       datastore w !! accessUUID = None →
       datastore w !! token = Some (Packed msg sig) →
       keystore w !! (sender +:+ " signature key") = Some vk →
       DSVerify vk msg sig = Ok () →
       DecryptAsynchMsg msg (RSAkey u) = Ok im →
       datastore w !! im_InvitationUUID im = Some (Packed m t) →
       im_InvitationSourcekey im ≠ Nil →
       CheckTag m t (KDF (im_InvitationSourcekey im) MAC) ≠ Ok () →
       refused "integrity check failed: invite struct has been tampered with").
Proof.
  cbv zeta. unfold AcceptInvitation, CheckSignature. rewrite Hroot.
  repeat apply conj.
  - intros [v Hv]. mgo. reflexivity.
  - intros Hfree Htok. mgo. reflexivity.
  - intros raw Hfree Htok. mgo. reflexivity.
  - intros msg sig Hfree Htok Hvk. mgo. reflexivity.
  - intros msg sig vk Hfree Htok Hvk Hsig. mgo.
    destruct (DSVerify_cases vk msg sig) as [Hd | [e Hd]]; [done|].
    rewrite Hd. reflexivity.
  - intros msg sig vk Hfree Htok Hvk Hsig Hdec. mgo. rewrite Hsig. mgo.
    destruct (DecryptAsynchMsg_cases msg (RSAkey u)) as [[im Hd] | [e Hd]];
      [by destruct (Hdec im)|].
    rewrite Hd. reflexivity.
  - intros msg sig vk im Hfree Htok Hvk Hsig Hdec Hinv. mgo. rewrite Hsig. mgo.
    rewrite Hdec. mgo. reflexivity.
  - intros msg sig vk im m t Hfree Htok Hvk Hsig Hdec Hinv Hk Htag. mgo.
    rewrite Hsig. mgo. rewrite Hdec. mgo.
    destruct (CheckTag_cases m t (KDF (im_InvitationSourcekey im) MAC))
      as [Hc | [e Hc]]; [done|].
    rewrite Hc. reflexivity.
Qed.

Lemma AcceptInvitation_refuses_witness :
  AcceptInvitation bob "alice" (Uuid 19) "b" shared
  = (Err "recipient already has a file with the chosen filename", shared)
  ∧ AcceptInvitation bob "alice" (Uuid 99) "x" shared
    = (Err "no invitation meta", shared).
Proof.
  split.
  - destruct (AcceptInvitation_refuses bob "alice" (Uuid 19) "b" shared
                _ eq_refl) as (H & _).
    apply H. vm_compute. eauto.
  - destruct (AcceptInvitation_refuses bob "alice" (Uuid 99) "x" shared
                _ eq_refl) as (_ & H & _).
    apply H; vm_compute; reflexivity.
Defined.

(** * Inviting and accepting *)

(** ** The world after CreateInvitation *)

Section Invited.
Context (w : World) (u : User) (F R : string) (a : Access) (mu mk : bytes)
        (n s : nat) (L : gmap bytes bytes).
Hypothesis Hinv : inviting w u F R a mu mk n s L.

Let inv := KDF (sourceKey u) (Username u +:+ F +:+ R).
Let ik := KDFb (sourceKey u) (Rand (rng w)).
Let token := Uuid (2 + rng w).
Let w1 := invited_world w u F R a mu mk n s L.

Lemma invited_list_old : IsOwner a = true → InvitationList_ a ≠ token.
Proof.
  intros Ho Heq. destruct Hinv as [Hf _ _ _ _ _ Hl].
  destruct (Hl Ho) as ((_ & iv & Hv) & _). rewrite Heq in Hv.
  unfold token in Hv. rewrite Hf in Hv; [done|lia].
Qed.

Lemma CreateInvitation_run :
  CreateInvitation u F R w = (Ok token, w1).
Proof.
  destruct Hinv as [Hf Hpk Hne Hs Ha Hr Hl].
  unfold w1, invited_world. destruct (IsOwner a) eqn:Ho.
  - destruct (Hl eq_refl) as (Hst & Hne1).
    eapply CreateInvitation_owner_run; eauto. by apply invited_list_old.
  - by eapply CreateInvitation_sharee_run.
Qed.

Lemma invited_lookup k :
  k ≠ inv → k ≠ token → (IsOwner a = true → k ≠ InvitationList_ a) →
  datastore w1 !! k = datastore w !! k.
Proof.
  intros H1 H2 H3. unfold w1, invited_world, invite_store, inv, token in *.
  destruct (IsOwner a); cbn [datastore].
  - rewrite lookup_insert_ne by (intros Heq; by apply H3).
    by rewrite !lookup_insert_ne by congruence.
  - by rewrite !lookup_insert_ne by congruence.
Qed.

Lemma invited_invitation :
  sourceKey u ≠ Nil ∧ stored (datastore w1) inv ik (JInvitation (mkInvitation mu mk)).
Proof.
  destruct Hinv as [Hf Hpk Hne Hs Ha Hr Hl]. destruct Ha as [Hn Ha].
  split; [done|]. split; [done|]. eexists.
  unfold w1, invited_world, invite_store. destruct (IsOwner a) eqn:Ho; cbn.
  - destruct (Hl eq_refl) as (_ & Hne1).
    rewrite lookup_insert_ne by done. rewrite lookup_insert_ne by done.
    by rewrite lookup_insert_eq.
  - rewrite lookup_insert_ne by done. by rewrite lookup_insert_eq.
Qed.

Lemma invited_pointer :
  datastore w1 !! token = Some (pointer n s inv ik).
Proof.
  unfold w1, invited_world, invite_store. destruct (IsOwner a) eqn:Ho; cbn.
  - rewrite lookup_insert_ne by (by apply invited_list_old).
    by rewrite lookup_insert_eq.
  - by rewrite lookup_insert_eq.
Qed.

Lemma invited_keystore : keystore w1 = keystore w.
Proof. unfold w1, invited_world. by destruct (IsOwner a). Qed.

Lemma invited_rng : rng w < rng w1 ∧ rng w1 ≤ 4 + rng w.
Proof. unfold w1, invited_world. destruct (IsOwner a); cbn; lia. Qed.

Lemma invited_fresh : rng_fresh w1.
Proof.
  intros k Hk. destruct invited_rng as [Hlt _].
  rewrite invited_lookup.
  - apply (inv_fresh _ _ _ _ _ _ _ _ _ _ Hinv). lia.
  - done.
  - unfold token. intros [=]. unfold w1, invited_world in Hk.
    destruct (IsOwner a); cbn in Hk; lia.
  - intros Ho Heq. destruct (inv_list _ _ _ _ _ _ _ _ _ _ Hinv Ho) as ((_ & iv & Hv) & _).
    rewrite <- Heq in Hv. rewrite (inv_fresh _ _ _ _ _ _ _ _ _ _ Hinv) in Hv; [done|lia].
Qed.

End Invited.

(** ** Frames by lookup *)

Lemma stored_frame ds ds' uuid k j :
  ds' !! uuid = ds !! uuid → stored ds uuid k j → stored ds' uuid k j.
Proof. intros Heq (Hk & iv & Hv). split; [done|]. exists iv. congruence. Qed.

Lemma chain_frame ds ds' fk last blocks :
  ∀ cur, (∀ k, k ∈ blocks.*1 → ds' !! k = ds !! k) →
         chain ds fk cur last blocks → chain ds' fk cur last blocks.
Proof.
  induction blocks as [|[b f] rest IH]; intros cur Hsame; cbn; [done|].
  intros (-> & Hne & [iv Hv] & Hc). split; [done|]. split; [done|]. split.
  - exists iv. rewrite Hsame; [done|]. cbn. apply elem_of_cons. by left.
  - apply IH; [|done]. intros k Hk. apply Hsame. cbn. apply elem_of_cons. by right.
Qed.

Lemma file_ok_frame w w' mu mk m blocks :
  file_ok w mu mk m blocks →
  (∀ k, k = mu ∨ k = Last m ∨ k ∈ blocks.*1 →
        datastore w' !! k = datastore w !! k) →
  rng w ≤ rng w' →
  file_ok w' mu mk m blocks.
Proof.
  intros ((Hm & Hfk & Hc) & Hfree & Hold) Hsame Hrng.
  split; [split; [|split; [done|]]|split].
  - eapply stored_frame; [|done]. apply Hsame. by left.
  - eapply chain_frame; [|done]. intros k Hk. apply Hsame. by right; right.
  - rewrite Hsame; [done|]. by right; left.
  - intros n Hn. apply Hold. lia.
Qed.

Lemma reaches_frame ds ds' u F a mu mk :
  has_access ds u F a → resolves ds a mu mk →
  ds' !! KDF (sourceKey u) F = ds !! KDF (sourceKey u) F →
  (IsOwner a = false → ds' !! InvitationUUID a = ds !! InvitationUUID a) →
  has_access ds' u F a ∧ resolves ds' a mu mk.
Proof.
  intros [Hn Ha] Hr H1 H2. split.
  - split; [done|]. by eapply stored_frame.
  - unfold resolves in *. destruct (IsOwner a); [done|].
    eapply stored_frame; [|done]. by apply H2.
Qed.

Section Shared.
Context (w : World) (u v : User) (F G : string) (a : Access)
        (mu mk : bytes) (m : Meta) (blocks : list (bytes * File))
        (n s : nat) (L : gmap bytes bytes).
Hypothesis Hsh : sharing w u v F G a mu mk m blocks n s L.

Let inv := KDF (sourceKey u) (Username u +:+ F +:+ Username v).
Let ik := KDFb (sourceKey u) (Rand (rng w)).
Let token := Uuid (2 + rng w).
Let w1 := invited_world w u F (Username v) a mu mk n s L.
Let w2 := accepted_world w1 v G inv ik.

Lemma shared_written k kk j :
  stored (datastore w) k kk j → (∀ l, j ≠ JInvitationList l) →
  k ≠ inv ∧ k ≠ token ∧ (IsOwner a = true → k ≠ InvitationList_ a)
  ∧ k ≠ KDF (sourceKey v) G.
Proof.
  intros Hst Hj. destruct Hsh as [Hinv _ _ _ _ _ Hfree Hifree _].
  pose proof (stored_is_Some _ _ _ _ Hst) as [x Hx].
  split; [intros ->; unfold inv in Hx; congruence|].
  split.
  { intros ->. unfold token in Hx.
    rewrite (inv_fresh _ _ _ _ _ _ _ _ _ _ Hinv) in Hx; [done|lia]. }
  split; [|intros ->; congruence].
  intros Ho. destruct (inv_list _ _ _ _ _ _ _ _ _ _ Hinv Ho) as (Hl & _).
  eapply stored_ne; eauto.
Qed.

Lemma shared_name_free1 : datastore w1 !! KDF (sourceKey v) G = None.
Proof.
  destruct Hsh as [Hinv _ _ _ _ _ Hfree Hifree Hslots].
  unfold w1. rewrite invited_lookup; [done|done|done|].
  intros Ho Heq. destruct (inv_list _ _ _ _ _ _ _ _ _ _ Hinv Ho) as ((_ & iv & Hv) & _).
  congruence.
Qed.

Lemma shared_lookup k :
  k ≠ inv → k ≠ token → (IsOwner a = true → k ≠ InvitationList_ a) →
  k ≠ KDF (sourceKey v) G →
  datastore w2 !! k = datastore w !! k.
Proof.
  intros H1 H2 H3 H4. unfold w2, accepted_world. cbn [datastore].
  rewrite lookup_insert_ne by done.
  by apply invited_lookup.
Qed.

Lemma shared_stored k kk j :
  stored (datastore w) k kk j → (∀ l, j ≠ JInvitationList l) →
  datastore w2 !! k = datastore w !! k.
Proof.
  intros Hst Hj. destruct (shared_written _ _ _ Hst Hj) as (H1 & H2 & H3 & H4).
  by apply shared_lookup.
Qed.

Lemma AcceptInvitation_shared :
  AcceptInvitation v (Username u) token G w1 = (Ok (), w2).
Proof.
  pose proof (sh_inviting _ _ _ _ _ _ _ _ _ _ _ _ _ Hsh) as Hinv.
  destruct (invited_invitation _ _ _ _ _ _ _ _ _ _ Hinv) as (Hn & _ & iv & Hv).
  eapply (AcceptInvitation_run v (Username u) token G w1 _ _ (DSPub s)
            (mkInvitationMeta inv ik)).
  - apply (sh_root _ _ _ _ _ _ _ _ _ _ _ _ _ Hsh).
  - apply shared_name_free1.
  - apply (invited_pointer _ _ _ _ _ _ _ _ _ _ Hinv).
  - unfold w1. rewrite invited_keystore. apply (sh_sender _ _ _ _ _ _ _ _ _ _ _ _ _ Hsh).
  - unfold DSVerify. by rewrite decide_True.
  - rewrite (sh_key _ _ _ _ _ _ _ _ _ _ _ _ _ Hsh). unfold DecryptAsynchMsg. cbn.
    by rewrite decide_True.
  - exact Hv.
  - apply CheckTag_seal.
  - discriminate.
Qed.

Lemma shared_recipient : reaches (datastore w2) v G mu mk.
Proof.
  pose proof (sh_inviting _ _ _ _ _ _ _ _ _ _ _ _ _ Hsh) as Hinv.
  destruct (invited_invitation _ _ _ _ _ _ _ _ _ _ Hinv) as (Hn & Hst).
  pose proof (sh_root _ _ _ _ _ _ _ _ _ _ _ _ _ Hsh) as Hv.
  exists (mkAccess Nil Nil inv ik Nil Nil false). split.
  - split; [done|]. unfold w2, accepted_world. cbn [datastore].
    by apply stored_insert.
  - unfold resolves. cbn. unfold w2, accepted_world. cbn [datastore].
    apply stored_insert_ne; [|done].
    apply (sh_slots _ _ _ _ _ _ _ _ _ _ _ _ _ Hsh).
Qed.

Lemma shared_rng : rng w < rng w2 ∧ rng w2 ≤ 5 + rng w.
Proof.
  pose proof (invited_rng w u F (Username v) a mu mk n s L) as [H1 H2].
  unfold w2, accepted_world, w1. cbn [rng]. lia.
Qed.

Lemma shared_file_ok : file_ok w2 mu mk m blocks.
Proof.
  pose proof (sh_file _ _ _ _ _ _ _ _ _ _ _ _ _ Hsh) as Hok.
  pose proof (sh_inviting _ _ _ _ _ _ _ _ _ _ _ _ _ Hsh) as Hinv.
  eapply file_ok_frame; [done| |destruct shared_rng; lia].
  destruct Hok as ((Hm & Hfk & Hc) & Hfree & Hold).
  intros k [-> | [-> | Hk]].
  - eapply shared_stored; [done|]. discriminate.
  - destruct (sh_last _ _ _ _ _ _ _ _ _ _ _ _ _ Hsh) as [j Hj].
    apply shared_lookup.
    + rewrite Hj. discriminate.
    + apply Hold. lia.
    + intros Ho Heq.
      destruct (inv_list _ _ _ _ _ _ _ _ _ _ Hinv Ho) as ((_ & iv & Hv) & _).
      congruence.
    + rewrite Hj. discriminate.
  - destruct (chain_blocks_stored _ _ _ _ _ _ Hfk Hc Hk) as [f Hf].
    eapply shared_stored; [done|]. discriminate.
Qed.

Lemma shared_fresh : rng_fresh w2.
Proof.
  pose proof (sh_inviting _ _ _ _ _ _ _ _ _ _ _ _ _ Hsh) as Hinv.
  intros j Hj. unfold w2, accepted_world in *. cbn [datastore rng] in *.
  rewrite lookup_insert_ne by discriminate.
  apply (invited_fresh _ _ _ _ _ _ _ _ _ _ Hinv). fold w1. lia.
Qed.

(** Whoever reached a file before the two calls reaches it after. *)
Lemma shared_reaches x H mu2 mk2 :
  reaches (datastore w) x H mu2 mk2 → reaches (datastore w2) x H mu2 mk2.
Proof.
  intros (ax & Hax & Hrx). exists ax.
  eapply reaches_frame; [done|done| |].
  - destruct Hax as [_ Hst]. eapply shared_stored; [done|]. discriminate.
  - intros Ho. unfold resolves in Hrx. rewrite Ho in Hrx.
    eapply shared_stored; [done|]. discriminate.
Qed.

End Shared.

(** What one user appends or stores, another who reaches the same
    Metadata reads. *)
Lemma AppendToFile_then_load w x H y K c mu mk m blocks :
  rng_fresh w → file_ok w mu mk m blocks →
  reaches (datastore w) x H mu mk → reaches (datastore w) y K mu mk →
  AppendToFile x H c w = (Ok (), append_world w mu mk m c)
  ∧ LoadFile y K (append_world w mu mk m c)
    = (Ok (contents blocks ++ c), append_world w mu mk m c).
Proof.
  intros Hf Hok Hx Hy. split; [by eapply AppendToFile_spec|].
  destruct (append_file_ok _ _ _ _ _ c Hf Hok) as (_ & Hok3).
  erewrite LoadFile_spec; [|by eapply append_reaches|exact Hok3].
  rewrite contents_app. unfold contents at 2. cbn. by rewrite app_nil_r.
Qed.

Lemma StoreFile_then_load w x H y K c mu mk m blocks :
  rng_fresh w → file_ok w mu mk m blocks →
  reaches (datastore w) x H mu mk → reaches (datastore w) y K mu mk →
  StoreFile x H c w = (Ok (), overwrite_world w mu mk m c)
  ∧ LoadFile y K (overwrite_world w mu mk m c)
    = (Ok c, overwrite_world w mu mk m c).
Proof.
  intros Hf Hok (ax & Hax & Hrx) Hy. split.
  { destruct Hok as ((Hm & Hfk & _) & _). by eapply StoreFile_overwrite_run. }
  destruct (overwrite_file_ok _ _ _ _ _ c Hf Hok) as (_ & Hok3).
  erewrite LoadFile_spec; [|by eapply overwrite_reaches|exact Hok3].
  unfold contents. cbn. by rewrite app_nil_r.
Qed.

(** X9. Sharing round trip: when a user who resolves a well-formed file
    invites a registered user for the first time under this filename, and
    that user accepts under a free name, both calls succeed and the
    recipient's LoadFile returns what the inviter's returns; what the
    recipient appends or stores under its name the inviter reads under
    its own; and whoever reached a file before the two calls reaches it
    after. *)
Theorem share_accept_load (w : World) (u v : User) (F G : string)
    (a : Access) (mu mk : bytes) (m : Meta) (blocks : list (bytes * File))
    (n s : nat) (L : gmap bytes bytes)
    (Hsh : sharing w u v F G a mu mk m blocks n s L) :
  ∃ token w1 w2,
    CreateInvitation u F (Username v) w = (Ok token, w1)
    ∧ AcceptInvitation v (Username u) token G w1 = (Ok (), w2)
    ∧ LoadFile u F w = (Ok (contents blocks), w)
    ∧ LoadFile v G w2 = (Ok (contents blocks), w2)
    ∧ LoadFile u F w2 = (Ok (contents blocks), w2)
    ∧ (∀ c, ∃ w3,
         AppendToFile v G c w2 = (Ok (), w3)
         ∧ LoadFile u F w3 = (Ok (contents blocks ++ c), w3)
         ∧ LoadFile v G w3 = (Ok (contents blocks ++ c), w3))
    ∧ (∀ c, ∃ w3,
         StoreFile v G c w2 = (Ok (), w3)
         ∧ LoadFile u F w3 = (Ok c, w3)
         ∧ LoadFile v G w3 = (Ok c, w3))
    ∧ (∀ x H mu2 mk2, reaches (datastore w) x H mu2 mk2 →
                      reaches (datastore w2) x H mu2 mk2).
Proof.
  pose proof (sh_inviting _ _ _ _ _ _ _ _ _ _ _ _ _ Hsh) as Hinv.
  pose proof (sh_file _ _ _ _ _ _ _ _ _ _ _ _ _ Hsh) as Hok.
  pose proof (shared_file_ok _ _ _ _ _ _ _ _ _ _ _ _ _ Hsh) as Hok2.
  pose proof (shared_fresh _ _ _ _ _ _ _ _ _ _ _ _ _ Hsh) as Hf2.
  pose proof (shared_recipient _ _ _ _ _ _ _ _ _ _ _ _ _ Hsh) as Hv2.
  assert (reaches (datastore w) u F mu mk) as Hu.
  { exists a. split; [apply (inv_access _ _ _ _ _ _ _ _ _ _ Hinv)|].
    apply (inv_resolves _ _ _ _ _ _ _ _ _ _ Hinv). }
  pose proof (shared_reaches _ _ _ _ _ _ _ _ _ _ _ _ _ Hsh _ _ _ _ Hu) as Hu2.
  eexists _, _, _.
  split; [by apply CreateInvitation_run|].
  split; [apply (AcceptInvitation_shared _ _ _ _ _ _ _ _ _ _ _ _ _ Hsh)|].
  split; [by eapply LoadFile_spec|].
  split; [by eapply LoadFile_spec|].
  split; [by eapply LoadFile_spec|].
  split; [|split].
  - intros c. eexists.
    destruct (AppendToFile_then_load _ v G u F c _ _ _ _ Hf2 Hok2 Hv2 Hu2)
      as (Happ & Hload).
    destruct (AppendToFile_then_load _ v G v G c _ _ _ _ Hf2 Hok2 Hv2 Hv2)
      as (_ & Hload').
    split; [exact Happ|]. by split.
  - intros c. eexists.
    destruct (StoreFile_then_load _ v G u F c _ _ _ _ Hf2 Hok2 Hv2 Hu2)
      as (Hst & Hload).
    destruct (StoreFile_then_load _ v G v G c _ _ _ _ Hf2 Hok2 Hv2 Hv2)
      as (_ & Hload').
    split; [exact Hst|]. by split.
  - intros x H mu2 mk2. apply (shared_reaches _ _ _ _ _ _ _ _ _ _ _ _ _ Hsh).
Qed.

Lemma sharing_with_file :
  sharing with_file alice bob "a" "b" (new_file_access alice 6)
    (Uuid 10) (KDFb (Argon2 "password" "alice") (Rand 11))
    (new_file_meta alice 6) [(Uuid 6, mkFile hello (Uuid 8))] 3 1 ∅.
Proof.
  assert (rng two_users = 6) as Hrng by (vm_compute; reflexivity).
  destruct (create_file_ok two_users alice "a" hello) as (Hf & Ha & Hok).
  { discriminate. }
  { vm_compute. reflexivity. }
  { apply can_store_two_users. }
  rewrite <- with_file_eq, Hrng in *.
  split; try (vm_compute; reflexivity); try discriminate; [|done|by exists 8].
  split; try (vm_compute; reflexivity); try discriminate; try done.
  intros _. split; [|discriminate].
  rewrite with_file_eq. apply create_list_stored. discriminate.
Qed.

Lemma share_accept_load_witness :
  ∃ token w1 w2,
    CreateInvitation alice "a" "bob" with_file = (Ok token, w1)
    ∧ AcceptInvitation bob "alice" token "b" w1 = (Ok (), w2)
    ∧ LoadFile bob "b" w2 = (Ok hello, w2).
Proof.
  destruct (share_accept_load _ _ _ _ _ _ _ _ _ _ _ _ _ sharing_with_file)
    as (token & w1 & w2 & H1 & H2 & _ & H3 & _).
  exists token, w1, w2. split; [exact H1|]. split; [exact H2|]. exact H3.
Defined.

(** X10. An invitation is bound to its recipient and to its sender: the
    token CreateInvitation returns is accepted neither by a user whose
    private key is not the recipient's nor as coming from a sender whose
    published verification key is not the inviter's, or who has none;
    these calls fail and leave the world as it was. *)
Theorem invitation_is_bound (w : World) (u : User) (F R : string)
    (a : Access) (mu mk : bytes) (n s : nat) (L : gmap bytes bytes)
    (Hinv : inviting w u F R a mu mk n s L) :
  ∃ token w1,
    CreateInvitation u F R w = (Ok token, w1)
    ∧ (∀ x sender G,
         (∃ accessUUID, GetAccessUUID x G = Ok accessUUID
                        ∧ datastore w1 !! accessUUID = None) →
         (keystore w1 !! (sender +:+ " signature key") = Some (DSPub s) →
          RSAkey x ≠ PKEPriv n →
          AcceptInvitation x sender token G w1
          = (Err "failed to decrypt invitation", w1))
         ∧ ((∀ vk, keystore w1 !! (sender +:+ " signature key") = Some vk →
                   vk ≠ DSPub s) →
            AcceptInvitation x sender token G w1
            = (Err "failed to verify invitation signature", w1))).
Proof.
  eexists _, _. split; [by apply CreateInvitation_run|].
  intros x sender G (accessUUID & Hu & Hfree).
  pose proof (invited_pointer _ _ _ _ _ _ _ _ _ _ Hinv) as Hp.
  unfold pointer in Hp. cbn in Hp.
  unfold AcceptInvitation, CheckSignature. rewrite Hu. split.
  - intros Hvk Hkey. mgo. unfold DSVerify.
    rewrite decide_True by done. mgo. unfold DecryptAsynchMsg.
    destruct (RSAkey x) as [|n'|n'] eqn:Hrsa; cbn; try reflexivity.
    rewrite decide_False by congruence. reflexivity.
  - intros Hvk. mgo.
    destruct (keystore _ !! (sender +:+ " signature key")) as [vk|] eqn:Hk;
      mgo; [|reflexivity].
    specialize (Hvk vk eq_refl). unfold DSVerify.
    destruct vk as [n'|s']; [reflexivity|].
    rewrite decide_False; [reflexivity|]. congruence.
Qed.

Lemma inviting_with_file :
  inviting with_file alice "a" "bob" (new_file_access alice 6)
    (Uuid 10) (KDFb (Argon2 "password" "alice") (Rand 11)) 3 1 ∅.
Proof. apply sharing_with_file. Qed.

Lemma invitation_is_bound_witness :
  ∃ token w1,
    CreateInvitation alice "a" "bob" with_file = (Ok token, w1)
    ∧ AcceptInvitation alice "alice" token "x" w1
      = (Err "failed to decrypt invitation", w1)
    ∧ AcceptInvitation bob "bob" token "b" w1
      = (Err "failed to verify invitation signature", w1).
Proof.
  destruct (invitation_is_bound _ _ _ _ _ _ _ _ _ _ inviting_with_file)
    as (token & w1 & Hrun & H).
  assert (w1 = snd (CreateInvitation alice "a" "bob" with_file)) as Hw1
    by (by rewrite Hrun).
  exists token, w1. split; [exact Hrun|]. split.
  - apply (H alice "alice" "x").
    + exists (KDF (Argon2 "password" "alice") "x"). split; [reflexivity|].
      rewrite Hw1. vm_compute. reflexivity.
    + rewrite Hw1. vm_compute. reflexivity.
    + discriminate.
  - apply (H bob "bob" "b").
    + exists (KDF (Argon2 "password" "bob") "b"). split; [reflexivity|].
      rewrite Hw1. vm_compute. reflexivity.
    + intros vk. rewrite Hw1. vm_compute. intros [= <-]. discriminate.
Defined.

(** * Slots that collide *)

(** A sharee whose Access names an Invitation that has since been sealed
    again under another key: the Access opens, the Invitation does not. *)
Lemma stale_invitation w x G ax knew j :
  has_access (datastore w) x G ax → IsOwner ax = false →
  InvitationSourcekey ax ≠ Nil →
  stored (datastore w) (InvitationUUID ax) knew j →
  InvitationSourcekey ax ≠ knew →
  LoadFile x G w = (Err "could not get Meta UUID and soucekey", w)
  ∧ (∀ c, AppendToFile x G c w
          = (Err "could not get Meta UUID and soucekey", w))
  ∧ (∀ c, StoreFile x G c w
          = (Err "could not get Meta UUID and sourcekey", w)).
Proof.
  intros (Hn & _ & iva & Ha) Ho Hnil (Hk & iv & Hv) Hne.
  assert (GetMetaUUIDAndSourceKey ax w
          = (Err "integrity check failed: Invitation struct has unauthorized modifications",
             w)) as Hres.
  { unfold GetMetaUUIDAndSourceKey. rewrite Ho. cbn. mgo. unfold Seal. mgo.
    rewrite CheckTag_wrong_key; [done|congruence|discriminate]. }
  unfold LoadFile, AppendToFile, StoreFile.
  repeat apply conj; intros; mgo; rewrite Hres; reflexivity.
Qed.

(** X11. The slot of an Invitation is derived from the concatenation of
    the inviter's name, the filename and the recipient's name, so two
    invitations of one inviter whose filename and recipient concatenate
    to the same string share a slot, the same pair invited again among
    them.  CreateInvitation then seals a new Invitation, under a new key,
    over the old one: a user who had accepted the old one, and read the
    file through it, fails on LoadFile, AppendToFile and StoreFile, with
    nothing written. *)
Theorem invitation_slots_collide (w : World) (u : User) (F R F0 R0 : string)
    (a : Access) (mu mk : bytes) (n s : nat) (L : gmap bytes bytes)
    (Hinv : inviting w u F R a mu mk n s L)
    (Hsame : F0 +:+ R0 = F +:+ R) :
  GetInvitationUUID u R0 F0 = GetInvitationUUID u R F
  ∧ ∃ token w1,
      CreateInvitation u F R w = (Ok token, w1)
      ∧ ∀ x G ax mu0 mk0,
          has_access (datastore w) x G ax → IsOwner ax = false →
          InvitationUUID ax = KDF (sourceKey u) (Username u +:+ F0 +:+ R0) →
          resolves (datastore w) ax mu0 mk0 →
          key_old (rng w) (InvitationSourcekey ax) = true →
          LoadFile x G w1 = (Err "could not get Meta UUID and soucekey", w1)
          ∧ (∀ c, AppendToFile x G c w1
                  = (Err "could not get Meta UUID and soucekey", w1))
          ∧ (∀ c, StoreFile x G c w1
                  = (Err "could not get Meta UUID and sourcekey", w1)).
Proof.
  split.
  { unfold GetInvitationUUID. by rewrite Hsame. }
  eexists _, _. split; [by apply CreateInvitation_run|].
  intros x G ax mu0 mk0 Hax Ho Hslot Hres Hold.
  unfold resolves in Hres. rewrite Ho in Hres. rewrite Hslot, Hsame in *.
  destruct (invited_invitation _ _ _ _ _ _ _ _ _ _ Hinv) as (Hn & Hst).
  pose proof (inv_fresh _ _ _ _ _ _ _ _ _ _ Hinv) as Hf.
  eapply stale_invitation.
  - destruct Hax as [Hnx Hstx]. split; [done|].
    eapply stored_frame; [|done]. apply invited_lookup.
    + eapply stored_ne; eauto; discriminate.
    + intros Heq. destruct Hstx as (_ & iv & Hv). rewrite Heq in Hv.
      rewrite Hf in Hv; [done|lia].
    + intros Hown. destruct (inv_list _ _ _ _ _ _ _ _ _ _ Hinv Hown) as (Hl & _).
      eapply stored_ne; eauto; discriminate.
  - done.
  - by destruct Hres.
  - rewrite Hslot. exact Hst.
  - eapply key_old_fresh; [done|lia].
Qed.

Lemma inviting_again :
  inviting accepted alice "a" "bob" (new_file_access alice 6)
    (Uuid 10) (KDFb (Argon2 "password" "alice") (Rand 11)) 3 1
    {[ KDF (Argon2 "password" "alice") "aliceabob"
       := KDFb (Argon2 "password" "alice") (Rand 17) ]}.
Proof.
  split.
  - apply rng_fresh_check. refine (bool_decide_unpack _ _). vm_compute. exact I.
  - vm_compute. reflexivity.
  - discriminate.
  - reflexivity.
  - split; [discriminate|]. stored_here.
  - by split.
  - intros _. split; [stored_here|discriminate].
Qed.

Lemma invitation_slots_collide_witness :
  LoadFile bob "b" accepted = (Ok hello, accepted)
  ∧ ∃ token w1,
      CreateInvitation alice "a" "bob" accepted = (Ok token, w1)
      ∧ LoadFile bob "b" w1
        = (Err "could not get Meta UUID and soucekey", w1).
Proof.
  split; [vm_compute; reflexivity|].
  destruct (invitation_slots_collide _ _ _ _ "a" "bob" _ _ _ _ _ _
              inviting_again eq_refl) as (_ & token & w1 & Hrun & H).
  exists token, w1. split; [exact Hrun|].
  destruct (H bob "b"
              (GetAccessStruct (KDF (Argon2 "password" "alice") "aliceabob")
                 (KDFb (Argon2 "password" "alice") (Rand 17)))
              (Uuid 10) (KDFb (Argon2 "password" "alice") (Rand 11)))
    as (Hload & _); [| | | | |exact Hload].
  - split; [discriminate|]. stored_here.
  - reflexivity.
  - reflexivity.
  - stored_here.
  - reflexivity.
Defined.

(** X12. The slot of an Invitation is drawn from the same key as the
    slots of the inviter's own Access records: CreateInvitation for a
    filename and a recipient writes the Invitation into the Access slot of
    the inviter's filename that is the concatenation of its username, the
    filename and the recipient.  After the call that name of the inviter
    fails on LoadFile, AppendToFile and StoreFile, whatever file it led
    to before. *)
Theorem invitation_overwrites_access (w : World) (u : User) (F R : string)
    (a : Access) (mu mk : bytes) (n s : nat) (L : gmap bytes bytes)
    (Hinv : inviting w u F R a mu mk n s L) :
  let G := Username u +:+ F +:+ R in
  GetInvitationUUID u R F = GetAccessUUID u G
  ∧ (∀ mu2 mk2 m2 blocks2,
       reaches (datastore w) u G mu2 mk2 → file_ok w mu2 mk2 m2 blocks2 →
       LoadFile u G w = (Ok (contents blocks2), w))
  ∧ ∃ token w1,
      CreateInvitation u F R w = (Ok token, w1)
      ∧ LoadFile u G w1
        = (Err "integrity check failed: Access Struct has been tampered with", w1)
      ∧ (∀ c, AppendToFile u G c w1
              = (Err "integrity check failed: Access Struct has been tampered with",
                 w1))
      ∧ (∀ c, StoreFile u G c w1
              = (Err "integrity check failed: Access Struct has been tampered with",
                 w1)).
Proof.
  intros G. destruct (invited_invitation _ _ _ _ _ _ _ _ _ _ Hinv)
    as (Hn & _ & iv & Hv).
  split; [by rewrite GetInvitationUUID_ok, GetAccessUUID_ok|].
  split; [intros; by eapply LoadFile_spec|].
  eexists _, _. split; [by apply CreateInvitation_run|].
  fold G in Hv. unfold Seal in Hv.
  unfold LoadFile, AppendToFile, StoreFile.
  repeat apply conj; intros; mgo;
    (rewrite CheckTag_wrong_key; [reflexivity|discriminate|discriminate]).
Qed.

Lemma inviting_two_files :
  inviting two_files alice "a" "bob" (new_file_access alice 6)
    (Uuid 10) (KDFb (Argon2 "password" "alice") (Rand 11)) 3 1 ∅.
Proof.
  split.
  - apply rng_fresh_check. refine (bool_decide_unpack _ _). vm_compute. exact I.
  - vm_compute. reflexivity.
  - discriminate.
  - reflexivity.
  - split; [discriminate|]. stored_here.
  - by split.
  - intros _. split; [stored_here|discriminate].
Qed.

Lemma invitation_overwrites_access_witness :
  LoadFile alice "aliceabob" two_files = (Ok hello, two_files)
  ∧ ∃ token w1,
      CreateInvitation alice "a" "bob" two_files = (Ok token, w1)
      ∧ LoadFile alice "aliceabob" w1
        = (Err "integrity check failed: Access Struct has been tampered with", w1).
Proof.
  split; [vm_compute; reflexivity|].
  destruct (invitation_overwrites_access _ _ _ _ _ _ _ _ _ _ inviting_two_files)
    as (_ & _ & token & w1 & Hrun & Hload & _).
  exists token, w1. exact (conj Hrun Hload).
Defined.

(** * The owner's file, kept well-formed *)

Lemma key_old_mono r r' k : key_old r k = true → r ≤ r' → key_old r' k = true.
Proof.
  intros Hk Hr. induction k as [| |k IH p|k IHk p IHp|j|j]; cbn in *; try done.
  - by apply IH.
  - apply andb_true_iff in Hk as [H1 H2]. apply andb_true_iff. split; auto.
  - apply Nat.ltb_lt in Hk. apply Nat.ltb_lt. lia.
  - apply Nat.ltb_lt in Hk. apply Nat.ltb_lt. lia.
Qed.

Lemma create_owner_file w u F content :
  sourceKey u ≠ Nil → datastore w !! KDF (sourceKey u) F = None →
  rng_fresh w →
  owner_file (create_world w u F content) u F (new_file_access u (rng w))
    (new_file_meta u (rng w))
    [(Uuid (rng w), mkFile content (Uuid (2 + rng w)))] ∅.
Proof.
  intros Hn Hfree Hf.
  destruct (create_file_ok w u F content Hn Hfree Hf) as (_ & Ha & Hfile & _).
  split; [done|done|exact Hfile|by apply create_list_stored|].
  intros i k Hi. by rewrite lookup_empty in Hi.
Qed.

Lemma revoke_owner_file w u F a m blocks L L' :
  rng_fresh w → owner_file w u F a m blocks L →
  (∀ i k, L' !! i = Some k → L !! i = Some k) →
  owner_file (revoke_world w u F a (contents blocks) L') u F
    (revoked_access u a (rng w)) (revoked_meta u (rng w))
    [(Uuid (rng w), mkFile (contents blocks) (Uuid (2 + rng w)))] L'.
Proof.
  intros Hf Hfile Hsub.
  destruct (revoke_file_ok w u F a m blocks L L' Hf Hfile Hsub) as (_ & Hok & _).
  split.
  - apply (revoke_access w u F a m blocks L L' Hfile).
  - cbn. apply (of_owner _ _ _ _ _ _ _ Hfile).
  - exact Hok.
  - apply (revoke_list_stored w u F a m blocks L L' Hfile).
  - intros i k Hi. eexists.
    apply (revoke_invitation w u F a m blocks L L' Hfile Hsub _ _ Hi).
Qed.

Section SharedByOwner.
Context (w : World) (u v : User) (F G : string) (a : Access)
        (m : Meta) (blocks : list (bytes * File))
        (n s : nat) (L : gmap bytes bytes).
Hypothesis Hsh :
  sharing w u v F G a (MetaUUID a) (MetaSourcekey a) m blocks n s L.
Hypothesis Hfile : owner_file w u F a m blocks L.

Let inv := KDF (sourceKey u) (Username u +:+ F +:+ Username v).
Let ik := KDFb (sourceKey u) (Rand (rng w)).
Let w1 := invited_world w u F (Username v) a (MetaUUID a) (MetaSourcekey a)
            n s L.
Let w2 := accepted_world w1 v G inv ik.

Lemma shared_owner_file : owner_file w2 u F a m blocks (<[inv := ik]> L).
Proof.
  pose proof (sh_inviting _ _ _ _ _ _ _ _ _ _ _ _ _ Hsh) as Hinv.
  pose proof (shared_file_ok _ _ _ _ _ _ _ _ _ _ _ _ _ Hsh) as (Hfi & _).
  pose proof (of_owner _ _ _ _ _ _ _ Hfile) as Ho.
  split.
  - destruct (of_access _ _ _ _ _ _ _ Hfile) as [Hn Hst]. split; [done|].
    eapply stored_frame; [|done].
    eapply (shared_stored _ _ _ _ _ _ _ _ _ _ _ _ _ Hsh); [done|discriminate].
  - done.
  - exact Hfi.
  - destruct (inv_list _ _ _ _ _ _ _ _ _ _ Hinv Ho) as ((Hlk & _) & Hne).
    split; [done|]. eexists. unfold w2, accepted_world. cbn [datastore].
    rewrite lookup_insert_ne.
    + unfold w1, invited_world. rewrite Ho. cbn [datastore].
      by rewrite lookup_insert_eq.
    + intros Heq. destruct (inv_list _ _ _ _ _ _ _ _ _ _ Hinv Ho) as ((_ & iv & Hv) & _).
      rewrite <- Heq in Hv.
      rewrite (sh_name_free _ _ _ _ _ _ _ _ _ _ _ _ _ Hsh) in Hv. done.
  - intros i k Hi. destruct (decide (i = inv)) as [->|Hne].
    + rewrite lookup_insert_eq in Hi. injection Hi as <-.
      destruct (invited_invitation _ _ _ _ _ _ _ _ _ _ Hinv) as (_ & Hst).
      eexists. unfold w2, accepted_world. cbn [datastore].
      apply stored_insert_ne; [|exact Hst].
      apply (sh_slots _ _ _ _ _ _ _ _ _ _ _ _ _ Hsh).
    + rewrite lookup_insert_ne in Hi by done.
      destruct (of_invitations _ _ _ _ _ _ _ Hfile _ _ Hi) as (j & Hst).
      exists j. eapply stored_frame; [|done].
      eapply (shared_stored _ _ _ _ _ _ _ _ _ _ _ _ _ Hsh); [done|discriminate].
Qed.

End SharedByOwner.

(** X13. The owner's Invitation List records the invitation: when the
    owner of a well-formed file invites a user who accepts, the owner's
    file is well-formed afterwards with the same Access, Metadata and
    blocks, and its Invitation List holds one more entry, the key of the
    new Invitation at its UUID; that entry is what RevokeAccess looks
    for, and the call now succeeds for the recipient. *)
Theorem owner_invitation_is_listed (w : World) (u v : User) (F G : string)
    (a : Access) (m : Meta) (blocks : list (bytes * File))
    (n s : nat) (L : gmap bytes bytes)
    (Hsh : sharing w u v F G a (MetaUUID a) (MetaSourcekey a) m blocks n s L)
    (Hfile : owner_file w u F a m blocks L) :
  ∃ token w1 w2 invitationUUID invitationSourceKey,
    CreateInvitation u F (Username v) w = (Ok token, w1)
    ∧ AcceptInvitation v (Username u) token G w1 = (Ok (), w2)
    ∧ GetInvitationUUID u (Username v) F = Ok invitationUUID
    ∧ L !! invitationUUID = None
    ∧ owner_file w2 u F a m blocks
        (<[invitationUUID := invitationSourceKey]> L)
    ∧ rng_fresh w2
    ∧ ∃ w3, RevokeAccess u F (Username v) w2 = (Ok (), w3).
Proof.
  pose proof (sh_inviting _ _ _ _ _ _ _ _ _ _ _ _ _ Hsh) as Hinv.
  pose proof (shared_owner_file _ _ _ _ _ _ _ _ _ _ _ Hsh Hfile) as Hfile2.
  pose proof (shared_fresh _ _ _ _ _ _ _ _ _ _ _ _ _ Hsh) as Hf2.
  destruct (of_access _ _ _ _ _ _ _ Hfile) as [Hn _].
  eexists _, _, _, _, _.
  split; [by apply CreateInvitation_run|].
  split; [apply (AcceptInvitation_shared _ _ _ _ _ _ _ _ _ _ _ _ _ Hsh)|].
  split; [by apply GetInvitationUUID_ok|].
  split.
  { destruct (L !! _) as [k|] eqn:Hl; [|done].
    destruct (of_invitations _ _ _ _ _ _ _ Hfile _ _ Hl) as (j & _ & iv & Hv).
    rewrite (sh_invitation_free _ _ _ _ _ _ _ _ _ _ _ _ _ Hsh) in Hv. done. }
  split; [exact Hfile2|]. split; [exact Hf2|].
  eexists. eapply RevokeAccess_run; [done|exact Hfile2|].
  apply lookup_insert_eq.
Qed.

Lemma owner_file_with_file :
  owner_file with_file alice "a" (new_file_access alice 6)
    (new_file_meta alice 6) [(Uuid 6, mkFile hello (Uuid 8))] ∅.
Proof.
  rewrite with_file_eq.
  apply (create_owner_file two_users alice "a" hello).
  - discriminate.
  - vm_compute. reflexivity.
  - apply can_store_two_users.
Qed.

Lemma owner_invitation_is_listed_witness :
  ∃ token w1 w2 w3,
    CreateInvitation alice "a" "bob" with_file = (Ok token, w1)
    ∧ AcceptInvitation bob "alice" token "b" w1 = (Ok (), w2)
    ∧ RevokeAccess alice "a" "bob" w2 = (Ok (), w3).
Proof.
  destruct (owner_invitation_is_listed _ _ _ _ _ _ _ _ _ _ _
              sharing_with_file owner_file_with_file)
    as (token & w1 & w2 & i & k & H1 & H2 & _ & _ & _ & _ & w3 & H3).
  exists token, w1, w2, w3. exact (conj H1 (conj H2 H3)).
Defined.

(** X14. Share, then revoke: the owner of a well-formed file invites a
    user who accepts and reads the file; the owner then revokes that
    user.  All three calls succeed; afterwards the owner reads the same
    contents, its file is well-formed with the Invitation List it had
    before the invitation, and the revoked user fails on LoadFile,
    AppendToFile and StoreFile under the name it accepted, with nothing
    written. *)
Theorem share_then_revoke (w : World) (u v : User) (F G : string)
    (a : Access) (m : Meta) (blocks : list (bytes * File))
    (n s : nat) (L : gmap bytes bytes)
    (Hsh : sharing w u v F G a (MetaUUID a) (MetaSourcekey a) m blocks n s L)
    (Hfile : owner_file w u F a m blocks L)
    (Hold : key_old (rng w) (MetaSourcekey a) = true) :
  ∃ token w1 w2 w3 a3 m3 blocks3,
    CreateInvitation u F (Username v) w = (Ok token, w1)
    ∧ AcceptInvitation v (Username u) token G w1 = (Ok (), w2)
    ∧ LoadFile v G w2 = (Ok (contents blocks), w2)
    ∧ RevokeAccess u F (Username v) w2 = (Ok (), w3)
    ∧ LoadFile u F w3 = (Ok (contents blocks), w3)
    ∧ owner_file w3 u F a3 m3 blocks3 L
    ∧ rng_fresh w3
    ∧ (∃ e, LoadFile v G w3 = (Err e, w3))
    ∧ (∀ c, ∃ e, AppendToFile v G c w3 = (Err e, w3))
    ∧ (∀ c, ∃ e, StoreFile v G c w3 = (Err e, w3)).
Proof.
  pose proof (sh_inviting _ _ _ _ _ _ _ _ _ _ _ _ _ Hsh) as Hinv.
  pose proof (shared_owner_file _ _ _ _ _ _ _ _ _ _ _ Hsh Hfile) as Hfile2.
  pose proof (shared_fresh _ _ _ _ _ _ _ _ _ _ _ _ _ Hsh) as Hf2.
  pose proof (shared_file_ok _ _ _ _ _ _ _ _ _ _ _ _ _ Hsh) as Hok2.
  pose proof (shared_recipient _ _ _ _ _ _ _ _ _ _ _ _ _ Hsh) as Hv2.
  pose proof (shared_rng w u v F G a (MetaUUID a) (MetaSourcekey a) n s L)
    as [Hr1 Hr2].
  set (inv := KDF (sourceKey u) (Username u +:+ F +:+ Username v)) in *.
  set (ik := KDFb (sourceKey u) (Rand (rng w))) in *.
  set (w2 := accepted_world _ v G inv ik) in *.
  assert (L !! inv = None) as Hnew.
  { destruct (L !! inv) as [k|] eqn:Hl; [|done].
    destruct (of_invitations _ _ _ _ _ _ _ Hfile _ _ Hl) as (j & _ & iv & Hv).
    unfold inv in Hv.
    rewrite (sh_invitation_free _ _ _ _ _ _ _ _ _ _ _ _ _ Hsh) in Hv. done. }
  assert (delete inv (<[inv := ik]> L) = L) as Hdel
    by (by apply delete_insert_id).
  assert (∀ i k, L !! i = Some k → (<[inv := ik]> L) !! i = Some k) as Hsub.
  { intros i k Hi. rewrite lookup_insert_ne; [done|]. congruence. }
  pose proof (RevokeAccess_run w2 u F (Username v) a m blocks _ ik Hf2 Hfile2)
    as Hrun.
  fold inv in Hrun. rewrite lookup_insert_eq, Hdel in Hrun.
  specialize (Hrun eq_refl).
  set (w3 := revoke_world w2 u F a (contents blocks) L) in *.
  destruct (revoke_file_ok w2 u F a m blocks _ L Hf2 Hfile2 Hsub)
    as (Hf3 & Hok3). fold w3 in Hf3, Hok3.
  pose proof (revoke_reaches w2 u F a m blocks _ L Hfile2) as Hu3. fold w3 in Hu3.
  pose proof (revoke_meta_stored w2 u F a m blocks _ L Hfile2 Hsub) as Hm3.
  fold w3 in Hm3.
  destruct Hv2 as (av & Hav & Hrv).
  assert (IsOwner av = false ∧ InvitationUUID av = inv) as [Hoav Hiav].
  { destruct Hav as [_ Hst].
    assert (stored (datastore w2) (KDF (sourceKey v) G) (KDF (sourceKey v) G)
              (JAccess (mkAccess Nil Nil inv ik Nil Nil false))) as Hst'.
    { split; [discriminate|]. eexists. unfold w2, accepted_world.
      cbn [datastore]. by rewrite lookup_insert_eq. }
    destruct (stored_inj _ _ _ _ _ _ Hst Hst') as [_ [= ->]]. done. }
  destruct (revoke_stale w2 u F a m blocks _ L Hf2 Hfile2 Hsub v G av _ _
              Hav Hoav Hrv) as (Hav3 & Hrv3).
  { by rewrite Hiav. }
  fold w3 in Hav3, Hrv3.
  assert (MetaSourcekey a ≠ KDFb (sourceKey u) (Rand (4 + rng w2))) as Hstale.
  { eapply key_old_fresh; [exact Hold|lia]. }
  eexists _, _, w2, w3, _, _, _.
  split; [by apply CreateInvitation_run|].
  split; [apply (AcceptInvitation_shared _ _ _ _ _ _ _ _ _ _ _ _ _ Hsh)|].
  split; [eapply LoadFile_spec; [by exists av|done]|].
  split; [exact Hrun|].
  split.
  { erewrite LoadFile_spec; [|exact Hu3|exact Hok3].
    unfold contents. cbn. by rewrite app_nil_r. }
  split; [exact (revoke_owner_file w2 u F a m blocks _ L Hf2 Hfile2 Hsub)|].
  split; [exact Hf3|].
  split; [by eapply LoadFile_stale|].
  split; intros c; [by eapply AppendToFile_stale|by eapply StoreFile_stale].
Qed.

Lemma share_then_revoke_witness :
  ∃ token w1 w2 w3,
    CreateInvitation alice "a" "bob" with_file = (Ok token, w1)
    ∧ AcceptInvitation bob "alice" token "b" w1 = (Ok (), w2)
    ∧ LoadFile bob "b" w2 = (Ok hello, w2)
    ∧ RevokeAccess alice "a" "bob" w2 = (Ok (), w3)
    ∧ LoadFile alice "a" w3 = (Ok hello, w3)
    ∧ ∃ e, LoadFile bob "b" w3 = (Err e, w3).
Proof.
  destruct (share_then_revoke _ _ _ _ _ _ _ _ _ _ _
              sharing_with_file owner_file_with_file eq_refl)
    as (token & w1 & w2 & w3 & a3 & m3 & b3
        & H1 & H2 & H3 & H4 & H5 & _ & _ & H6 & _).
  exists token, w1, w2, w3.
  exact (conj H1 (conj H2 (conj H3 (conj H4 (conj H5 H6))))).
Defined.

(** X15. RevokeAccess keeps the owner's file well-formed: after a
    successful call the Access, the Metadata, one block with the contents
    and the Invitation List without the revoked entry fit together again,
    no UUID still to be drawn is in use, and RevokeAccess for any other
    user in the list succeeds in its turn. *)
Theorem RevokeAccess_keeps_owner_file (A : User) (F B : string) (w : World)
    (a : Access) (m : Meta) (blocks : list (bytes * File))
    (L : gmap bytes bytes) (kB : bytes)
    (Hfresh : rng_fresh w)
    (Hfile : owner_file w A F a m blocks L)
    (Hlisted : L !! KDF (sourceKey A) (Username A +:+ F +:+ B) = Some kB) :
  ∃ w' a' m' blocks',
    RevokeAccess A F B w = (Ok (), w')
    ∧ rng_fresh w'
    ∧ owner_file w' A F a' m' blocks'
        (delete (KDF (sourceKey A) (Username A +:+ F +:+ B)) L)
    ∧ contents blocks' = contents blocks
    ∧ MetaUUID a' = MetaUUID a
    ∧ InvitationList_ a' = InvitationList_ a
    ∧ (∀ R k,
         L !! KDF (sourceKey A) (Username A +:+ F +:+ R) = Some k →
         Username A +:+ F +:+ R ≠ Username A +:+ F +:+ B →
         ∃ w'', RevokeAccess A F R w' = (Ok (), w'')).
Proof.
  set (invB := KDF (sourceKey A) (Username A +:+ F +:+ B)) in *.
  assert (∀ i k, delete invB L !! i = Some k → L !! i = Some k) as Hsub.
  { intros i k Hi. by apply lookup_delete_Some in Hi as [_ Hi]. }
  pose proof (revoke_owner_file w A F a m blocks L _ Hfresh Hfile Hsub) as Hfile'.
  destruct (revoke_file_ok w A F a m blocks L _ Hfresh Hfile Hsub) as (Hf' & _).
  eexists _, _, _, _. split; [by eapply RevokeAccess_run|].
  split; [exact Hf'|]. split; [exact Hfile'|].
  split; [unfold contents; cbn; by rewrite app_nil_r|].
  split; [done|]. split; [done|].
  intros R k HR Hne. eexists.
  eapply RevokeAccess_run; [exact Hf'|exact Hfile'|].
  rewrite lookup_delete_ne; [exact HR|]. unfold invB. congruence.
Qed.

Lemma RevokeAccess_keeps_owner_file_witness :
  ∃ w' a' m' blocks',
    RevokeAccess alice "a" "bob" shared = (Ok (), w')
    ∧ rng_fresh w'
    ∧ owner_file w' alice "a" a' m' blocks' ∅.
Proof.
  destruct (RevokeAccess_keeps_owner_file alice "a" "bob" shared shared_access
              shared_meta [(Uuid 9, mkFile hello (Uuid 11))] shared_list
              (KDFb (Argon2 "password" "alice") (Rand 20))
              rng_fresh_shared owner_file_shared eq_refl)
    as (w' & a' & m' & blocks' & H1 & H2 & H3 & _).
  exists w', a', m', blocks'. split; [exact H1|]. split; [exact H2|].
  unfold shared_list in H3. by rewrite delete_singleton_eq in H3.
Defined.

(** * Registration, login and the published keys *)

(** X16. The password opens the User Record and no other does: after
    InitUser on a free name, GetUser with the same password returns the
    session InitUser returned, as often as it is called, and GetUser with
    any other password fails at the MAC check; GetUser changes nothing. *)
Theorem login_needs_the_password (username password : string) (w : World)
    (Hname : username ≠ "")
    (Hfree : ∃ userUUID, GetUserUUID username = Ok userUUID
                         ∧ datastore w !! userUUID = None) :
  ∃ session w',
    InitUser username password w = (Ok session, w')
    ∧ GetUser username password w' = (Ok session, w')
    ∧ ∀ other, other ≠ password →
        GetUser username other w'
        = (Err "data integrity check failed: either wrong credentials or tampering",
           w').
Proof.
  destruct Hfree as (userUUID & [= <-] & Hfree).
  eexists _, _. split; [by apply InitUser_run|].
  split.
  { eapply GetUser_run; [done|]. cbn. by rewrite lookup_insert_eq. }
  intros other Hne. unfold GetUser, GetUserUUID, GetSourceKey, Argon2Key, Seal.
  rewrite decide_False by done. mgo.
  rewrite CheckTag_wrong_key; [reflexivity| |discriminate].
  intros [=]. done.
Qed.

Lemma login_needs_the_password_witness :
  ∃ session w',
    InitUser "alice" "password" emptyWorld = (Ok session, w')
    ∧ GetUser "alice" "password" w' = (Ok session, w')
    ∧ GetUser "alice" "Password" w'
      = (Err "data integrity check failed: either wrong credentials or tampering",
         w').
Proof.
  destruct (login_needs_the_password "alice" "password" emptyWorld)
    as (session & w' & H1 & H2 & H3).
  - discriminate.
  - exists (Argon2 "alice" "UUID"). split; reflexivity.
  - exists session, w'. split; [exact H1|]. split; [exact H2|].
    apply H3. discriminate.
Defined.

Lemma append_inj_r (p a b : string) : p +:+ a = p +:+ b → a = b.
Proof. induction p as [|c p IH]; cbn; [done|]. intros [=]. by apply IH. Qed.

Lemma lookup_keystore_put_ne k k' v ks :
  k' ≠ k → keystore_put k v ks !! k' = ks !! k'.
Proof.
  intros Hne. unfold keystore_put. destruct (ks !! k); [done|].
  by rewrite lookup_insert_ne.
Qed.

Lemma lookup_keystore_put_free k v ks :
  ks !! k = None → keystore_put k v ks !! k = Some v.
Proof.
  intros Hk. unfold keystore_put. rewrite Hk. by rewrite lookup_insert_eq.
Qed.

Lemma lookup_keystore_put_taken k v x ks :
  ks !! k = Some x → keystore_put k v ks !! k = Some x.
Proof. intros Hk. unfold keystore_put. by rewrite Hk. Qed.

(** X17. InitUser publishes the two public keys under the names
    "<username> public key" and "<username> signature key", and does not
    look at what KeystoreSet answers: on names that are free the Keystore
    gains the keys that match the session's private keys; on a name that
    is taken (the user's record has gone from the Datastore, the Keystore
    entry has not) InitUser still succeeds and the Keystore keeps the
    entry it had, so that what is then encrypted to this user by
    EncryptThenSign does not decrypt with the key of the new session. *)
Theorem InitUser_publishes_keys (username password : string) (w : World)
    (Hname : username ≠ "")
    (Hfree : ∃ userUUID, GetUserUUID username = Ok userUUID
                         ∧ datastore w !! userUUID = None) :
  ∃ session w',
    InitUser username password w = (Ok session, w')
    ∧ RSAkey session = PKEPriv (rng w)
    ∧ Sigkey session = DSPriv (S (rng w))
    ∧ (∀ name, name ≠ username +:+ " public key" →
               name ≠ username +:+ " signature key" →
               keystore w' !! name = keystore w !! name)
    ∧ (keystore w !! (username +:+ " public key") = None →
       keystore w' !! (username +:+ " public key") = Some (PKEPub (rng w)))
    ∧ (keystore w !! (username +:+ " signature key") = None →
       keystore w' !! (username +:+ " signature key")
       = Some (DSPub (S (rng w))))
    ∧ (∀ pk, keystore w !! (username +:+ " public key") = Some pk →
             keystore w' !! (username +:+ " public key") = Some pk)
    ∧ (∀ vk, keystore w !! (username +:+ " signature key") = Some vk →
             keystore w' !! (username +:+ " signature key") = Some vk)
    ∧ (∀ n im sk w1 msg sig,
         keystore w !! (username +:+ " public key") = Some (PKEPub n) →
         n ≠ rng w →
         EncryptThenSign im username sk w' = (Ok (msg, sig), w1) →
         DecryptAsynchMsg msg (RSAkey session) = Err "DECRYPTION FAILED").
Proof.
  destruct Hfree as (userUUID & [= <-] & Hfree).
  assert (username +:+ " signature key" ≠ username +:+ " public key") as Hdiff.
  { intros Heq. apply append_inj_r in Heq. discriminate. }
  eexists _, _. split; [by apply InitUser_run|]. cbn [RSAkey Sigkey keystore].
  split; [done|]. split; [done|]. split.
  { intros name H1 H2. by rewrite !lookup_keystore_put_ne. }
  split.
  { intros Hk. rewrite lookup_keystore_put_ne by done.
    by apply lookup_keystore_put_free. }
  split.
  { intros Hk. apply lookup_keystore_put_free.
    by rewrite lookup_keystore_put_ne. }
  split.
  { intros pk Hk. rewrite lookup_keystore_put_ne by done.
    by apply lookup_keystore_put_taken. }
  split.
  { intros vk Hk. eapply lookup_keystore_put_taken.
    by rewrite lookup_keystore_put_ne. }
  intros n im sk w1 msg sig Hk Hne. unfold EncryptThenSign. mgo.
  rewrite lookup_keystore_put_ne by done.
  rewrite (lookup_keystore_put_taken _ _ _ _ Hk). mgo.
  destruct (DSSign sk _) as [t| | |]; mgo; try discriminate.
  intros [= <- <- <-]. unfold DecryptAsynchMsg. cbn.
  rewrite decide_False; [done|]. congruence.
Qed.

Lemma InitUser_publishes_keys_witness :
  ∃ session w',
    InitUser "alice" "password" record_lost = (Ok session, w')
    ∧ RSAkey session = PKEPriv 3
    ∧ keystore w' !! "alice public key" = Some (PKEPub 0).
Proof.
  destruct (InitUser_publishes_keys "alice" "password" record_lost)
    as (session & w' & H1 & H2 & _ & _ & _ & _ & H3 & _).
  - discriminate.
  - exists (Argon2 "alice" "UUID"). split; reflexivity.
  - exists session, w'. split; [exact H1|]. split; [exact H2|].
    apply H3. reflexivity.
Defined.

(** * Blocks out of place *)

(** LoadFile, up to its loop. *)
Lemma LoadFile_walk u F w a mu mk m :
  has_access (datastore w) u F a →
  resolves (datastore w) a mu mk →
  stored (datastore w) mu mk (JMeta m) →
  FileSourcekey m ≠ Nil →
  LoadFile u F w
  = LoadFile_loop (S (size (datastore w))) (KDF (FileSourcekey m) ENCRYPT)
      (KDF (FileSourcekey m) MAC) (Last m) (Start m) [] w.
Proof.
  intros (Hn & _ & iva & Ha) Hr (Hmk & ivm & Hm) Hfk.
  unfold LoadFile. mgo. rewrite (GetMetaUUIDAndSourceKey_run _ _ _ _ Hr). mgo.
  unfold loadFuel. mgo. reflexivity.
Qed.

(** A block whose successor is itself. *)
Lemma LoadFile_loop_self w fk last cur iv f :
  datastore w !! cur = Some (Seal fk iv (JFile f)) → Next f = cur →
  cur ≠ last →
  ∀ fuel acc,
    LoadFile_loop fuel (KDF fk ENCRYPT) (KDF fk MAC) last cur acc w
    = (Diverges, w).
Proof.
  intros Hv Hnext Hne. induction fuel as [|fuel IH]; intros acc;
    rewrite LoadFile_loop_unfold, decide_False by done; [done|].
  unfold DecryptFileMsg, Seal in *. mgo. rewrite Hnext. apply IH.
Qed.

(** X18. The blocks of a file are sealed under one key and carry nothing
    of the slot they belong to.  When the value of the second block of a
    well-formed file is copied into the slot of the first, LoadFile
    succeeds and returns the contents without those of the first block;
    when the value of the first block is copied into the slot of the
    second, the second slot names itself as its successor and the loop of
    LoadFile does not end, whatever the number of blocks it is allowed to
    read.  Neither copy needs a key. *)
Theorem blocks_are_not_bound_to_slots (w : World) (u : User) (F : string)
    (mu mk : bytes) (m : Meta) (b1 b2 : bytes) (f1 f2 : File)
    (rest : list (bytes * File))
    (Hreach : reaches (datastore w) u F mu mk)
    (Hok : file_ok w mu mk m ((b1, f1) :: (b2, f2) :: rest)) :
  LoadFile u F w = (Ok (Contents f1 ++ contents ((b2, f2) :: rest)), w)
  ∧ LoadFile u F (copy_slot w b2 b1)
    = (Ok (contents ((b2, f2) :: rest)), copy_slot w b2 b1)
  ∧ LoadFile u F (copy_slot w b1 b2) = (Diverges, copy_slot w b1 b2)
  ∧ ∀ fuel,
      LoadFile_loop fuel (KDF (FileSourcekey m) ENCRYPT)
        (KDF (FileSourcekey m) MAC) (Last m) (Start m) [] (copy_slot w b1 b2)
      = (Diverges, copy_slot w b1 b2).
Proof.
  pose proof Hok as ((Hm & Hfk & Hc) & Hfree & Hold).
  destruct (file_ok_meta_ne _ _ _ _ _ Hok) as (_ & _ & Hmb).
  pose proof (chain_NoDup _ _ _ _ _ Hc) as Hnd. cbn in Hnd.
  apply NoDup_cons in Hnd as [Hb1 Hnd]. apply NoDup_cons in Hnd as [Hb2 Hnd].
  apply not_elem_of_cons in Hb1 as [Hb12 Hb1].
  cbn in Hmb. apply not_elem_of_cons in Hmb as [Hm1 Hmb].
  apply not_elem_of_cons in Hmb as [Hm2 Hmb].
  cbn in Hc. destruct Hc as (Hs1 & Hl1 & [iv1 Hv1] & Hs2 & Hl2 & [iv2 Hv2] & Hrest).
  rewrite <- Hs1 in Hl1, Hv1. rewrite <- Hs2 in Hl2, Hv2.
  destruct Hreach as (a & Ha & Hr).
  assert (∀ k v, k = b1 ∨ k = b2 →
            has_access (<[k:=v]> (datastore w)) u F a
            ∧ resolves (<[k:=v]> (datastore w)) a mu mk
            ∧ stored (<[k:=v]> (datastore w)) mu mk (JMeta m)) as Hframe.
  { intros k v Hk.
    assert (∃ iv f, datastore w !! k = Some (Seal (FileSourcekey m) iv (JFile f)))
      as (iv & f & Hv) by (destruct Hk as [-> | ->]; eauto).
    assert (stored (datastore w) k (FileSourcekey m) (JFile f)) as Hst
      by (split; eauto).
    assert (has_access (<[k:=v]> (datastore w)) u F a
            ∧ resolves (<[k:=v]> (datastore w)) a mu mk) as [H1 H2].
    { eapply reaches_frame; [done|done| |].
      - rewrite lookup_insert_ne; [done|]. destruct Ha as [_ Hsa].
        eapply stored_ne; eauto; discriminate.
      - intros Ho. unfold resolves in Hr. rewrite Ho in Hr.
        rewrite lookup_insert_ne; [done|]. eapply stored_ne; eauto; discriminate. }
    split; [done|]. split; [done|]. apply stored_insert_ne; [|done].
    destruct Hk as [-> | ->]; congruence. }
  split; [|split; [|split]].
  - erewrite LoadFile_spec; [|by exists a|exact Hok].
    unfold contents. cbn. reflexivity.
  - unfold copy_slot. rewrite Hv2.
    destruct (Hframe b1 (Seal (FileSourcekey m) iv2 (JFile f2))) as (Ha' & Hr' & Hm');
      [by left|].
    eapply (LoadFile_run u F _ a mu mk m ((b1, f2) :: rest)); cbn; [done|done|].
    split; [done|]. split; [done|]. cbn. rewrite <- Hs1.
    split; [done|]. split; [done|]. split.
    + exists iv2. by rewrite lookup_insert_eq.
    + by apply chain_insert.
  - unfold copy_slot. rewrite Hv1.
    destruct (Hframe b2 (Seal (FileSourcekey m) iv1 (JFile f1))) as (Ha' & Hr' & Hm');
      [by right|].
    erewrite LoadFile_walk; [|exact Ha'|exact Hr'|exact Hm'|done].
    rewrite LoadFile_loop_unfold, decide_False by congruence.
    cbn [datastore]. rewrite <- Hs1. unfold DecryptFileMsg, Seal in *. mgo.
    rewrite <- Hs2.
    eapply (LoadFile_loop_self _ (FileSourcekey m) (Last m) b2 iv1 f1);
      [|done|done].
    cbn. by rewrite lookup_insert_eq.
  - intros fuel. unfold copy_slot. rewrite Hv1.
    rewrite LoadFile_loop_unfold, decide_False by congruence.
    destruct fuel as [|fuel]; [done|].
    cbn [datastore]. rewrite <- Hs1. unfold DecryptFileMsg, Seal in *. mgo.
    rewrite <- Hs2.
    eapply (LoadFile_loop_self _ (FileSourcekey m) (Last m) b2 iv1 f1);
      [|done|done].
    cbn. by rewrite lookup_insert_eq.
Qed.

Lemma file_ok_appended :
  reaches (datastore appended) alice "a" (Uuid 7)
    (KDFb (Argon2 "password" "alice") (Rand 8))
  ∧ file_ok appended (Uuid 7) (KDFb (Argon2 "password" "alice") (Rand 8))
      (mkMeta (Uuid 3) (Uuid 14) (KDFb (Argon2 "password" "alice") (Rand 4)))
      [(Uuid 3, mkFile hello (Uuid 5)); (Uuid 5, mkFile hello (Uuid 14))].
Proof.
  split.
  - exists (new_file_access alice 3). split; [|by split].
    split; [discriminate|]. stored_here.
  - split; [split; [stored_here|split; [discriminate|]]|split].
    + cbn. repeat split; try discriminate; eexists; vm_compute; reflexivity.
    + vm_compute. reflexivity.
    + intros n Hn [=]. vm_compute in Hn. lia.
Qed.

Lemma blocks_are_not_bound_to_slots_witness :
  LoadFile alice "a" appended = (Ok (hello ++ hello), appended)
  ∧ LoadFile alice "a" (copy_slot appended (Uuid 5) (Uuid 3))
    = (Ok hello, copy_slot appended (Uuid 5) (Uuid 3))
  ∧ LoadFile alice "a" (copy_slot appended (Uuid 3) (Uuid 5))
    = (Diverges, copy_slot appended (Uuid 3) (Uuid 5)).
Proof.
  destruct file_ok_appended as (Hr & Hok).
  destruct (blocks_are_not_bound_to_slots _ _ _ _ _ _ _ _ _ _ _ Hr Hok)
    as (H1 & H2 & H3 & _).
  split; [exact H1|]. split; [exact H2|exact H3].
Defined.

(** * Files side by side *)

(** X19. Files do not disturb each other: a well-formed file reads the
    same after another file has been created by StoreFile under a free
    name, of any user, and after AppendToFile on a well-formed file with
    another Metadata; the new file, and the appended one, read as
    expected. *)
Theorem files_are_independent (w : World) (u : User) (F : string)
    (mu mk : bytes) (m : Meta) (blocks : list (bytes * File))
    (Hfresh : rng_fresh w)
    (Hreach : reaches (datastore w) u F mu mk)
    (Hok : file_ok w mu mk m blocks) :
  (∀ v G c,
     sourceKey v ≠ Nil →
     datastore w !! KDF (sourceKey v) G = None →
     Last m ≠ KDF (sourceKey v) G →
     ∃ w', StoreFile v G c w = (Ok (), w')
           ∧ LoadFile u F w' = (Ok (contents blocks), w')
           ∧ LoadFile v G w' = (Ok c, w'))
  ∧ (∀ v G c mu2 mk2 m2 blocks2,
       reaches (datastore w) v G mu2 mk2 →
       file_ok w mu2 mk2 m2 blocks2 →
       mu2 ≠ mu → Last m2 ≠ Last m →
       ∃ w', AppendToFile v G c w = (Ok (), w')
             ∧ LoadFile u F w' = (Ok (contents blocks), w')
             ∧ LoadFile v G w' = (Ok (contents blocks2 ++ c), w')).
Proof.
  pose proof Hok as ((Hm & Hfk & Hc) & Hfree & Hold).
  assert (∀ k, k = mu ∨ k ∈ blocks.*1 → ∃ kk j, stored (datastore w) k kk j
             ∧ (j = JMeta m ∨ ∃ f, j = JFile f)) as Hstored.
  { intros k [-> | Hk]; [eauto 6|].
    destruct (chain_blocks_stored _ _ _ _ _ _ Hfk Hc Hk) as [f Hf]. eauto 8. }
  split.
  - intros v G c Hv Hslot Hlast.
    destruct (create_file_ok w v G c Hv Hslot Hfresh) as (Hf1 & Ha1 & Hok1).
    exists (create_world w v G c). split; [by apply StoreFile_create_run|].
    split.
    + eapply LoadFile_spec; [by apply create_reaches|].
      eapply file_ok_frame; [exact Hok| |cbn; lia].
      assert (∀ k, uuid_old (rng w) k → k ≠ KDF (sourceKey v) G →
                datastore (create_world w v G c) !! k = datastore w !! k) as Hsame.
      { intros k Hk Hne. cbn.
        rewrite !lookup_insert_ne; [done|intros Heq; eapply Hk; [|by symmetry]; lia..|done]. }
      intros k [-> | [-> | Hk]].
      * apply Hsame; [apply rng_fresh_old; [done|by eapply stored_is_Some]|].
        intros ->. destruct Hm as (_ & iv & Hx). congruence.
      * by apply Hsame.
      * destruct (Hstored k) as (kk & j & Hst & _); [by right|].
        apply Hsame; [apply rng_fresh_old; [done|by eapply stored_is_Some]|].
        intros ->. destruct Hst as (_ & iv & Hx). congruence.
    + erewrite LoadFile_spec; [|by eexists; split; [exact Ha1|]|exact Hok1].
      unfold contents. cbn. by rewrite app_nil_r.
  - intros v G c mu2 mk2 m2 blocks2 Hr2 Hok2 Hmu Hlast.
    destruct (AppendToFile_then_load w v G v G c _ _ _ _ Hfresh Hok2 Hr2 Hr2)
      as (Happ & Hload).
    eexists. split; [exact Happ|]. split; [|exact Hload].
    eapply LoadFile_spec; [by eapply append_reaches|].
    eapply file_ok_frame; [exact Hok| |cbn; lia].
    destruct Hok2 as ((Hm2 & Hfk2 & Hc2) & Hfree2 & Hold2).
    intros k Hk.
    assert (k ≠ mu2) as H1.
    { destruct Hk as [-> | [-> | Hk]]; [done| |].
      - intros Heq. rewrite Heq in Hfree.
        destruct Hm2 as (_ & iv & Hx). congruence.
      - destruct (chain_blocks_stored _ _ _ _ _ _ Hfk Hc Hk) as [f Hf].
        eapply stored_ne; eauto; discriminate. }
    assert (k ≠ Last m2) as H2.
    { destruct Hk as [-> | [-> | Hk]]; [|done|].
      - intros Heq. rewrite Heq in Hm.
        destruct Hm as (_ & iv & Hx). congruence.
      - destruct (Hstored k) as (kk & j & (_ & iv & Hx) & _); [by right|].
        intros Heq. rewrite Heq in Hx. congruence. }
    cbn. by rewrite !lookup_insert_ne.
Qed.

Lemma files_are_independent_witness :
  ∃ w',
    StoreFile bob "a" [] with_file = (Ok (), w')
    ∧ LoadFile alice "a" w' = (Ok hello, w')
    ∧ LoadFile bob "a" w' = (Ok [], w').
Proof.
  destruct sharing_with_file as [Hinv _ _ Hok _ _ _ _ _].
  destruct (files_are_independent with_file alice "a" _ _ _ _
              (inv_fresh _ _ _ _ _ _ _ _ _ _ Hinv)
              (ex_intro _ _ (conj (inv_access _ _ _ _ _ _ _ _ _ _ Hinv)
                                  (inv_resolves _ _ _ _ _ _ _ _ _ _ Hinv)))
              Hok) as (H & _).
  apply (H bob "a" []); [discriminate|vm_compute; reflexivity|discriminate].
Defined.

(** * Tampering *)

Lemma CheckTag_tampered msg tag k :
  tag ≠ TagHMAC (KDF k MAC) msg →
  CheckTag msg tag (KDF k MAC) = Err "integrity check failed".
Proof. intros H. apply CheckTag_wrong_tag; [done|discriminate]. Qed.

(** The loop of LoadFile stops with an error at a tampered block. *)
Lemma LoadFile_loop_tampered w' ds fk last k pre :
  ∀ cur suf acc fuel,
    chain ds fk cur last (pre ++ suf) → suf ≠ [] → (hd (k, mkFile [] Nil) suf).1 = k →
    (∀ b, b ∈ pre.*1 → datastore w' !! b = ds !! b) →
    tampered fk (datastore w' !! k) →
    List.length pre < fuel →
    ∃ e, LoadFile_loop fuel (KDF fk ENCRYPT) (KDF fk MAC) last cur acc w'
         = (Err e, w').
Proof.
  induction pre as [|[b f] pre IH]; intros cur suf acc fuel Hc Hsuf Hk Hsame Ht Hfuel;
    (destruct fuel as [|fuel]; [cbn in Hfuel; lia|]).
  - destruct suf as [|[b f] suf]; [done|]. cbn in Hk. subst b.
    cbn in Hc. destruct Hc as (-> & Hne & _).
    rewrite LoadFile_loop_unfold, decide_False by done. mgo.
    unfold tampered in Ht.
    destruct (datastore w' !! cur) as [[msg tag|raw]|]; mgo; eauto.
    rewrite CheckTag_tampered by done. eauto.
  - cbn in Hc. destruct Hc as (-> & Hne & [iv Hv] & Hc).
    rewrite LoadFile_loop_unfold, decide_False by done.
    rewrite <- Hsame in Hv by (cbn; apply elem_of_cons; by left).
    unfold DecryptFileMsg, Seal in *. mgo.
    eapply IH; eauto.
    + intros b' Hb'. apply Hsame. cbn. apply elem_of_cons. by right.
    + cbn in Hfuel. lia.
Qed.

(** X20. Tampering with a file is detected: for a user who reaches a
    well-formed file, let one value on the way be removed or replaced by
    a value that does not carry the HMAC of its ciphertext under the key
    of that record - the user's Access, the Invitation of a sharee, the
    Metadata or one of the blocks - and the rest of the Datastore be as it
    was; then LoadFile returns an error, and writes nothing. *)
Theorem tampering_is_detected (w w' : World) (u : User) (F : string)
    (a : Access) (mu mk : bytes) (m : Meta) (blocks : list (bytes * File))
    (k : UUID)
    (Haccess : has_access (datastore w) u F a)
    (Hresolves : resolves (datastore w) a mu mk)
    (Hfile : file_at (datastore w) mu mk m blocks)
    (Hrest : ∀ k', k' ≠ k → datastore w' !! k' = datastore w !! k')
    (Htampered :
       (k = KDF (sourceKey u) F
        ∧ tampered (KDF (sourceKey u) F) (datastore w' !! k))
       ∨ (IsOwner a = false ∧ k = InvitationUUID a
          ∧ tampered (InvitationSourcekey a) (datastore w' !! k))
       ∨ (k = mu ∧ tampered mk (datastore w' !! k))
       ∨ (k ∈ blocks.*1 ∧ tampered (FileSourcekey m) (datastore w' !! k))) :
  ∃ e, LoadFile u F w' = (Err e, w').
Proof.
  destruct Haccess as [Hn Hacc]. pose proof Hacc as (_ & iva & Ha).
  destruct Hfile as (Hm & Hfk & Hc). pose proof Hm as (Hmk & ivm & Hmv).
  assert (KDF (sourceKey u) F ≠ mu) as Ham by (eapply stored_ne; eauto; discriminate).
  assert (∀ b, b ∈ blocks.*1 → b ≠ KDF (sourceKey u) F ∧ b ≠ mu) as Hblk.
  { intros b Hb. destruct (chain_blocks_stored _ _ _ _ _ _ Hfk Hc Hb) as [f Hf].
    split; eapply stored_ne; eauto; discriminate. }
  destruct Htampered as [(-> & Ht) | [(Ho & -> & Ht) | [(-> & Ht) | (Hk & Ht)]]].
  - (* the Access *)
    unfold LoadFile. mgo. unfold tampered in Ht.
    destruct (datastore w' !! KDF (sourceKey u) F) as [[msg tag|raw]|]; mgo;
      eauto.
    rewrite CheckTag_tampered by done. eauto.
  - (* the Invitation *)
    unfold resolves in Hresolves. rewrite Ho in Hresolves.
    assert (KDF (sourceKey u) F ≠ InvitationUUID a)
      by (eapply stored_ne; eauto; discriminate).
    rewrite <- Hrest in Ha by done.
    destruct Hresolves as (Hik & _).
    unfold LoadFile, Seal in *. mgo. unfold GetMetaUUIDAndSourceKey.
    rewrite Ho. mgo. unfold tampered in Ht.
    destruct (datastore w' !! InvitationUUID a) as [[msg tag|raw]|]; mgo;
      eauto.
    rewrite CheckTag_tampered by done. eauto.
  - (* the Metadata *)
    assert (has_access (datastore w') u F a ∧ resolves (datastore w') a mu mk)
      as [(_ & _ & iva' & Ha') Hr'].
    { eapply reaches_frame; [by split|done| |].
      - by apply Hrest.
      - intros Ho. apply Hrest. unfold resolves in Hresolves.
        rewrite Ho in Hresolves. eapply stored_ne; eauto; discriminate. }
    unfold LoadFile. mgo. rewrite (GetMetaUUIDAndSourceKey_run _ _ _ _ Hr').
    mgo. unfold tampered in Ht.
    destruct (datastore w' !! mu) as [[msg tag|raw]|]; mgo; eauto.
    rewrite CheckTag_tampered by done. eauto.
  - (* a block *)
    destruct (Hblk _ Hk) as [Hka Hkm].
    assert (has_access (datastore w') u F a ∧ resolves (datastore w') a mu mk)
      as [Ha' Hr'].
    { eapply reaches_frame; [by split|done| |].
      - apply Hrest. congruence.
      - intros Ho. apply Hrest. unfold resolves in Hresolves.
        rewrite Ho in Hresolves.
        destruct (chain_blocks_stored _ _ _ _ _ _ Hfk Hc Hk) as [f Hf].
        eapply stored_ne; eauto; discriminate. }
    assert (stored (datastore w') mu mk (JMeta m)) as Hm'.
    { eapply stored_frame; [|done]. apply Hrest. congruence. }
    erewrite LoadFile_walk; [|exact Ha'|exact Hr'|exact Hm'|done].
    apply list_elem_of_fmap in Hk as ([k0 f0] & Hk0 & Hin). cbn in Hk0.
    apply list_elem_of_split in Hin as (pre & suf & ->).
    pose proof (chain_NoDup _ _ _ _ _ Hc) as Hnd.
    rewrite fmap_app in Hnd. apply NoDup_app in Hnd as (Hnd1 & Hnd2 & _).
    assert (∀ b, b ∈ pre.*1 → datastore w' !! b = datastore w !! b) as Hsame.
    { intros b Hb. apply Hrest. intros ->. apply (Hnd2 _ Hb). cbn.
      apply elem_of_cons. by left. }
    assert (List.length pre ≤ size (datastore w')).
    { rewrite <- (length_fmap fst pre), <- size_dom.
      unfold size at 1, set_size. cbn.
      apply submseteq_length, NoDup_submseteq; [done|].
      intros b Hb. apply elem_of_elements, elem_of_dom. rewrite Hsame by done.
      eapply chain_in_dom; [exact Hc|]. rewrite fmap_app. apply elem_of_app.
      by left. }
    destruct (LoadFile_loop_tampered w' (datastore w) (FileSourcekey m) (Last m)
                k pre (Start m) ((k0, f0) :: suf) [] (S (size (datastore w'))))
      as [e He]; [exact Hc|done|cbn; congruence|exact Hsame|exact Ht|lia|].
    rewrite He. eauto.
Qed.


Lemma tampering_is_detected_witness :
  ∃ e,
    LoadFile alice "a"
      (mkWorld (<[Uuid 10 := RawValue "tampered"]> (datastore with_file))
         (keystore with_file) (rng with_file))
    = (Err e,
       mkWorld (<[Uuid 10 := RawValue "tampered"]> (datastore with_file))
         (keystore with_file) (rng with_file)).
Proof.
  destruct sharing_with_file as [Hinv _ _ (Hfile & _) _ _ _ _ _].
  apply (tampering_is_detected with_file _ alice "a" _ _ _ _ _ (Uuid 10)
           (inv_access _ _ _ _ _ _ _ _ _ _ Hinv)
           (inv_resolves _ _ _ _ _ _ _ _ _ _ Hinv) Hfile).
  - intros k' Hne. cbn. by rewrite lookup_insert_ne.
  - right; right; left. split; [reflexivity|]. cbn.
    by rewrite lookup_insert_eq.
Defined.

(** * What the calls keep *)

(** A relation between worlds that every primitive step respects holds
    between the world a call is run in and the world it leaves, whatever
    the call returns. *)

Section Frame.
Context (R : relation World) `{!PreOrder R}.
Hypothesis Hbump : ∀ w, R w (bump w).

Lemma preserves_ret {A} (a : A) : preserves R (mret a : M A).
Proof. intros w r w' [= <- <-]. reflexivity. Qed.

Lemma preserves_lift {A} (r : result A) : preserves R (lift r).
Proof. intros w r' w' [= <- <-]. reflexivity. Qed.

Lemma preserves_fail {A} msg : preserves R (fail msg : M A).
Proof. apply preserves_lift. Qed.

Lemma preserves_bind {A B} (m : M A) (f : A → M B) :
  preserves R m → (∀ a, preserves R (f a)) → preserves R (m ≫= f).
Proof.
  intros Hm Hf w r w'. rewrite run_bind.
  destruct (m w) as [[a|e|e|] w1] eqn:Hrun; pose proof (Hm _ _ _ Hrun) as H1.
  - intros H2. apply Hf in H2. by etrans.
  - by intros [= <- <-].
  - by intros [= <- <-].
  - by intros [= <- <-].
Qed.

Lemma preserves_orErr {A} (m : M A) msg : preserves R m → preserves R (orErr m msg).
Proof.
  intros Hm w r w'. unfold orErr.
  destruct (m w) as [[a|e|e|] w1] eqn:Hrun; pose proof (Hm _ _ _ Hrun) as H1;
    by intros [= <- <-].
Qed.

Lemma preserves_ignoreErr (m : M unit) :
  preserves R m → preserves R (ignoreErr m).
Proof.
  intros Hm w r w'. unfold ignoreErr.
  destruct (m w) as [[a|e|e|] w1] eqn:Hrun; pose proof (Hm _ _ _ Hrun) as H1;
    by intros [= <- <-].
Qed.

Lemma preserves_DatastoreGet k : preserves R (DatastoreGet k).
Proof. intros w r w' [= <- <-]. reflexivity. Qed.

Lemma preserves_KeystoreGet k : preserves R (KeystoreGet k).
Proof. intros w r w' [= <- <-]. reflexivity. Qed.

Lemma preserves_loadFuel : preserves R loadFuel.
Proof. intros w r w' [= <- <-]. reflexivity. Qed.

Lemma preserves_RandomBytes n : preserves R (RandomBytes n).
Proof. intros w r w' [= <- <-]. apply Hbump. Qed.

Lemma preserves_uuid_New : preserves R uuid_New.
Proof. intros w r w' [= <- <-]. apply Hbump. Qed.

Lemma preserves_PKEKeyGen : preserves R PKEKeyGen.
Proof. intros w r w' [= <- <-]. apply Hbump. Qed.

Lemma preserves_DSKeyGen : preserves R DSKeyGen.
Proof. intros w r w' [= <- <-]. apply Hbump. Qed.

End Frame.

Create HintDb frame discriminated.

Ltac frame_step :=
  lazymatch goal with
  | |- preserves _ (mret _) => apply preserves_ret; try assumption
  | |- preserves _ (_ ≫= _) =>
      apply preserves_bind; [assumption | | intros ?; cbv beta]
  | |- preserves _ (lift _) => apply preserves_lift; assumption
  | |- preserves _ (fail _) => apply preserves_fail; assumption
  | |- preserves _ (orErr _ _) => apply preserves_orErr
  | |- preserves _ (ignoreErr _) => apply preserves_ignoreErr
  | |- preserves _ (DatastoreGet _) => apply preserves_DatastoreGet; assumption
  | |- preserves _ (KeystoreGet _) => apply preserves_KeystoreGet; assumption
  | |- preserves _ loadFuel => apply preserves_loadFuel; assumption
  | |- preserves _ (RandomBytes _) => apply preserves_RandomBytes; assumption
  | |- preserves _ uuid_New => apply preserves_uuid_New; assumption
  | |- preserves _ PKEKeyGen => apply preserves_PKEKeyGen; assumption
  | |- preserves _ DSKeyGen => apply preserves_DSKeyGen; assumption
  | |- preserves _ (match ?x with _ => _ end) => destruct x
  | |- preserves _ (let _ := _ in _) => cbv zeta
  | |- preserves _ _ => solve [eauto 2 with frame]
  end.

Ltac frame := repeat frame_step.

Section Readers.
Context (R : relation World) `{!PreOrder R}.
Hypothesis Hbump : ∀ w, R w (bump w).

Lemma preserves_GetRandomKey u : preserves R (GetRandomKey u).
Proof. unfold GetRandomKey. frame. Qed.

Lemma preserves_GetAsynchKeys : preserves R GetAsynchKeys.
Proof. unfold GetAsynchKeys. frame. Qed.

Lemma preserves_EncryptThenMac {A} `{JSON A} (txt : A) k1 k2 :
  preserves R (EncryptThenMac txt k1 k2).
Proof. unfold EncryptThenMac. frame. Qed.

Lemma preserves_EncryptThenMacAccess txt k1 k2 :
  preserves R (EncryptThenMacAccess txt k1 k2).
Proof. unfold EncryptThenMacAccess. frame. Qed.

Lemma preserves_EncryptThenSign txt user sk :
  preserves R (EncryptThenSign txt user sk).
Proof. unfold EncryptThenSign. frame. Qed.

Lemma preserves_CheckSignature msg sig user :
  preserves R (CheckSignature msg sig user).
Proof. unfold CheckSignature. frame. Qed.

Lemma preserves_GetMetaUUIDAndSourceKey a :
  preserves R (GetMetaUUIDAndSourceKey a).
Proof. unfold GetMetaUUIDAndSourceKey. frame. Qed.

Lemma preserves_UnpackCheckTagAndDecryptFile uuid ek hk :
  preserves R (UnpackCheckTagAndDecryptFile uuid ek hk).
Proof. unfold UnpackCheckTagAndDecryptFile. frame. Qed.

Lemma preserves_LoadFile_loop fuel ek hk last :
  ∀ cur acc, preserves R (LoadFile_loop fuel ek hk last cur acc).
Proof.
  induction fuel as [|fuel IH]; intros cur acc; rewrite LoadFile_loop_unfold;
    frame.
Qed.

End Readers.

#[global] Hint Resolve preserves_GetRandomKey preserves_GetAsynchKeys
  preserves_EncryptThenMac preserves_EncryptThenMacAccess
  preserves_EncryptThenSign preserves_CheckSignature
  preserves_GetMetaUUIDAndSourceKey preserves_UnpackCheckTagAndDecryptFile
  preserves_LoadFile_loop : frame.

Section ReadingCalls.
Context (R : relation World) `{!PreOrder R}.
Hypothesis Hbump : ∀ w, R w (bump w).

Lemma preserves_LoadFile u F : preserves R (LoadFile u F).
Proof. unfold LoadFile. frame. Qed.

Lemma preserves_GetUser u p : preserves R (GetUser u p).
Proof. unfold GetUser. frame. Qed.

End ReadingCalls.

#[global] Hint Resolve preserves_LoadFile preserves_GetUser : frame.

Section Writers.
Context (R : relation World) `{!PreOrder R}.
Hypothesis Hbump : ∀ w, R w (bump w).
Hypothesis Hset :
  ∀ k v w, R w (mkWorld (<[k:=v]> (datastore w)) (keystore w) (rng w)).

Lemma preserves_DatastoreSet k v : preserves R (DatastoreSet k v).
Proof. intros w r w' [= <- <-]. apply Hset. Qed.

#[local] Hint Resolve preserves_DatastoreSet : frame.

Lemma preserves_AddFileToDatabase uuid k content :
  preserves R (AddFileToDatabase uuid k content).
Proof. unfold AddFileToDatabase. frame. Qed.

#[local] Hint Resolve preserves_AddFileToDatabase : frame.

Lemma preserves_StoreFile u F content : preserves R (StoreFile u F content).
Proof. unfold StoreFile. frame. Qed.

Lemma preserves_AppendToFile u F content :
  preserves R (AppendToFile u F content).
Proof. unfold AppendToFile. frame. Qed.

Lemma preserves_CreateInvitation u F r : preserves R (CreateInvitation u F r).
Proof. unfold CreateInvitation. frame. Qed.

Lemma preserves_AcceptInvitation u s t F :
  preserves R (AcceptInvitation u s t F).
Proof. unfold AcceptInvitation. frame. Qed.

Lemma preserves_RevokeAccess_loop mu mk entries :
  preserves R (RevokeAccess_loop mu mk entries).
Proof.
  induction entries as [|[i k] rest IH];
    unfold RevokeAccess_loop; fold RevokeAccess_loop; [frame|].
  unfold RevokeAccess_body. frame.
Qed.

#[local] Hint Resolve preserves_RevokeAccess_loop : frame.

Lemma preserves_RevokeAccess u F r : preserves R (RevokeAccess u F r).
Proof. unfold RevokeAccess. frame. Qed.

Hypothesis Hks :
  ∀ k v w, keystore w !! k = None →
           R w (mkWorld (datastore w) (<[k:=v]> (keystore w)) (rng w)).

Lemma preserves_KeystoreSet k v : preserves R (KeystoreSet k v).
Proof.
  intros w r w'. unfold KeystoreSet.
  destruct (keystore w !! k) eqn:Hk; intros [= <- <-]; [reflexivity|by apply Hks].
Qed.

#[local] Hint Resolve preserves_KeystoreSet : frame.

Lemma preserves_InitUser u p : preserves R (InitUser u p).
Proof. unfold InitUser. frame. Qed.

End Writers.

#[global] Instance same_stores_preorder : PreOrder same_stores.
Proof.
  split.
  - intros w. by repeat split.
  - intros w1 w2 w3 (H1 & H2 & H3) (H4 & H5 & H6).
    repeat split; [congruence..|lia].
Qed.

#[global] Instance datastore_grows_preorder : PreOrder datastore_grows.
Proof.
  split.
  - intros w. by repeat split.
  - intros w1 w2 w3 (H1 & H2 & H3) (H4 & H5 & H6).
    repeat split; [set_solver|congruence|lia].
Qed.

#[global] Instance stores_grow_preorder : PreOrder stores_grow.
Proof.
  split.
  - intros w. by repeat split.
  - intros w1 w2 w3 (H1 & H2 & H3) (H4 & H5 & H6).
    repeat split; [set_solver|by etrans|lia].
Qed.

Lemma preserves_run (R : relation World) {A} (m : M A) w :
  preserves R m → R w (m w).2.
Proof. intros Hm. destruct (m w) as [r w'] eqn:Hrun. by apply (Hm w r w'). Qed.

Lemma datastore_grows_set k v w :
  datastore_grows w (mkWorld (<[k:=v]> (datastore w)) (keystore w) (rng w)).
Proof.
  split; [|by split]. cbn. rewrite dom_insert. set_solver.
Qed.

Lemma stores_grow_set k v w :
  stores_grow w (mkWorld (<[k:=v]> (datastore w)) (keystore w) (rng w)).
Proof.
  split; [|by split]. cbn. rewrite dom_insert. set_solver.
Qed.

Lemma stores_grow_publish k v w :
  keystore w !! k = None →
  stores_grow w (mkWorld (datastore w) (<[k:=v]> (keystore w)) (rng w)).
Proof.
  intros Hk. split; [done|]. split; [|done]. cbn. by apply insert_subseteq.
Qed.

Lemma GetUser_world username password w : (GetUser username password w).2 = w.
Proof.
  unfold GetUser. repeat (first [progress mgo | mcase]); reflexivity.
Qed.

(** X21. The calls that read do not write: whatever LoadFile returns,
    on whatever Datastore, the Datastore and the Keystore are what they
    were (a failed resolution may have drawn a UUID); GetUser leaves the
    world as it was. *)
Theorem reads_never_write (u : User) (F username password : string)
    (w : World) :
  same_stores w (LoadFile u F w).2
  ∧ (GetUser username password w).2 = w.
Proof.
  split; [|apply GetUser_world].
  apply preserves_run, preserves_LoadFile; [apply _|].
  intros w0. split; [done|]. split; [done|]. cbn. lia.
Qed.

(** X22. Nothing is ever removed: whatever they return, StoreFile,
    AppendToFile, CreateInvitation, AcceptInvitation and RevokeAccess
    leave every key of the Datastore in the Datastore and the Keystore as
    it was; InitUser leaves every key in the Datastore and every entry of
    the Keystore as it was, adding at most entries under new names. *)
Theorem stores_only_grow (w : World) :
  (∀ u F c, datastore_grows w (StoreFile u F c w).2)
  ∧ (∀ u F c, datastore_grows w (AppendToFile u F c w).2)
  ∧ (∀ u F R, datastore_grows w (CreateInvitation u F R w).2)
  ∧ (∀ u sender token F,
       datastore_grows w (AcceptInvitation u sender token F w).2)
  ∧ (∀ u F R, datastore_grows w (RevokeAccess u F R w).2)
  ∧ (∀ username password, stores_grow w (InitUser username password w).2).
Proof.
  assert (∀ w0, datastore_grows w0 (bump w0)) as Hbump.
  { intros w0. split; [done|]. split; [done|]. cbn. lia. }
  assert (∀ w0, stores_grow w0 (bump w0)) as Hbump'.
  { intros w0. split; [done|]. split; [done|]. cbn. lia. }
  repeat apply conj; intros; apply preserves_run.
  - apply preserves_StoreFile; [apply _|done|]. intros. apply datastore_grows_set.
  - apply preserves_AppendToFile; [apply _|done|]. intros. apply datastore_grows_set.
  - apply preserves_CreateInvitation; [apply _|done|]. intros. apply datastore_grows_set.
  - apply preserves_AcceptInvitation; [apply _|done|]. intros. apply datastore_grows_set.
  - apply preserves_RevokeAccess; [apply _|done|]. intros. apply datastore_grows_set.
  - apply preserves_InitUser; [apply _|done| |].
    + intros. apply stores_grow_set.
    + intros. by apply stores_grow_publish.
Qed.
